(** * cwltool/subgraph.py: subgraph extraction over a workflow document

    A shallow embedding of [_declare_node], [_subgraph_visit], [find_step],
    [get_subgraph] and [get_step], followed by the properties of the
    specification that concern them.

    Conventions of the embedding.
    - A Python [dict] used as a map is a [gmap]; the [visited] sets are
      [gset]s; the [rewire] dict, whose insertion order decides the order of
      the appended inputs, is an association list.
    - A raised exception is [Raise e]; a normal return is [Ok a].
    - The order in which Python enumerates a [set] is not determined by the
      program, so the pass that iterates [visited_down] takes the
      enumeration as a parameter [set_iter].
    - [urllib.parse.urldefrag] is a function of the Python library, not of
      this program: the pass takes it as a parameter [urldefrag], which
      returns a pair or raises. *)

From stdpp Require Import base option list gmap sets strings.
From Stdlib Require Import Ascii.
From Stdlib Require String.


Local Open Scope stdpp_scope.

Set Warnings "-register-all,-clear-no-such-hyp,-level-tolerance".

(** ** Strings *)

Module Str.

(** [s.startswith(p)] *)
Definition startswith (s p : string) : bool := String.prefix p s.

(** [s[n:]] *)
Fixpoint drop (n : nat) (s : string) : string :=
  match n, s with
  | O, _ => s
  | S _, EmptyString => EmptyString
  | S n', String _ s' => drop n' s'
  end.

(** [u in s] for two strings: [u] occurs in [s] as a contiguous run. *)
Fixpoint contains (s u : string) : bool :=
  String.prefix u s ||
  match s with
  | EmptyString => false
  | String _ s' => contains s' u
  end.

(** [c in s] for a one-character string [c]. *)
Fixpoint has_char (c : ascii) (s : string) : bool :=
  match s with
  | EmptyString => false
  | String a s' => Ascii.eqb a c || has_char c s'
  end.

(** [s.replace(a, b)] for one-character strings [a] and [b]. *)
Fixpoint replace (a b : ascii) (s : string) : string :=
  match s with
  | EmptyString => EmptyString
  | String c s' => String (if Ascii.eqb c a then b else c) (replace a b s')
  end.

(** [s.split(c)]: the pieces of [s] between the occurrences of [c]; never
    empty.  [s.rsplit(c)], without a maximum, gives the same list. *)
Fixpoint split (c : ascii) (s : string) : list string :=
  match s with
  | EmptyString => [EmptyString]
  | String a s' =>
      match split c s' with
      | h :: t => if Ascii.eqb a c then EmptyString :: h :: t else String a h :: t
      | [] => [EmptyString]
      end
  end.

(** [l[-1]] on the result of a split (which is never empty). *)
Definition last (l : list string) : string := List.last l EmptyString.

(** [s.split(c, 1)]: the text before the first [c] and the text after it,
    when there is a [c]. *)
Fixpoint split_first (c : ascii) (s : string) : option (string * string) :=
  match s with
  | EmptyString => None
  | String a s' =>
      if Ascii.eqb a c then Some (EmptyString, s')
      else match split_first c s' with
           | Some (x, y) => Some (String a x, y)
           | None => None
           end
  end.

End Str.

(** ** Errors *)

Inductive nodeid : Type :=
| Id (s : string)
| SeqClass.
(** [SeqClass] is the class object [CommentedSeq]: line 124 passes it (not an
    instance of it) as the default of [out.get("outputSource", ...)], so an
    output without [outputSource] gets that object as its one upstream
    "identifier". *)

#[global] Instance nodeid_eq_dec : EqDecision nodeid.
Proof. solve_decision. Defined.

#[global] Instance nodeid_countable : Countable nodeid :=
  inj_countable'
    (λ k, match k with Id s => Some s | SeqClass => None end)
    (λ o, match o with Some s => Id s | None => SeqClass end)
    (λ k, match k with Id _ => eq_refl | SeqClass => eq_refl end).

Inductive error : Type :=
| NotWorkflow                 (* "Can only extract subgraph from workflow" *)
| KeyError (k : nodeid)       (* nodes[k] on an absent key *)
| MissingField (f : string)   (* d[f] on a mapping without f *)
| StepNotFound (v : nodeid)   (* "Could not find step %s" / "Step ... was not found" *)
| TypeError                   (* a string operation applied to [SeqClass],
                                 whichever exception Python raises for it *)
| ValueError                  (* tuple unpacking of the wrong length *)
| RecursionDepth.             (* the traversal ran out of its depth budget *)

Inductive result (A : Type) : Type :=
| Ok (a : A)
| Raise (e : error).
Arguments Ok {A} a.
Arguments Raise {A} e.

Definition bind {A B} (r : result A) (k : A → result B) : result B :=
  match r with
  | Ok a => k a
  | Raise e => Raise e
  end.

Notation "'let*' x ':=' r 'in' k" := (bind r (λ x, k))
  (at level 10, x pattern, r at level 100, k at level 200).

(** [for x in l: st = f(st, x)] with exceptions. *)
Fixpoint for_each {A S} (f : S → A → result S) (l : list A) (st : S) : result S :=
  match l with
  | [] => Ok st
  | x :: l' => let* st' := f st x in for_each f l' st'
  end.

(** [urllib.parse.urldefrag] belongs to the Python library.  It parses the
    identifier as a URL and puts it together again without its fragment, so
    what it returns is not a plain split at ['#'] (an empty query is dropped,
    the scheme comes back in lower case), and it raises [ValueError] on a
    malformed authority.  It is taken as a parameter: for an identifier, the
    pair it returns (the URL without its fragment, and the fragment), or the
    exception it raises. *)
Abbreviation urldefrag_fn := (string → result (string * string)).

(** ** The node registry *)

Inductive ntype : Type := INPUT | OUTPUT | STEP.

#[global] Instance ntype_eq_dec : EqDecision ntype.
Proof. solve_decision. Defined.

Inductive direction : Type := UP | DOWN.

Record _Node : Type := mk_Node {
  up : list nodeid;
  down : list nodeid;
  type : option ntype
}.

Abbreviation registry := (gmap nodeid _Node).

(** Lines 45-58.  The returned tuple is [nodes[nodeid]] of the returned
    registry; the embedding returns the registry. *)
Definition _declare_node (nodes : registry) (nodeid : nodeid) (tp : option ntype) : registry :=
  match nodes !! nodeid with
  | Some n =>
      match type n with
      | None => <[nodeid := mk_Node (up n) (down n) tp]> nodes
      | Some _ => nodes
      end
  | None => <[nodeid := mk_Node [] [] tp]> nodes
  end.

(** [nodes[k].up.append(x)] and [nodes[k].down.append(x)].  The lists of a
    node are shared by every tuple [_declare_node] makes for its key (line 55
    passes [n.up] and [n.down] on), so appending through an older handle, as
    [step.up.append] does, is appending to the registry's entry.  Every call
    site has declared [k] just before. *)
Definition up_append (k x : nodeid) (nodes : registry) : registry :=
  alter (λ n, mk_Node (up n ++ [x]) (down n) (type n)) k nodes.

Definition down_append (k x : nodeid) (nodes : registry) : registry :=
  alter (λ n, mk_Node (up n) (down n ++ [x]) (type n)) k nodes.

(** ** Documents *)

(** A parsed YAML value that the program only copies. *)
Inductive value : Type :=
| VStr (s : string)
| VSeq (l : list value)
| VMap (m : list (string * value)).

(** A [source] or [outputSource]: one identifier or a sequence of them. *)
Inductive source : Type :=
| Scalar (s : string)
| Seq (l : list string).

(** Modelled from the spec: [aslist] of [cwltool.utils] is not among the
    sources; the specification reads it as "a single identifier or a list":
    a sequence is returned as it is, anything else becomes a one-element
    list. *)
Definition aslist (s : source) : list string :=
  match s with
  | Scalar x => [x]
  | Seq l => l
  end.

(** The mappings of the document are records: the keys the program reads
    are fields (an optional key is an [option]), every other key is kept,
    in order, in an association list. *)
Abbreviation fields := (list (string * value)).

Record InputRec : Type := mkInputRec {
  inp_id : string;
  inp_fields : fields
}.

Record OutputRec : Type := mkOutputRec {
  out_id : string;
  out_outputSource : option source;
  out_fields : fields
}.

Record InPort : Type := mkInPort {
  in_id : string;
  in_source : option source;
  in_linkMerge : option value;
  in_default : option value;
  in_fields : fields
}.

(** An element of [out]: a bare identifier or a mapping with an [id]. *)
Inductive OutPort : Type :=
| OutStr (id : string)
| OutMap (id : string) (rest : fields).

Definition outport_id (o : OutPort) : string :=
  match o with
  | OutStr id => id
  | OutMap id _ => id
  end.

Record StepRec : Type := mkStepRec {
  st_id : string;
  st_in : list InPort;
  st_out : list OutPort;
  st_fields : fields
}.

(** [tool.tool]: [inputs], [outputs], [steps], and every other top-level
    key ([class], [id], [cwlVersion], ...) in [doc_fields]. *)
Record Doc : Type := mkDoc {
  doc_inputs : list InputRec;
  doc_outputs : list OutputRec;
  doc_steps : list StepRec;
  doc_fields : fields
}.

(** [d[k]] and [d[k] = v] on an ordered mapping. *)
Fixpoint field_get {V} (k : string) (d : list (string * V)) : option V :=
  match d with
  | [] => None
  | (k', v) :: d' => if decide (k' = k) then Some v else field_get k d'
  end.

Fixpoint field_set {V} (k : string) (v : V) (d : list (string * V)) : list (string * V) :=
  match d with
  | [] => [(k, v)]
  | (k', v') :: d' =>
      if decide (k' = k) then (k, v) :: d' else (k', v') :: field_set k v d'
  end.

(** ** Building the registry (lines 117-149) *)

(** Lines 124-129, for one [i]. *)
Definition add_output_source (oid : string) (nodes : registry) (i : nodeid) : registry :=
  let nodes := up_append (Id oid) i nodes in
  let nodes := _declare_node nodes i None in
  down_append i (Id oid) nodes.

(** [aslist(out.get("outputSource", CommentedSeq))] *)
Definition output_sources (out : OutputRec) : list nodeid :=
  match out_outputSource out with
  | Some s => Id <$> aslist s
  | None => [SeqClass]
  end.

(** Lines 122-129, for one [out]. *)
Definition declare_output (nodes : registry) (out : OutputRec) : registry :=
  let nodes := _declare_node nodes (Id (out_id out)) (Some OUTPUT) in
  foldl (add_output_source (out_id out)) nodes (output_sources out).

(** Lines 136-141, for one [src]. *)
Definition add_step_source (sid : string) (nodes : registry) (src : string) : registry :=
  let nodes := up_append (Id sid) (Id src) nodes in
  let nodes := _declare_node nodes (Id src) None in
  down_append (Id src) (Id sid) nodes.

(** Lines 133-141, for one [i]. *)
Definition add_step_in (sid : string) (nodes : registry) (i : InPort) : registry :=
  match in_source i with
  | None => nodes
  | Some s => foldl (add_step_source sid) nodes (aslist s)
  end.

(** Lines 142-149, for one [out]. *)
Definition add_step_out (sid : string) (nodes : registry) (out : OutPort) : registry :=
  let out := Id (outport_id out) in
  let nodes := down_append (Id sid) out nodes in
  let nodes := _declare_node nodes out None in
  up_append out (Id sid) nodes.

(** Lines 131-149, for one [st]. *)
Definition declare_step (nodes : registry) (st : StepRec) : registry :=
  let nodes := _declare_node nodes (Id (st_id st)) (Some STEP) in
  let nodes := foldl (add_step_in (st_id st)) nodes (st_in st) in
  foldl (add_step_out (st_id st)) nodes (st_out st).

(** Lines 117-149. *)
Definition build_nodes (d : Doc) : registry :=
  let nodes : registry := ∅ in
  let nodes := foldl (λ nodes inp, _declare_node nodes (Id (inp_id inp)) (Some INPUT))
                     nodes (doc_inputs d) in
  let nodes := foldl declare_output nodes (doc_outputs d) in
  foldl declare_step nodes (doc_steps d).

(** ** The traversal (lines 27-42) *)

(** [depth] bounds the nesting of the recursive calls; [get_subgraph] passes
    a bound that the traversal never reaches (lemma [visit_depth_enough]). *)
Fixpoint _subgraph_visit (depth : nat) (current : nodeid) (nodes : registry)
    (visited : gset nodeid) (dir : direction) : result (gset nodeid) :=
  match depth with
  | O => Raise RecursionDepth
  | S depth' =>
      if decide (current ∈ visited) then Ok visited
      else
        let visited := {[current]} ∪ visited in
        match nodes !! current with
        | None => Raise (KeyError current)
        | Some n =>
            let d := match dir with DOWN => down n | UP => up n end in
            for_each (λ visited c, _subgraph_visit depth' c nodes visited dir) d visited
        end
  end.

(** ** Step objects and [find_step] (lines 61-107) *)

(** An element of [st.tool["inputs"]] of a step object. *)
Record StepInput : Type := mkStepInput {
  si_id : string;
  si_source : option source;
  si_type : value
}.

(** What [make_tool] or [load_tool] returns: a [Workflow] object, of which
    [find_step] reads [tool["id"]] and [steps], or another process. *)
Inductive Process (S : Type) : Type :=
| WorkflowProcess (id : string) (steps : list S)
| OtherProcess.
Arguments WorkflowProcess {S} id steps.
Arguments OtherProcess {S}.

(** [st.tool["run"]].  [make_tool] and [load_tool] are not among the sources;
    the value they return for this [run] is carried next to it. *)
Inductive Run (S : Type) : Type :=
| RunWorkflow (steps : list S)                (* a Workflow object; its [steps] *)
| RunMap (cls : string) (made : Process S)    (* a CommentedMap; its [class]; [make_tool(run, ctx)] *)
| RunStr (ref : string) (loaded : Process S)  (* a str; [load_tool(run, ctx)] *)
| RunOther.                                   (* any other process object *)
Arguments RunWorkflow {S} steps.
Arguments RunMap {S} cls made.
Arguments RunStr {S} ref loaded.
Arguments RunOther {S}.

(** A [WorkflowStep] object, given by its [tool] mapping. *)
Inductive WorkflowStep : Type :=
| mkWorkflowStep (id : string) (ins : list InPort) (outs : list OutPort)
    (inputs : list StepInput) (run : Run WorkflowStep).

Definition tool_id (st : WorkflowStep) : string :=
  match st with mkWorkflowStep id _ _ _ _ => id end.
Definition tool_in (st : WorkflowStep) : list InPort :=
  match st with mkWorkflowStep _ ins _ _ _ => ins end.
Definition tool_out (st : WorkflowStep) : list OutPort :=
  match st with mkWorkflowStep _ _ outs _ _ => outs end.
Definition tool_inputs (st : WorkflowStep) : list StepInput :=
  match st with mkWorkflowStep _ _ _ inputs _ => inputs end.
Definition tool_run (st : WorkflowStep) : Run WorkflowStep :=
  match st with mkWorkflowStep _ _ _ _ run => run end.

(** Lines 80-86 and 97-103. *)
Definition adj_stepid (prefix suffix : string) : string :=
  let sep := if Str.has_char "#" prefix then "/" else "#" in
  prefix +:+ sep +:+ suffix.

(** [stepid[len(st.tool["id"]) + 1 :]] *)
Definition step_suffix (st_tool_id stepid : string) : string :=
  Str.drop (String.length st_tool_id + 1) stepid.

(** One round of the loop of line 65: [Some] is a [return], [None] goes on
    to the next step. *)
Fixpoint find_step_at (st : WorkflowStep) (stepid : string) : option WorkflowStep :=
  match st with
  | mkWorkflowStep st_tool_id _ _ _ run =>
      let find_step :=
        fix find_step (steps : list WorkflowStep) (stepid : string) : option WorkflowStep :=
          match steps with
          | [] => None
          | st :: steps' =>
              match find_step_at st stepid with
              | Some r => Some r
              | None => find_step steps' stepid
              end
          end in
      if decide (st_tool_id = stepid) then Some st
      else if Str.startswith stepid st_tool_id then
        match run with
        | RunWorkflow steps => find_step steps (step_suffix st_tool_id stepid)
        | RunMap cls (WorkflowProcess prefix steps) =>
            if decide (cls = "Workflow")
            then find_step steps (adj_stepid prefix (step_suffix st_tool_id stepid))
            else None
        | RunStr _ (WorkflowProcess prefix steps) =>
            find_step steps (adj_stepid prefix (step_suffix st_tool_id stepid))
        | _ => None
        end
      else None
  end.

(** Lines 61-107.  The result stands for the pair [(st.tool, st)]; [None]
    for [(None, None)]. *)
Fixpoint find_step (steps : list WorkflowStep) (stepid : string) : option WorkflowStep :=
  match steps with
  | [] => None
  | st :: steps' =>
      match find_step_at st stepid with
      | Some r => Some r
      | None => find_step steps' stepid
      end
  end.

(** ** [get_subgraph] (lines 110-207) *)

(** A [Workflow] object: [tool.tool], [tool.steps], [tool.metadata]. *)
Record Workflow : Type := mkWorkflow {
  wf_tool : Doc;
  wf_steps : list WorkflowStep;
  wf_metadata : fields
}.

(** [tool.tool["class"] != "Workflow"] *)
Definition is_workflow_class (cls : value) : bool :=
  match cls with
  | VStr s => bool_decide (s = "Workflow")
  | _ => false
  end.

(** The [rewire] dict: original identifier, then (new identifier, type). *)
Abbreviation rewire_table := (list (string * (string * value))).

(** Lines 172-173. *)
Definition flatten_id (urldefrag : urldefrag_fn) (u : string) : result string :=
  let* df := urldefrag u in
  Ok (df.1 +:+ "#" +:+ Str.replace "/" "_" df.2).

(** [u in inp["source"]]: containment in a string, membership in a list. *)
Definition source_has (s : source) (u : string) : bool :=
  match s with
  | Scalar x => Str.contains x u
  | Seq l => bool_decide (u ∈ l)
  end.

(** Lines 177-180. *)
Fixpoint rewire_from_inputs (u rn : string) (inputs : list StepInput)
    (rewire : rewire_table) : rewire_table :=
  match inputs with
  | [] => rewire
  | inp :: inputs' =>
      match si_source inp with
      | Some s =>
          if source_has s u then field_set u (rn, si_type inp) rewire
          else rewire_from_inputs u rn inputs' rewire
      | None => rewire_from_inputs u rn inputs' rewire
      end
  end.

Abbreviation rewire_state := (gset nodeid * rewire_table)%type.

Section get_subgraph.

(** What [urllib.parse.urldefrag] does on each identifier. *)
Variable urldefrag : urldefrag_fn.

(** The order in which [for v in visited_down] enumerates the set. *)
Variable set_iter : gset nodeid → list nodeid.

(** Lines 166-182, for one [u]. *)
Definition rewire_up (wsteps : list WorkflowStep) (nodes : registry)
    (visited_down : gset nodeid) (v : nodeid) (nv : _Node)
    (st : rewire_state) (u : nodeid) : result rewire_state :=
  if decide (u ∈ visited_down) then Ok st
  else
    match nodes !! u with
    | None => Raise (KeyError u)
    | Some nu =>
        if decide (type nu = Some INPUT) then Ok ({[u]} ∪ st.1, st.2)
        else
          match u with
          | SeqClass => Raise TypeError
          | Id us =>
              let* rn := flatten_id urldefrag us in
              if decide (type nv = Some STEP) then
                match v with
                | SeqClass => Raise TypeError
                | Id vs =>
                    match find_step wsteps vs with
                    | Some wfstep =>
                        Ok (st.1, rewire_from_inputs us rn (tool_inputs wfstep) st.2)
                    | None => Raise (StepNotFound v)
                    end
                end
              else Ok st
          end
    end.

(** Lines 162-182, for one [v]. *)
Definition rewire_node (wsteps : list WorkflowStep) (nodes : registry)
    (visited_down : gset nodeid) (st : rewire_state) (v : nodeid) : result rewire_state :=
  let st := ({[v]} ∪ st.1, st.2) in
  match nodes !! v with
  | None => Raise (KeyError v)
  | Some nv =>
      if decide (type nv = Some STEP ∨ type nv = Some OUTPUT)
      then for_each (rewire_up wsteps nodes visited_down v nv) (up nv) st
      else Ok st
  end.

(** Lines 153-157, for one [r]. *)
Definition visit_root (nodes : registry) (visited_down : gset nodeid) (r : string)
    : result (gset nodeid) :=
  match nodes !! Id r with
  | None => Raise (KeyError (Id r))
  | Some n =>
      if decide (type n = Some OUTPUT)
      then _subgraph_visit (S (size nodes)) (Id r) nodes visited_down UP
      else _subgraph_visit (S (size nodes)) (Id r) nodes visited_down DOWN
  end.

(** Lines 194-199. *)
Definition rewire_source (rewire : rewire_table) (s : source) : source :=
  match s with
  | Seq l => Seq (omap (λ s, fst <$> field_get s rewire) l)
  | Scalar x =>
      match field_get x rewire with
      | Some rv => Scalar rv.1
      | None => Scalar x
      end
  end.

(** Lines 191-199, for one [in_port]. *)
Definition rewire_port (rewire : rewire_table) (in_port : InPort) : InPort :=
  match in_source in_port with
  | None => in_port
  | Some s =>
      mkInPort (in_id in_port) (Some (rewire_source rewire s))
        (in_linkMerge in_port) (in_default in_port) (in_fields in_port)
  end.

Definition rewire_step (rewire : rewire_table) (i : StepRec) : StepRec :=
  mkStepRec (st_id i) (rewire_port rewire <$> st_in i) (st_out i) (st_fields i).

(** Line 205. *)
Definition new_input (rv : string * value) : InputRec :=
  mkInputRec rv.1 [("type", rv.2)].

(** Lines 184-207.  The step records are edited in place, so the
    [tool.tool["steps"]] of the caller changes with them; the embedding
    returns the extracted document only. *)
Definition extract (d : Doc) (visited : gset nodeid) (rewire : rewire_table) : Doc :=
  mkDoc
    (filter (λ i, Id (inp_id i) ∈ visited) (doc_inputs d) ++ (new_input <$> rewire.*2))
    (filter (λ i, Id (out_id i) ∈ visited) (doc_outputs d))
    (rewire_step rewire <$> filter (λ i, Id (st_id i) ∈ visited) (doc_steps d))
    (doc_fields d).

(** Lines 152-157. *)
Definition reach (nodes : registry) (roots : list string) : result (gset nodeid) :=
  for_each (visit_root nodes) roots ∅.

(** Lines 160-182. *)
Definition rewire_pass (wsteps : list WorkflowStep) (nodes : registry)
    (visited_down : gset nodeid) : result rewire_state :=
  for_each (rewire_node wsteps nodes visited_down) (set_iter visited_down) (∅, []).

Definition get_subgraph (roots : list string) (tool : Workflow) : result Doc :=
  match field_get "class" (doc_fields (wf_tool tool)) with
  | None => Raise (MissingField "class")
  | Some cls =>
      if is_workflow_class cls then
        let nodes := build_nodes (wf_tool tool) in
        let* visited_down := reach nodes roots in
        let* st := rewire_pass (wf_steps tool) nodes visited_down in
        Ok (extract (wf_tool tool) st.1 st.2)
      else Raise NotWorkflow
  end.

End get_subgraph.

(** ** [get_step] (lines 210-254) *)

(** The one-step document: its [steps] holds the step mapping that
    [find_step] returned (edited in place), so it is a list of step
    mappings of step objects. *)
Record StepDoc : Type := mkStepDoc {
  sd_steps : list WorkflowStep;
  sd_inputs : list InputRec;
  sd_outputs : list OutputRec;
  sd_fields : fields
}.

(** [x.split("#")[-1].split("/")[-1]] *)
Definition local_name (x : string) : string :=
  Str.last (Str.split "/" (Str.last (Str.split "#" x))).

(** Lines 225-229: the new top-level input of one [in_port]. *)
Definition step_input_of (in_port : InPort) : InputRec :=
  let name := "#" +:+ local_name (in_id in_port) in
  mkInputRec name
    (("type", VStr "Any") ::
     match in_default in_port with
     | Some d => [("default", d)]
     | None => []
     end).

(** Lines 230-232: the port after the edit. *)
Definition step_port_of (in_port : InPort) : InPort :=
  let name := "#" +:+ local_name (in_id in_port) in
  mkInPort (in_id in_port) (Some (Scalar name)) None (in_default in_port)
    (in_fields in_port).

(** Lines 235-246: the new top-level output of one [outport]. *)
Definition step_output_of (new_id step_name : string) (outport : OutPort) : OutputRec :=
  let name := local_name (outport_id outport) in
  mkOutputRec name
    (Some (Scalar (new_id +:+ "#" +:+ step_name +:+ "/" +:+ name)))
    [("type", VStr "Any")].

Definition get_step (tool : Workflow) (step_id : string) : result StepDoc :=
  match find_step (wf_steps tool) step_id with
  | None => Raise (StepNotFound (Id step_id))
  | Some step =>
      match Str.split "#" (tool_id step) with
      | [new_id; step_name] =>
          let step' :=
            mkWorkflowStep (tool_id step) (step_port_of <$> tool_in step)
              (tool_out step) (tool_inputs step) (tool_run step) in
          let extracted := field_set "id" (VStr new_id) (doc_fields (wf_tool tool)) in
          let* extracted :=
            match field_get "cwlVersion" extracted with
            | Some _ => Ok extracted
            | None =>
                match field_get "cwlVersion" (wf_metadata tool) with
                | Some v => Ok (field_set "cwlVersion" v extracted)
                | None => Raise (MissingField "cwlVersion")
                end
            end in
          Ok (mkStepDoc [step']
                (step_input_of <$> tool_in step)
                (step_output_of new_id step_name <$> tool_out step)
                extracted)
      | _ => Raise ValueError
      end
  end.

(** ** Notions used by the statements *)

(** A sequence of declarations applied to one registry. *)
Definition declare_all (nodes : registry) (decls : list (nodeid * option ntype)) : registry :=
  foldl (λ nodes d, _declare_node nodes d.1 d.2) nodes decls.

(** What lines 70-106 search once a step's identifier is a prefix of the
    target: the steps of the nested workflow, for the target re-based on
    [suffix]. *)
Definition nested_search (run : Run WorkflowStep) (suffix : string) : option WorkflowStep :=
  match run with
  | RunWorkflow steps => find_step steps suffix
  | RunMap cls (WorkflowProcess prefix steps) =>
      if decide (cls = "Workflow") then find_step steps (adj_stepid prefix suffix) else None
  | RunStr _ (WorkflowProcess prefix steps) => find_step steps (adj_stepid prefix suffix)
  | _ => None
  end.

(** What one copied port becomes. *)
Definition port_rewritten (rewire : rewire_table) (p p' : InPort) : Prop :=
  in_id p' = in_id p ∧ in_linkMerge p' = in_linkMerge p ∧
  in_default p' = in_default p ∧ in_fields p' = in_fields p ∧
  match in_source p with
  | None => in_source p' = None
  | Some (Seq l) =>
      ∃ l', in_source p' = Some (Seq l') ∧
        Forall2 (λ s r, ∃ ty, field_get s rewire = Some (r, ty))
          (filter (λ s, is_Some (field_get s rewire)) l) l'
  | Some (Scalar x) =>
      match field_get x rewire with
      | Some (r, _) => in_source p' = Some (Scalar r)
      | None => in_source p' = Some (Scalar x)
      end
  end.

(** A [source] holds [u]: [u] occurs somewhere in a scalar [source], as a
    contiguous run of its characters; [u] is an element of a list
    [source]. *)
Definition holds (s : source) (u : string) : Prop :=
  match s with
  | Scalar x => ∃ a b, x = a +:+ u +:+ b
  | Seq l => u ∈ l
  end.

(** Before [p], no port has a [source] that holds [u]. *)
Definition no_match_before (u : string) (pre : list StepInput) : Prop :=
  ∀ q s, q ∈ pre → si_source q = Some s → ¬ holds s u.

(** The successors of [x] in one direction. *)
Definition edges (nodes : registry) (dir : direction) (x : nodeid) : list nodeid :=
  match nodes !! x with
  | Some n => match dir with DOWN => down n | UP => up n end
  | None => []
  end.

(** [walk nodes dir visited x z]: [z] is reached from [x] along edges of
    direction [dir] through nodes none of which is in [visited] ([x] and [z]
    included).  With [visited = ∅] this is plain reachability. *)
Inductive walk (nodes : registry) (dir : direction) (visited : gset nodeid)
  : nodeid → nodeid → Prop :=
| walk_here x : x ∉ visited → walk nodes dir visited x x
| walk_step x y z :
    x ∉ visited → y ∈ edges nodes dir x → walk nodes dir visited y z →
    walk nodes dir visited x z.

(** Every identifier on an edge list is registered. *)
Definition closed (nodes : registry) : Prop :=
  ∀ k n x, nodes !! k = Some n → x ∈ up n ++ down n → is_Some (nodes !! x).

(** *** The registry as a sequence of elementary writes

    [build_nodes] only ever declares a key or appends to one of the two
    lists of a key.  The sequence of these writes, in program order, is
    [doc_ops]; the registry is read off it. *)
Inductive op : Type :=
| OpDeclare (k : nodeid) (tp : option ntype)
| OpUp (k x : nodeid)
| OpDown (k x : nodeid).

Definition apply_op (nodes : registry) (o : op) : registry :=
  match o with
  | OpDeclare k tp => _declare_node nodes k tp
  | OpUp k x => up_append k x nodes
  | OpDown k x => down_append k x nodes
  end.

(** [i] is upstream of [k]. *)
Definition source_ops (k i : nodeid) : list op :=
  [OpUp k i; OpDeclare i None; OpDown i k].

(** [o] is downstream of step [k]. *)
Definition out_ops (k o : nodeid) : list op :=
  [OpDown k o; OpDeclare o None; OpUp o k].

Definition port_sources (p : InPort) : list string :=
  match in_source p with
  | Some s => aslist s
  | None => []
  end.

Definition step_sources (st : StepRec) : list string := st_in st ≫= port_sources.

Definition step_outs (st : StepRec) : list string := outport_id <$> st_out st.

Definition output_ops (o : OutputRec) : list op :=
  OpDeclare (Id (out_id o)) (Some OUTPUT)
    :: (output_sources o ≫= source_ops (Id (out_id o))).

Definition step_ops (st : StepRec) : list op :=
  OpDeclare (Id (st_id st)) (Some STEP)
    :: ((Id <$> step_sources st) ≫= source_ops (Id (st_id st)))
    ++ ((Id <$> step_outs st) ≫= out_ops (Id (st_id st))).

Definition doc_ops (d : Doc) : list op :=
  ((λ i, OpDeclare (Id (inp_id i)) (Some INPUT)) <$> doc_inputs d)
    ++ (doc_outputs d ≫= output_ops) ++ (doc_steps d ≫= step_ops).

(** What a sequence of writes appends to [up] and [down] of [k], the first
    kind it declares for [k], and the keys it declares. *)
Definition ups (k : nodeid) (ops : list op) : list nodeid :=
  ops ≫= λ o, match o with
              | OpUp k' x => if decide (k' = k) then [x] else []
              | _ => []
              end.

Definition downs (k : nodeid) (ops : list op) : list nodeid :=
  ops ≫= λ o, match o with
              | OpDown k' x => if decide (k' = k) then [x] else []
              | _ => []
              end.

Fixpoint kind (k : nodeid) (ops : list op) : option ntype :=
  match ops with
  | [] => None
  | OpDeclare k' (Some t) :: ops' => if decide (k' = k) then Some t else kind k ops'
  | _ :: ops' => kind k ops'
  end.

Definition declared (ops : list op) : gset nodeid :=
  list_to_set (ops ≫= λ o, match o with OpDeclare k _ => [k] | _ => [] end).

(** Every append is to a key that is present when it happens. *)
Fixpoint ops_ok (D : gset nodeid) (ops : list op) : Prop :=
  match ops with
  | [] => True
  | OpDeclare k _ :: ops' => ops_ok ({[k]} ∪ D) ops'
  | OpUp k _ :: ops' => k ∈ D ∧ ops_ok D ops'
  | OpDown k _ :: ops' => k ∈ D ∧ ops_ok D ops'
  end.

(** Node [n] after the writes [ops] to key [k]. *)
Definition extend (n : _Node) (k : nodeid) (ops : list op) : _Node :=
  mk_Node (up n ++ ups k ops) (down n ++ downs k ops)
    (match type n with Some t => Some t | None => kind k ops end).

(** The identifiers of the document: declared inputs, outputs and steps,
    and whatever an [outputSource], a [source] or a step output names. *)
Definition input_ids (d : Doc) : list string := inp_id <$> doc_inputs d.
Definition output_ids (d : Doc) : list string := out_id <$> doc_outputs d.
Definition step_ids (d : Doc) : list string := st_id <$> doc_steps d.

Definition doc_ids (d : Doc) : list nodeid :=
  (Id <$> input_ids d)
    ++ (doc_outputs d ≫= λ o, Id (out_id o) :: output_sources o)
    ++ (doc_steps d ≫= λ st,
          Id (st_id st) :: (Id <$> step_sources st) ++ (Id <$> step_outs st)).

(** [feeds d x k]: the document makes [x] an upstream dependency of [k]:
    [x] is an [outputSource] of output [k], a [source] of step [k], or [k] is
    an output port of step [x]. *)
Definition feeds (d : Doc) (x k : nodeid) : Prop :=
  (∃ o, o ∈ doc_outputs d ∧ k = Id (out_id o) ∧ x ∈ output_sources o) ∨
  (∃ st s, st ∈ doc_steps d ∧ k = Id (st_id st) ∧ s ∈ step_sources st ∧ x = Id s) ∨
  (∃ st o, st ∈ doc_steps d ∧ x = Id (st_id st) ∧ o ∈ step_outs st ∧ k = Id o).

(** The kind the registry gives an identifier: the first of [INPUT],
    [OUTPUT], [STEP] under which the document declares it. *)
Definition doc_kind (d : Doc) (k : nodeid) : option ntype :=
  match k with
  | Id s =>
      if decide (s ∈ input_ids d) then Some INPUT
      else if decide (s ∈ output_ids d) then Some OUTPUT
      else if decide (s ∈ step_ids d) then Some STEP
      else None
  | SeqClass => None
  end.

(** *** The rewiring pass *)

(** A port of a located step whose [source] holds [u] (line 178). *)
Definition has_port_for (w : WorkflowStep) (u : string) : Prop :=
  ∃ p s, p ∈ tool_inputs w ∧ si_source p = Some s ∧ source_has s u = true.

(** [u] is an upstream dependency of the reached node [v], was not reached
    itself, and is registered with a kind other than [INPUT]. *)
Definition dangling (nodes : registry) (visited_down : gset nodeid) (v u : nodeid) : Prop :=
  v ∈ visited_down ∧ (u ∉ visited_down) ∧
  ∃ nv nu, nodes !! v = Some nv ∧ u ∈ up nv ∧ nodes !! u = Some nu ∧ type nu ≠ Some INPUT.

(** [u] is a declared input that a reached step or output depends on and
    that the traversal did not reach. *)
Definition input_dependency (nodes : registry) (visited_down : gset nodeid)
    (u : nodeid) : Prop :=
  (u ∉ visited_down) ∧
  ∃ v nv nu, v ∈ visited_down ∧ nodes !! v = Some nv ∧
    (type nv = Some STEP ∨ type nv = Some OUTPUT) ∧ u ∈ up nv ∧
    nodes !! u = Some nu ∧ type nu = Some INPUT.

(** The state of the pass only grows. *)
Definition state_le (st st' : rewire_state) : Prop :=
  st.1 ⊆ st'.1 ∧ st.2.*1 ⊆ st'.2.*1.

(** Over the list [L] of nodes the pass enumerates: everything in the final
    set is a listed node or a declared input that a listed step or output
    depends on; the rewire table has one entry per key, and each entry is
    the flattened identifier of a dangling dependency [u] of a listed step,
    with the type of a port of the located step whose [source] holds [u]. *)
Definition state_sound (urldefrag : urldefrag_fn) (wsteps : list WorkflowStep)
    (nodes : registry) (visited_down : gset nodeid) (L : list nodeid)
    (st : rewire_state) : Prop :=
  (∀ x, x ∈ st.1 → x ∈ L ∨
     ((x ∉ visited_down) ∧ ∃ v nv nx, v ∈ L ∧ nodes !! v = Some nv ∧
        (type nv = Some STEP ∨ type nv = Some OUTPUT) ∧ x ∈ up nv ∧
        nodes !! x = Some nx ∧ type nx = Some INPUT)) ∧
  NoDup st.2.*1 ∧
  ∀ u rv, (u, rv) ∈ st.2 →
    flatten_id urldefrag u = Ok rv.1 ∧ (Id u ∉ visited_down) ∧
    ∃ vs nv nu w p s, Id vs ∈ L ∧
      nodes !! Id vs = Some nv ∧ type nv = Some STEP ∧ Id u ∈ up nv ∧
      nodes !! Id u = Some nu ∧ type nu ≠ Some INPUT ∧
      find_step wsteps vs = Some w ∧
      p ∈ tool_inputs w ∧ si_source p = Some s ∧ source_has s u = true ∧
      rv.2 = si_type p.

(** Port [p'] is port [p] with every reference to [u] in its [source]
    replaced by [rn]: a scalar [source] that is [u] has become [rn]; of a
    list [source], the elements kept are those that are keys of the table
    (so [u] is kept when it is a key), and each kept [u] has become [rn]. *)
Definition source_replaced (rewire : rewire_table) (u rn : string) (p p' : InPort) : Prop :=
  (in_source p = Some (Scalar u) → in_source p' = Some (Scalar rn)) ∧
  (∀ l, in_source p = Some (Seq l) →
     ∃ l', in_source p' = Some (Seq l') ∧
       Forall2 (λ s r, s = u → r = rn) (filter (λ s, is_Some (field_get s rewire)) l) l').

(** *** Notions for a second extraction *)

(** No input port of the step has a list-valued [source]. *)
Definition scalar_sources (st : StepRec) : Prop :=
  ∀ p l, p ∈ st_in st → in_source p ≠ Some (Seq l).

(** Identifiers tell kinds apart: a declared input is neither an output nor
    a step, and an output port of a step is not a step. *)
Definition kinds_apart (d : Doc) : Prop :=
  (∀ x, x ∈ input_ids d → x ∉ output_ids d ∧ x ∉ step_ids d) ∧
  (∀ st o, st ∈ doc_steps d → o ∈ step_outs st → o ∉ step_ids d).

(** The step objects agree with the step records: the object located for a
    record has, for each [source] of the record, a port that holds it. *)
Definition ports_agree (d : Doc) (wsteps : list WorkflowStep) : Prop :=
  ∀ st w s, st ∈ doc_steps d → find_step wsteps (st_id st) = Some w →
    s ∈ step_sources st → has_port_for w s.

(** A scalar [source] after lines 198-199. *)
Definition renamed (rewire : rewire_table) (s : string) : string :=
  match field_get s rewire with
  | Some rv => rv.1
  | None => s
  end.


(** *** When the rewiring pass raises nothing *)

(** Lines 166-182 raise nothing at the upstream dependency [u] of [v]: [u]
    was reached, or it is registered and either is an input, or is a string
    identifier on which [urldefrag] returns and, when [v] is a step, [v] is
    a string identifier that [find_step] locates. *)
Definition up_ok (urldefrag : urldefrag_fn) (wsteps : list WorkflowStep)
    (nodes : registry) (visited_down : gset nodeid) (v : nodeid) (nv : _Node)
    (u : nodeid) : Prop :=
  u ∈ visited_down ∨
  ∃ nu, nodes !! u = Some nu ∧
    (type nu = Some INPUT ∨
     ∃ us df, u = Id us ∧ urldefrag us = Ok df ∧
       (type nv = Some STEP → ∃ vs w, v = Id vs ∧ find_step wsteps vs = Some w)).

(** Lines 162-182 raise nothing at the reached node [v]. *)
Definition node_ok (urldefrag : urldefrag_fn) (wsteps : list WorkflowStep)
    (nodes : registry) (visited_down : gset nodeid) (v : nodeid) : Prop :=
  ∃ nv, nodes !! v = Some nv ∧
    (type nv = Some STEP ∨ type nv = Some OUTPUT →
     ∀ u, u ∈ up nv → up_ok urldefrag wsteps nodes visited_down v nv u).
(** ** Worked documents *)

Module Examples.

(** What [urllib.parse.urldefrag] returns on the identifiers of these
    examples, which have no scheme, authority or query: the text before the
    first ['#'] and the text after it. *)
Definition urldefrag : urldefrag_fn :=
  λ u, Ok (match Str.split_first "#" u with
           | Some (d, f) => (d, f)
           | None => (u, EmptyString)
           end).

Definition port (id src : string) : InPort :=
  mkInPort id (Some (Scalar src)) None None [].


Definition wstep (id : string) (ins : list InPort) (outs : list string) : WorkflowStep :=
  mkWorkflowStep id ins (OutStr <$> outs)
    ((λ p, mkStepInput (in_id p) (in_source p) (VStr "File")) <$> ins) RunOther.

Definition dstep (id : string) (ins : list InPort) (outs : list string) : StepRec :=
  mkStepRec id ins (OutStr <$> outs) [].

Definition wf_fields : fields :=
  [("class", VStr "Workflow"); ("id", VStr "wf"); ("cwlVersion", VStr "v1.2")].

(** Steps [A] and [D] both feed output [O]; [B] consumes [A]. *)
Definition merge_doc : Doc :=
  mkDoc [mkInputRec "wf#i" [("type", VStr "File")]]
    [mkOutputRec "wf#O" (Some (Seq ["wf#B/o"; "wf#D/o"])) []]
    [dstep "wf#A" [port "wf#A/x" "wf#i"] ["wf#A/o"];
     dstep "wf#B" [port "wf#B/x" "wf#A/o"] ["wf#B/o"];
     dstep "wf#D" [port "wf#D/x" "wf#i"] ["wf#D/o"]]
    wf_fields.

Definition merge_wf : Workflow :=
  mkWorkflow merge_doc
    [wstep "wf#A" [port "wf#A/x" "wf#i"] ["wf#A/o"];
     wstep "wf#B" [port "wf#B/x" "wf#A/o"] ["wf#B/o"];
     wstep "wf#D" [port "wf#D/x" "wf#i"] ["wf#D/o"]]
    [].

(** What extraction from root [B] returns: [A]'s output has become the
    input [wf#A_o]. *)
Definition merge_from_B : Doc :=
  mkDoc [mkInputRec "wf#A_o" [("type", VStr "File")]]
    [mkOutputRec "wf#O" (Some (Seq ["wf#B/o"; "wf#D/o"])) []]
    [dstep "wf#B" [port "wf#B/x" "wf#A_o"] ["wf#B/o"]]
    wf_fields.

(** Step [B] reads [wf#A/o2] on its first port and [wf#A/o] on its
    second; [wf#A/o] is a proper prefix of [wf#A/o2]. *)
Definition prefix_step : WorkflowStep :=
  mkWorkflowStep "wf#B"
    [port "wf#B/x" "wf#A/o2"; port "wf#B/y" "wf#A/o"] [OutStr "wf#B/o"]
    [mkStepInput "wf#B/x" (Some (Scalar "wf#A/o2")) (VStr "int");
     mkStepInput "wf#B/y" (Some (Scalar "wf#A/o")) (VStr "File")]
    RunOther.

(** Step [B] with a port before those two, which reads the input [wf#i]. *)
Definition third_step : WorkflowStep :=
  mkWorkflowStep "wf#B"
    [port "wf#B/w" "wf#i"; port "wf#B/x" "wf#A/o2"; port "wf#B/y" "wf#A/o"]
    [OutStr "wf#B/o"]
    [mkStepInput "wf#B/w" (Some (Scalar "wf#i")) (VStr "string");
     mkStepInput "wf#B/x" (Some (Scalar "wf#A/o2")) (VStr "int");
     mkStepInput "wf#B/y" (Some (Scalar "wf#A/o")) (VStr "File")]
    RunOther.

Definition prefix_doc : Doc :=
  mkDoc []
    [mkOutputRec "wf#O" (Some (Scalar "wf#B/o")) []]
    [dstep "wf#A" [] ["wf#A/o"; "wf#A/o2"];
     dstep "wf#B" [port "wf#B/x" "wf#A/o2"; port "wf#B/y" "wf#A/o"] ["wf#B/o"]]
    wf_fields.

Definition prefix_wf : Workflow :=
  mkWorkflow prefix_doc [wstep "wf#A" [] ["wf#A/o"; "wf#A/o2"]; prefix_step] [].


(** An input and a step with the same identifier [wf#x]; the step reads
    input [wf#y]. *)
Definition clash_doc : Doc :=
  mkDoc [mkInputRec "wf#x" [("type", VStr "File")];
         mkInputRec "wf#y" [("type", VStr "File")]]
    []
    [dstep "wf#x" [port "wf#x/p" "wf#y"] ["wf#x/o"]]
    wf_fields.

Definition clash_wf : Workflow :=
  mkWorkflow clash_doc [wstep "wf#x" [port "wf#x/p" "wf#y"] ["wf#x/o"]] [].








(** A step [a] that runs the external workflow [sub.cwl], and a step
    [abc]. *)
Definition sub_c : WorkflowStep := wstep "sub.cwl#c" [] ["sub.cwl#c/o"].

Definition step_a : WorkflowStep :=
  mkWorkflowStep "wf#a" [] [OutStr "wf#a/o"] []
    (RunStr "sub.cwl" (WorkflowProcess "sub.cwl" [sub_c])).

Definition step_abc : WorkflowStep := wstep "wf#abc" [] ["wf#abc/o"].

(** A step with a sourced port that merges two links, and a port that has
    a default and no source. *)
Definition step_merge : WorkflowStep :=
  mkWorkflowStep "wf#main/S"
    [mkInPort "wf#main/S/x" (Some (Seq ["wf#i"; "wf#j"])) (Some (VStr "merge_flattened")) None [];
     mkInPort "wf#main/S/y" None None (Some (VStr "7")) []]
    [OutStr "wf#main/S/o"] [] RunOther.

Definition merge_step_wf : Workflow :=
  mkWorkflow (mkDoc [] [] [] wf_fields) [step_merge] [].


Definition two_nodes : registry :=
  {[ Id "wf#a" := mk_Node [Id "wf#i"] [] (Some STEP);
     Id "wf#i" := mk_Node [] [Id "wf#a"] None ]}.

End Examples.

(** * Properties *)

(** ** The registry: a kind, once set, stays *)

Lemma declare_node_other (nodes : registry) (k k' : nodeid) (tp : option ntype) :
  k' ≠ k → _declare_node nodes k tp !! k' = nodes !! k'.
Proof.
  intros Hne. unfold _declare_node.
  destruct (nodes !! k) as [n|] eqn:Hk; [destruct (type n)|];
    by rewrite ?lookup_insert_ne.
Qed.

Lemma declare_node_classified (nodes : registry) (k k' : nodeid) (n : _Node)
    (t : ntype) (tp : option ntype) :
  nodes !! k = Some n → type n = Some t → _declare_node nodes k' tp !! k = Some n.
Proof.
  intros Hk Ht. destruct (decide (k = k')) as [<-|Hne].
  - unfold _declare_node. by rewrite Hk, Ht.
  - by rewrite declare_node_other.
Qed.

Lemma declare_node_unset (nodes : registry) (k : nodeid) (n : _Node) (tp : option ntype) :
  nodes !! k = Some n → type n = None →
  _declare_node nodes k tp !! k = Some (mk_Node (up n) (down n) tp).
Proof.
  intros Hk Ht. unfold _declare_node. by rewrite Hk, Ht, lookup_insert_eq.
Qed.

(** C8.  Whatever declarations follow, a node whose kind is [INPUT],
    [OUTPUT] or [STEP] keeps that kind (and, declarations alone never
    touching edges, its whole entry); declaring a present node whose kind is
    unset stores the declared kind, keeps the node's [up] and [down] lists,
    and leaves every other entry as it was. *)
Theorem declare_node_kind_never_overwritten
    (nodes : registry) (k : nodeid) (n : _Node) :
  nodes !! k = Some n →
  (∀ t decls, type n = Some t → declare_all nodes decls !! k = Some n) ∧
  (∀ tp, type n = None →
     _declare_node nodes k tp !! k = Some (mk_Node (up n) (down n) tp) ∧
     ∀ k', k' ≠ k → _declare_node nodes k tp !! k' = nodes !! k').
Proof.
  intros Hk. split.
  - intros t decls Ht. revert nodes Hk.
    induction decls as [|[k' tp] decls IH]; intros nodes Hk; [done|].
    apply IH. by eapply declare_node_classified.
  - intros tp Ht. split; [by apply declare_node_unset|].
    intros k' Hne. by apply declare_node_other.
Qed.

Lemma declare_node_kind_never_overwritten_witness :
  declare_all Examples.two_nodes
      [(Id "wf#a", Some INPUT); (Id "wf#a", None); (Id "wf#a", Some OUTPUT)]
    !! Id "wf#a" = Some (mk_Node [Id "wf#i"] [] (Some STEP)) ∧
  _declare_node Examples.two_nodes (Id "wf#i") (Some INPUT) !! Id "wf#i"
    = Some (mk_Node [] [Id "wf#a"] (Some INPUT)).
Proof.
  split.
  - apply (proj1 (declare_node_kind_never_overwritten Examples.two_nodes (Id "wf#a")
                    (mk_Node [Id "wf#i"] [] (Some STEP)) eq_refl) STEP).
    reflexivity.
  - apply (proj2 (declare_node_kind_never_overwritten Examples.two_nodes (Id "wf#i")
                    (mk_Node [] [Id "wf#a"] None) eq_refl) (Some INPUT)).
    reflexivity.
Defined.

(** ** [find_step]: one scan, exact match and descent interleaved *)

Lemma append_cons (a : ascii) (p s : string) : String a p +:+ s = String a (p +:+ s).
Proof. reflexivity. Qed.

Lemma prefix_split (p s : string) :
  String.prefix p s = true → ∃ rest, s = p +:+ rest.
Proof.
  revert s. induction p as [|a p IH]; intros s H.
  - by exists s.
  - destruct s as [|b s]; [done|]. simpl in H.
    destruct (Ascii.ascii_dec a b) as [->|]; [|done].
    destruct (IH s H) as [rest ->]. by exists rest.
Qed.

Lemma drop_app (p rest : string) : Str.drop (String.length p) (p +:+ rest) = rest.
Proof. induction p as [|a p IH]; [by destruct rest|done]. Qed.

Lemma append_empty_r (p : string) : p +:+ "" = p.
Proof. induction p as [|a p IH]; [done|]. by rewrite append_cons, IH. Qed.

(** A step identifier that is a prefix of the target, and not the target,
    leaves one character and a rest; the search goes on with the rest. *)
Lemma strict_prefix_suffix (id stepid : string) :
  Str.startswith stepid id = true → id ≠ stepid →
  ∃ c rest, stepid = id +:+ String c rest ∧ step_suffix id stepid = rest.
Proof.
  intros Hp Hne. destruct (prefix_split _ _ Hp) as [[|c rest] ->].
  - by rewrite append_empty_r in Hne.
  - exists c, rest. split; [done|]. unfold step_suffix.
    replace (String.length id + 1) with (String.length (id +:+ String c "")).
    + replace (id +:+ String c rest) with ((id +:+ String c "") +:+ rest).
      * apply drop_app.
      * clear. induction id as [|a id IH]; [done|]. rewrite !append_cons. simpl. by rewrite IH.
    + clear. induction id as [|a id IH]; [done|]. rewrite !append_cons. simpl. by rewrite IH.
Qed.

Lemma find_step_at_unfold (st : WorkflowStep) (stepid : string) :
  find_step_at st stepid =
    if decide (tool_id st = stepid) then Some st
    else if Str.startswith stepid (tool_id st)
         then nested_search (tool_run st) (step_suffix (tool_id st) stepid)
         else None.
Proof.
  destruct st as [id ins outs inputs run]. simpl.
  destruct (decide (id = stepid)); [done|].
  destruct (Str.startswith stepid id); [|done].
  by destruct run as [?|? [? ?|]|? [? ?|]|].
Qed.

(** What the loop of lines 65-106 does.  The list is scanned once.  The
    first step whose identifier equals the target is returned provided that
    no step before it has an identifier that is a prefix of the target and a
    nested workflow in which the re-based target is found.  Whatever is
    returned is either a step of the list whose identifier equals the
    target, or was found below a step of the list whose identifier is a
    strict prefix of the target: the target is that identifier, then one
    character [c] (any character: it is skipped, not compared with a
    separator), then the suffix the nested search is given. *)
Lemma find_step_scan (steps : list WorkflowStep) (stepid : string) :
  (∀ pre st post,
     steps = pre ++ st :: post →
     tool_id st = stepid →
     (∀ p, p ∈ pre → tool_id p ≠ stepid ∧
        (Str.startswith stepid (tool_id p) = false ∨
         nested_search (tool_run p) (step_suffix (tool_id p) stepid) = None)) →
     find_step steps stepid = Some st) ∧
  (∀ r, find_step steps stepid = Some r →
     (r ∈ steps ∧ tool_id r = stepid) ∨
     (∃ st c rest, st ∈ steps ∧ stepid = tool_id st +:+ String c rest ∧
        nested_search (tool_run st) rest = Some r)).
Proof.
  split.
  - intros pre st post -> Hid Hpre.
    induction pre as [|p pre IH]; simpl.
    + rewrite find_step_at_unfold. by rewrite decide_True.
    + destruct (Hpre p) as [Hne Hp]; [by left|].
      rewrite find_step_at_unfold, decide_False by done.
      assert (IH' : find_step (pre ++ st :: post) stepid = Some st).
      { apply IH. intros q Hq. apply Hpre. by right. }
      destruct Hp as [-> | Hp]; [done|].
      destruct (Str.startswith stepid (tool_id p)); [by rewrite Hp|done].
  - induction steps as [|st steps IH]; intros r Hr; [done|].
    simpl in Hr. rewrite find_step_at_unfold in Hr.
    destruct (decide (tool_id st = stepid)) as [Heq|Hne].
    { simplify_eq. left. split; [by left|done]. }
    assert (Htail : find_step steps stepid = Some r →
                    (r ∈ st :: steps ∧ tool_id r = stepid) ∨
                    (∃ st0 c rest, st0 ∈ st :: steps ∧
                       stepid = tool_id st0 +:+ String c rest ∧
                       nested_search (tool_run st0) rest = Some r)).
    { intros H. destruct (IH r H) as [[? ?]|(st0 & c & rest & ? & ? & ?)].
      - left. split; [by right|done].
      - right. exists st0, c, rest. split; [by right|done]. }
    destruct (Str.startswith stepid (tool_id st)) eqn:Hp; [|by apply Htail].
    destruct (nested_search (tool_run st) (step_suffix (tool_id st) stepid))
      as [r'|] eqn:Hn; [|by apply Htail].
    simplify_eq. right.
    destruct (strict_prefix_suffix _ _ Hp Hne) as (c & rest & Hs & Hsuf).
    exists st, c, rest. rewrite Hsuf in Hn. split; [by left|done].
Qed.

Lemma find_step_scan_witness :
  find_step [Examples.step_abc; Examples.step_a] "wf#abc" = Some Examples.step_abc ∧
  ((Examples.sub_c ∈ [Examples.step_a; Examples.step_abc] ∧
    tool_id Examples.sub_c = "wf#abc") ∨
   (∃ st c rest, st ∈ [Examples.step_a; Examples.step_abc] ∧
      "wf#abc" = tool_id st +:+ String c rest ∧
      nested_search (tool_run st) rest = Some Examples.sub_c)).
Proof.
  split.
  - apply (proj1 (find_step_scan [Examples.step_abc; Examples.step_a] "wf#abc")
             [] Examples.step_abc [Examples.step_a]); [reflexivity|reflexivity|].
    intros p Hp. by apply elem_of_nil in Hp.
  - apply (proj2 (find_step_scan [Examples.step_a; Examples.step_abc] "wf#abc")).
    reflexivity.
Defined.

(** C4.  The code at a failing input.  The docstring of [find_step] says
    that it finds the step for a given step id, and line 72 skips one
    character after the identifier of a step, the separator.  Here [abc] is
    a step of the list and its identifier is the target, yet the scan first
    meets [a], whose identifier is a prefix of the target, skips the ["b"]
    that follows it, which is no separator, and returns step [c] of the
    workflow that [a] runs. *)
Theorem find_step_exact_match_missed :
  Examples.step_abc ∈ [Examples.step_a; Examples.step_abc] ∧
  tool_id Examples.step_abc = "wf#abc" ∧
  find_step [Examples.step_a; Examples.step_abc] "wf#abc" = Some Examples.sub_c ∧
  tool_id Examples.sub_c ≠ "wf#abc" ∧
  "wf#abc" = tool_id Examples.step_a +:+ "b" +:+ "c".
Proof.
  split; [by right; left|]. by repeat split.
Qed.

(** ** [get_step]: the one-step document *)

Lemma split_nonempty (c : ascii) (s : string) : ∃ h t, Str.split c s = h :: t.
Proof.
  induction s as [|a s (h & t & IH)]; simpl; [by eauto|].
  rewrite IH. destruct (Ascii.eqb a c); eauto.
Qed.

Lemma split_no_char (c : ascii) (s : string) :
  Str.has_char c s = false → Str.split c s = [s].
Proof.
  induction s as [|a s IH]; simpl; [done|].
  intros [Ha Hs]%orb_false_iff. by rewrite IH, Ha.
Qed.

Lemma split_app_sep (c : ascii) (x y : string) :
  Str.split c (x +:+ String c y) = Str.split c x ++ Str.split c y.
Proof.
  induction x as [|a x IH].
  - change ("" +:+ String c y) with (String c y). simpl.
    destruct (split_nonempty c y) as (h & t & ->). by rewrite Ascii.eqb_refl.
  - rewrite append_cons. simpl. rewrite IH.
    destruct (split_nonempty c x) as (h & t & ->). simpl.
    by destruct (Ascii.eqb a c).
Qed.

(** An identifier with exactly one ['#'] splits into what is before it and
    what is after it. *)
Lemma split_one_hash (new_id step_name : string) :
  Str.has_char "#" new_id = false → Str.has_char "#" step_name = false →
  Str.split "#" (new_id +:+ "#" +:+ step_name) = [new_id; step_name].
Proof.
  intros H1 H2. change ("#" +:+ step_name) with (String "#" step_name).
  by rewrite split_app_sep, !split_no_char.
Qed.



Lemma field_get_set_ne {V} (k k' : string) (v : V) (d : list (string * V)) :
  k ≠ k' → field_get k' (field_set k v d) = field_get k' d.
Proof.
  intros Hne. induction d as [|[k0 v0] d IH]; simpl.
  - by rewrite decide_False.
  - destruct (decide (k0 = k)) as [->|]; simpl.
    + by rewrite !decide_False.
    + destruct (decide (k0 = k')); [done|apply IH].
Qed.

Lemma field_get_set_eq {V} (k : string) (v : V) (d : list (string * V)) :
  field_get k (field_set k v d) = Some v.
Proof.
  induction d as [|[k0 v0] d IH]; simpl.
  - by rewrite decide_True.
  - destruct (decide (k0 = k)) as [->|]; simpl.
    + by rewrite decide_True.
    + by rewrite decide_False.
Qed.




(** ** Assembling the document: how a [source] is rewritten *)

Lemma rewire_source_seq (rewire : rewire_table) (l : list string) :
  ∃ l', rewire_source rewire (Seq l) = Seq l' ∧
    Forall2 (λ s r, ∃ ty, field_get s rewire = Some (r, ty))
      (filter (λ s, is_Some (field_get s rewire)) l) l'.
Proof.
  eexists. split; [reflexivity|].
  induction l as [|s l IH]; simpl; [constructor|].
  rewrite filter_cons.
  destruct (decide (is_Some (field_get s rewire))) as [[[r ty] Hs]|Hn].
  - rewrite Hs. simpl. constructor; [|done]. eauto.
  - destruct (field_get s rewire); [|done]. by destruct Hn.
Qed.

Lemma rewire_port_rewritten (rewire : rewire_table) (p : InPort) :
  port_rewritten rewire p (rewire_port rewire p).
Proof.
  unfold port_rewritten, rewire_port.
  destruct p as [id [[x|l]|] lm df fs]; simpl; split_and!; try done.
  - by destruct (field_get x rewire) as [[r ty]|].
  - destruct (rewire_source_seq rewire l) as (l' & Hl & HF).
    exists l'. split; [by rewrite <- Hl|done].
Qed.

(** C7.  When [get_subgraph] returns [d], the steps of [d] are the steps of
    the document whose identifier is in the final visited set, in order, with
    the same identifier, outputs and other keys, and with each input port
    rewritten by the rewire table of that run: a port without [source] is
    unchanged; a list [source] keeps exactly its elements that are keys of the
    table, each replaced by the new identifier the table gives it, the others
    dropped; a scalar [source] is replaced by its new identifier when it is a
    key of the table and is unchanged when it is not. *)
Theorem get_subgraph_rewrites_sources (urldefrag : urldefrag_fn) (set_iter : gset nodeid → list nodeid)
    (roots : list string) (tool : Workflow) (d : Doc) :
  get_subgraph urldefrag set_iter roots tool = Ok d →
  ∃ visited_down visited rewire,
    reach (build_nodes (wf_tool tool)) roots = Ok visited_down ∧
    rewire_pass urldefrag set_iter (wf_steps tool) (build_nodes (wf_tool tool)) visited_down
      = Ok (visited, rewire) ∧
    Forall2
      (λ i i', st_id i' = st_id i ∧ st_out i' = st_out i ∧ st_fields i' = st_fields i ∧
               Forall2 (port_rewritten rewire) (st_in i) (st_in i'))
      (filter (λ i, Id (st_id i) ∈ visited) (doc_steps (wf_tool tool)))
      (doc_steps d).
Proof.
  unfold get_subgraph. intros H.
  destruct (field_get "class" _) as [cls|]; [|done].
  destruct (is_workflow_class cls); [|done].
  destruct (reach _ roots) as [vd|] eqn:Hvd; [|done]. simpl in H.
  destruct (rewire_pass _ _ _ _ vd) as [[visited rewire]|] eqn:Hrw; [|done].
  simpl in H. injection H as <-.
  exists vd, visited, rewire. split; [done|]. split; [done|]. simpl.
  apply Forall2_fmap_r, Forall_Forall2_diag, Forall_forall. intros i _.
  split_and!; try done. simpl.
  apply Forall2_fmap_r, Forall_Forall2_diag, Forall_forall. intros p _.
  apply rewire_port_rewritten.
Qed.

Lemma get_subgraph_rewrites_sources_witness :
  ∃ visited_down visited rewire,
    reach (build_nodes Examples.merge_doc) ["wf#B"] = Ok visited_down ∧
    rewire_pass Examples.urldefrag elements (wf_steps Examples.merge_wf) (build_nodes Examples.merge_doc)
      visited_down = Ok (visited, rewire) ∧
    Forall2
      (λ i i', st_id i' = st_id i ∧ st_out i' = st_out i ∧ st_fields i' = st_fields i ∧
               Forall2 (port_rewritten rewire) (st_in i) (st_in i'))
      (filter (λ i, Id (st_id i) ∈ visited) (doc_steps Examples.merge_doc))
      (doc_steps Examples.merge_from_B).
Proof.
  apply (get_subgraph_rewrites_sources Examples.urldefrag elements ["wf#B"] Examples.merge_wf
           Examples.merge_from_B).
  vm_compute. reflexivity.
Defined.

(** ** Rewiring: which port gives the type *)

Lemma prefix_app (u b : string) : String.prefix u (u +:+ b) = true.
Proof.
  induction u as [|c u IH]; [by destruct b|].
  rewrite append_cons. simpl. by destruct (Ascii.ascii_dec c c).
Qed.

Lemma contains_nil (u : string) : Str.contains "" u = String.prefix u "" || false.
Proof. reflexivity. Qed.

Lemma contains_cons (c : ascii) (x u : string) :
  Str.contains (String c x) u = String.prefix u (String c x) || Str.contains x u.
Proof. reflexivity. Qed.

(** [Str.contains x u] is containment of [u] in [x] as a substring. *)
Lemma contains_substring (x u : string) :
  Str.contains x u = true ↔ ∃ a b, x = a +:+ u +:+ b.
Proof.
  split.
  - induction x as [|c x IH]; intros H.
    + rewrite contains_nil in H. apply orb_true_iff in H as [H|H]; [|done].
      destruct (prefix_split _ _ H) as [b ->]. by exists "", b.
    + rewrite contains_cons in H. apply orb_true_iff in H as [H|H].
      * destruct (prefix_split _ _ H) as [b ->]. by exists "", b.
      * destruct (IH H) as (a & b & ->). by exists (String c a), b.
  - intros (a & b & ->). induction a as [|c a IH].
    + change ("" +:+ u +:+ b) with (u +:+ b).
      destruct (u +:+ b) eqn:E.
      * by rewrite contains_nil, <- E, prefix_app.
      * by rewrite contains_cons, <- E, prefix_app.
    + by rewrite append_cons, contains_cons, IH, orb_true_r.
Qed.

(** [source_has] decides [holds]. *)
Lemma source_has_holds (s : source) (u : string) :
  source_has s u = true ↔ holds s u.
Proof.
  destruct s as [x|l]; simpl.
  - apply contains_substring.
  - apply bool_decide_eq_true.
Qed.

Lemma rewire_from_inputs_first (u rn : string) (pre post : list StepInput)
    (p : StepInput) (s : source) (rewire : rewire_table) :
  no_match_before u pre → si_source p = Some s → holds s u →
  rewire_from_inputs u rn (pre ++ p :: post) rewire = field_set u (rn, si_type p) rewire.
Proof.
  intros Hpre Hp Hs. induction pre as [|q pre IH]; simpl.
  - rewrite Hp. by rewrite (proj2 (source_has_holds s u) Hs).
  - assert (Hq := Hpre q).
    destruct (si_source q) as [sq|].
    + destruct (source_has sq u) eqn:Hsq.
      * destruct (Hq sq); [by left|done|]. by apply source_has_holds.
      * apply IH. intros q' s' Hq'. apply Hpre. by right.
    + apply IH. intros q' s' Hq'. apply Hpre. by right.
Qed.

(** C10.  In the rewiring of one dangling [u] of a step [v] (so [u] is not
    in the reached set and is not an input, [urldefrag] returns on [u], and
    [find_step] locates [v]): if the located step has an input port [p]
    whose [source] is a scalar string in which [u] occurs anywhere ([a],
    then [u], then [b]), and no port before [p] has a [source] that holds
    [u] (no scalar [source] before [p] in which [u] occurs, no list
    [source] before [p] of which [u] is an element), then the ports before
    [p] are passed over and [p] is the port taken: the entry recorded for
    [u] is its new identifier with the declared type of [p]. *)
Theorem rewire_type_from_substring_port (urldefrag : urldefrag_fn)
    (wsteps : list WorkflowStep) (nodes : registry) (visited_down : gset nodeid)
    (v u a b rn : string) (nv nu : _Node) (st : rewire_state) (wfstep : WorkflowStep)
    (pre post : list StepInput) (p : StepInput) :
  Id u ∉ visited_down →
  nodes !! Id u = Some nu → type nu ≠ Some INPUT →
  flatten_id urldefrag u = Ok rn →
  type nv = Some STEP →
  find_step wsteps v = Some wfstep →
  tool_inputs wfstep = pre ++ p :: post →
  si_source p = Some (Scalar (a +:+ u +:+ b)) →
  no_match_before u pre →
  ∃ rewire',
    rewire_up urldefrag wsteps nodes visited_down (Id v) nv st (Id u) = Ok (st.1, rewire') ∧
    rewire' = field_set u (rn, si_type p) st.2 ∧
    field_get u rewire' = Some (rn, si_type p).
Proof.
  intros Hu Hnu Hty Hrn Hnv Hfind Hin Hp Hpre.
  eexists. split; [|split; [reflexivity|apply field_get_set_eq]].
  unfold rewire_up. rewrite decide_False by done. rewrite Hnu.
  rewrite decide_False by done. rewrite Hrn. simpl. rewrite decide_True by done.
  rewrite Hfind, Hin. f_equal. f_equal.
  eapply rewire_from_inputs_first; [done|done|].
  simpl. eauto.
Qed.

Lemma rewire_type_from_substring_port_witness :
  ∃ rewire',
    rewire_up Examples.urldefrag [Examples.third_step] (build_nodes Examples.prefix_doc)
      {[Id "wf#B"; Id "wf#B/o"; Id "wf#O"]} (Id "wf#B")
      (mk_Node [Id "wf#i"; Id "wf#A/o2"; Id "wf#A/o"] [Id "wf#B/o"] (Some STEP))
      (∅, [("wf#A/o2", ("wf#A_o2", VStr "int"))]) (Id "wf#A/o")
    = Ok (∅, rewire') ∧
    rewire' = field_set "wf#A/o" ("wf#A_o", VStr "int")
                [("wf#A/o2", ("wf#A_o2", VStr "int"))] ∧
    field_get "wf#A/o" rewire' = Some ("wf#A_o", VStr "int").
Proof.
  apply (rewire_type_from_substring_port Examples.urldefrag
           [Examples.third_step] (build_nodes Examples.prefix_doc)
           {[Id "wf#B"; Id "wf#B/o"; Id "wf#O"]} "wf#B" "wf#A/o" "" "2" "wf#A_o"
           (mk_Node [Id "wf#i"; Id "wf#A/o2"; Id "wf#A/o"] [Id "wf#B/o"] (Some STEP))
           (mk_Node [Id "wf#A"] [Id "wf#B"] None)
           (∅, [("wf#A/o2", ("wf#A_o2", VStr "int"))])
           Examples.third_step
           [mkStepInput "wf#B/w" (Some (Scalar "wf#i")) (VStr "string")]
           [mkStepInput "wf#B/y" (Some (Scalar "wf#A/o")) (VStr "File")]
           (mkStepInput "wf#B/x" (Some (Scalar "wf#A/o2")) (VStr "int"))).
  - vm_compute. intros H. discriminate H.
  - reflexivity.
  - done.
  - reflexivity.
  - reflexivity.
  - reflexivity.
  - reflexivity.
  - reflexivity.
  - intros q s Hq Hs. apply list_elem_of_singleton in Hq as ->. injection Hs as <-.
    intros Hh. apply (source_has_holds (Scalar "wf#i") "wf#A/o") in Hh. discriminate Hh.
Defined.

(** ** The traversal *)

Section traversal.

Variable nodes : registry.
Variable dir : direction.

Lemma walk_mono (vis vis' : gset nodeid) (x z : nodeid) :
  vis ⊆ vis' → walk nodes dir vis' x z → walk nodes dir vis x z.
Proof.
  intros Hsub. induction 1 as [x Hx|x y z Hx Hy _ IH].
  - apply walk_here. set_solver.
  - eapply walk_step; [set_solver|done|done].
Qed.

(** What one call adds is closed under successors. *)
Definition visit_closed (vis R : gset nodeid) : Prop :=
  vis ⊆ R ∧ ∀ x, x ∈ R → x ∉ vis → ∀ y, y ∈ edges nodes dir x → y ∈ R.

(** What one call adds is reached from one of the starting points. *)
Definition visit_sound (from : list nodeid) (vis R : gset nodeid) : Prop :=
  ∀ z, z ∈ R → z ∈ vis ∨ ∃ c, c ∈ from ∧ walk nodes dir vis c z.

Lemma visit_loop_closed (depth : nat) :
  (∀ c vis R, _subgraph_visit depth c nodes vis dir = Ok R →
     visit_closed vis R ∧ c ∈ R) →
  ∀ d vis R,
    for_each (λ visited c, _subgraph_visit depth c nodes visited dir) d vis = Ok R →
    visit_closed vis R ∧ ∀ c, c ∈ d → c ∈ R.
Proof.
  intros IH d. induction d as [|c d IHd]; intros vis R H; simpl in H.
  - injection H as <-. split; [split; [done|]|]; set_solver.
  - destruct (_subgraph_visit depth c nodes vis dir) as [R1|] eqn:H1; [|done].
    simpl in H. destruct (IH _ _ _ H1) as [[Hs1 Hc1] Hin1].
    destruct (IHd _ _ H) as [[Hs2 Hc2] Hin2].
    split; [split|].
    + set_solver.
    + intros x Hx Hnx y Hy. destruct (decide (x ∈ R1)) as [Hx1|Hx1].
      * apply Hs2. by eapply Hc1.
      * by eapply Hc2.
    + intros c' [->|Hc']%elem_of_cons; [set_solver|by apply Hin2].
Qed.

Lemma visit_closed_ok (depth : nat) (c : nodeid) (vis R : gset nodeid) :
  _subgraph_visit depth c nodes vis dir = Ok R → visit_closed vis R ∧ c ∈ R.
Proof.
  revert c vis R. induction depth as [|depth IH]; intros c vis R H; [done|].
  simpl in H. destruct (decide (c ∈ vis)) as [Hc|Hc].
  { injection H as <-. split; [split; [done|]|done]. intros x Hx Hnx. done. }
  destruct (nodes !! c) as [n|] eqn:Hn; [|done].
  destruct (visit_loop_closed depth IH _ _ _ H) as [[Hs Hcl] Hin].
  split; [split|].
  - set_solver.
  - intros x Hx Hnx y Hy. destruct (decide (x = c)) as [->|Hne].
    + apply Hin. unfold edges in Hy. by rewrite Hn in Hy.
    + eapply Hcl; [done|set_solver|done].
  - set_solver.
Qed.

Lemma visit_loop_sound (depth : nat) :
  (∀ c vis R, _subgraph_visit depth c nodes vis dir = Ok R → visit_sound [c] vis R) →
  ∀ d vis R,
    for_each (λ visited c, _subgraph_visit depth c nodes visited dir) d vis = Ok R →
    visit_sound d vis R.
Proof.
  intros IH d. induction d as [|c d IHd]; intros vis R H; simpl in H.
  - injection H as <-. intros z Hz. by left.
  - destruct (_subgraph_visit depth c nodes vis dir) as [R1|] eqn:H1; [|done].
    simpl in H. intros z Hz.
    destruct (IHd _ _ H z Hz) as [Hz1|(c' & Hc' & Hw)].
    + destruct (IH _ _ _ H1 z Hz1) as [?|(c' & Hc' & Hw)]; [by left|].
      apply list_elem_of_singleton in Hc' as ->. right. exists c. split; [by left|done].
    + right. exists c'. split; [by right|].
      eapply walk_mono; [|done]. by apply (visit_closed_ok _ _ _ _ H1).
Qed.

Lemma visit_sound_ok (depth : nat) (c : nodeid) (vis R : gset nodeid) :
  _subgraph_visit depth c nodes vis dir = Ok R → visit_sound [c] vis R.
Proof.
  revert c vis R. induction depth as [|depth IH]; intros c vis R H; [done|].
  simpl in H. destruct (decide (c ∈ vis)) as [Hc|Hc].
  { injection H as <-. intros z Hz. by left. }
  destruct (nodes !! c) as [n|] eqn:Hn; [|done].
  intros z Hz.
  destruct (visit_loop_sound depth IH _ _ _ H z Hz) as [Hz1|(c' & Hc' & Hw)].
  - apply elem_of_union in Hz1 as [->%elem_of_singleton|?]; [|by left].
    right. exists c. split; [by left|by apply walk_here].
  - right. exists c. split; [by left|].
    eapply walk_step; [done| |].
    + unfold edges. rewrite Hn. done.
    + eapply walk_mono; [|done]. set_solver.
Qed.

(** The set a call returns: what was visited, and what is reached from
    [c] through nodes not yet visited. *)
Lemma visit_spec (depth : nat) (c : nodeid) (vis R : gset nodeid) :
  _subgraph_visit depth c nodes vis dir = Ok R →
  ∀ z, z ∈ R ↔ z ∈ vis ∨ walk nodes dir vis c z.
Proof.
  intros H z. split.
  - intros Hz. destruct (visit_sound_ok _ _ _ _ H z Hz) as [?|(c' & Hc' & Hw)]; [by left|].
    apply list_elem_of_singleton in Hc' as ->. by right.
  - destruct (visit_closed_ok _ _ _ _ H) as [[Hs Hcl] Hc].
    intros [Hz|Hw]; [by apply Hs|]. clear H.
    revert Hc. induction Hw as [x Hx|x y z Hx Hy _ IH]; intros Hc; [done|].
    apply IH. by eapply Hcl.
Qed.

(** The depth budget is enough, and a closed registry has every key the
    traversal looks up. *)
Lemma visit_total (depth : nat) (c : nodeid) (vis : gset nodeid) :
  closed nodes → is_Some (nodes !! c) →
  size (dom nodes ∖ vis) < depth →
  ∃ R, _subgraph_visit depth c nodes vis dir = Ok R.
Proof.
  intros Hcl. revert c vis.
  induction depth as [|depth IH]; intros c vis [n Hn] Hsz; [lia|].
  simpl. destruct (decide (c ∈ vis)) as [Hc|Hc]; [by eauto|].
  rewrite Hn.
  set (d := match dir with DOWN => down n | UP => up n end).
  assert (Hd : ∀ y, y ∈ d → is_Some (nodes !! y)).
  { intros y Hy. apply (Hcl c n y Hn). apply elem_of_app.
    unfold d in Hy. destruct dir; [by left|by right]. }
  assert (Hsz1 : size (dom nodes ∖ ({[c]} ∪ vis)) < depth).
  { assert (size (dom nodes ∖ vis) = size (dom nodes ∖ ({[c]} ∪ vis)) + 1); [|lia].
    assert (dom nodes ∖ vis = (dom nodes ∖ ({[c]} ∪ vis)) ∪ {[c]}) as ->.
    { apply set_eq. intros x. rewrite elem_of_union, !elem_of_difference,
        elem_of_union, elem_of_singleton.
      split.
      - intros [? ?]. destruct (decide (x = c)); [by right|left]. set_solver.
      - intros [[? ?]| ->]; [set_solver|]. split; [|done].
        apply elem_of_dom. eauto. }
    rewrite size_union by set_solver. by rewrite size_singleton. }
  clearbody d. revert Hsz1. generalize ({[c]} ∪ vis) as vis1. clear Hsz Hc.
  induction d as [|y d IHd]; intros vis1 Hsz1; simpl; [by eauto|].
  destruct (IH y vis1) as [R1 HR1]; [apply Hd; by left|done|].
  rewrite HR1. simpl. apply IHd.
  - intros y' Hy'. apply Hd. by right.
  - eapply Nat.le_lt_trans; [|done]. apply subseteq_size.
    assert (vis1 ⊆ R1) by apply (visit_closed_ok _ _ _ _ HR1). set_solver.
Qed.

End traversal.

(** ** The registry [build_nodes] builds *)

Lemma foldl_bind {A B C} (f : A → C → A) (g : B → list C) (h : A → B → A)
    (l : list B) (a : A) :
  (∀ a b, h a b = foldl f a (g b)) →
  foldl h a l = foldl f a (l ≫= g).
Proof.
  intros Hh. revert a. induction l as [|b l IH]; intros a; [done|].
  simpl. by rewrite foldl_app, <- Hh, IH.
Qed.

Lemma foldl_bind_fmap {A B B' C} (f : A → C → A) (g : B → list C) (m : B' → B)
    (h : A → B' → A) (l : list B') (a : A) :
  (∀ a b, h a b = foldl f a (g (m b))) →
  foldl h a l = foldl f a ((m <$> l) ≫= g).
Proof.
  intros Hh. revert a. induction l as [|b l IH]; intros a; [done|].
  simpl. by rewrite foldl_app, <- Hh, IH.
Qed.

Lemma declare_output_ops (nodes : registry) (o : OutputRec) :
  declare_output nodes o = foldl apply_op nodes (output_ops o).
Proof. unfold declare_output, output_ops. simpl. by apply foldl_bind. Qed.

Lemma step_in_ops (sid : string) (l : list InPort) (nodes : registry) :
  foldl (add_step_in sid) nodes l =
  foldl apply_op nodes ((Id <$> (l ≫= port_sources)) ≫= source_ops (Id sid)).
Proof.
  revert nodes. induction l as [|p l IH]; intros nodes; [done|].
  rewrite bind_cons, fmap_app, bind_app, foldl_app. simpl. rewrite IH. f_equal.
  unfold add_step_in, port_sources. destruct (in_source p); [|done].
  by apply foldl_bind_fmap.
Qed.

Lemma declare_step_ops (nodes : registry) (st : StepRec) :
  declare_step nodes st = foldl apply_op nodes (step_ops st).
Proof.
  unfold declare_step, step_ops, step_sources. simpl. rewrite foldl_app, <- step_in_ops.
  unfold step_outs. rewrite <- list_fmap_compose.
  by apply foldl_bind_fmap.
Qed.

(** [build_nodes] is the writes of [doc_ops], in order, on the empty
    registry. *)
Lemma build_nodes_ops (d : Doc) : build_nodes d = foldl apply_op ∅ (doc_ops d).
Proof.
  unfold build_nodes, doc_ops. rewrite !foldl_app.
  rewrite <- (foldl_bind apply_op step_ops declare_step) by apply declare_step_ops.
  rewrite <- (foldl_bind apply_op output_ops declare_output) by apply declare_output_ops.
  do 2 f_equal. generalize (∅ : registry).
  induction (doc_inputs d) as [|i l IH]; intros nodes; [done|]. simpl. apply IH.
Qed.

(** *** Reading the registry off the writes *)

Lemma ups_cons (k : nodeid) (o : op) (ops : list op) :
  ups k (o :: ops) =
    match o with
    | OpUp k' x => if decide (k' = k) then x :: ups k ops else ups k ops
    | _ => ups k ops
    end.
Proof. unfold ups. simpl. destruct o; try done. by destruct (decide _). Qed.

Lemma downs_cons (k : nodeid) (o : op) (ops : list op) :
  downs k (o :: ops) =
    match o with
    | OpDown k' x => if decide (k' = k) then x :: downs k ops else downs k ops
    | _ => downs k ops
    end.
Proof. unfold downs. simpl. destruct o; try done. by destruct (decide _). Qed.

Lemma declared_cons (o : op) (ops : list op) :
  declared (o :: ops) =
    match o with
    | OpDeclare k _ => {[k]} ∪ declared ops
    | _ => declared ops
    end.
Proof. unfold declared. simpl. destruct o; try done. Qed.

Lemma dom_apply_op (nodes : registry) (o : op) :
  dom (apply_op nodes o) =
    match o with
    | OpDeclare k _ => {[k]} ∪ dom nodes
    | _ => dom nodes
    end.
Proof.
  destruct o as [k tp|k x|k x]; simpl.
  - unfold _declare_node. destruct (nodes !! k) as [n|] eqn:Hk.
    + assert (k ∈ dom nodes) by (apply elem_of_dom; eauto).
      destruct (type n); [|rewrite dom_insert_L]; set_solver.
    + by rewrite dom_insert_L.
  - apply dom_alter_L.
  - apply dom_alter_L.
Qed.

Lemma dom_run_ops (ops : list op) (nodes : registry) :
  dom (foldl apply_op nodes ops) = dom nodes ∪ declared ops.
Proof.
  revert nodes. induction ops as [|o ops IH]; intros nodes; simpl.
  - unfold declared. simpl. set_solver.
  - rewrite IH, dom_apply_op, declared_cons. destruct o; set_solver.
Qed.

Lemma extend_nil (n : _Node) (k : nodeid) : extend n k [] = n.
Proof.
  destruct n as [u d t]. unfold extend, ups, downs. simpl.
  rewrite !app_nil_r. by destruct t.
Qed.

(** The entry of [k] after the writes: what was there (or the empty node),
    extended by the writes to [k]. *)
Lemma lookup_run_ops (ops : list op) (nodes : registry) (k : nodeid) :
  ops_ok (dom nodes) ops →
  foldl apply_op nodes ops !! k =
    if decide (k ∈ dom nodes ∪ declared ops)
    then Some (extend (default (mk_Node [] [] None) (nodes !! k)) k ops)
    else None.
Proof.
  revert nodes. induction ops as [|o ops IH]; intros nodes Hok.
  - simpl. rewrite extend_nil. unfold declared. simpl.
    destruct (nodes !! k) as [n|] eqn:Hk.
    + rewrite decide_True; [done|]. apply elem_of_union_l, elem_of_dom. eauto.
    + rewrite decide_False; [done|]. apply not_elem_of_dom in Hk. set_solver.
  - simpl. rewrite IH.
    2:{ rewrite dom_apply_op. destruct o; simpl in Hok; [done|apply Hok..]. }
    rewrite dom_apply_op, declared_cons.
    assert (Hdom : (match o with OpDeclare k0 _ => {[k0]} ∪ dom nodes | _ => dom nodes end)
                     ∪ declared ops
                   = dom nodes ∪ match o with OpDeclare k0 _ => {[k0]} ∪ declared ops
                                 | _ => declared ops end).
    { destruct o; set_solver. }
    rewrite Hdom. destruct (decide _) as [Hin|]; [|done]. f_equal.
    unfold extend. rewrite ups_cons, downs_cons.
    destruct o as [k' tp|k' x|k' x]; simpl.
    + destruct (decide (k' = k)) as [->|Hne].
      * unfold _declare_node. destruct (nodes !! k) as [n|] eqn:Hk; simpl.
        -- destruct (type n) as [t|] eqn:Ht.
           ++ rewrite Hk. simpl. by rewrite Ht.
           ++ rewrite lookup_insert_eq. simpl.
              destruct tp; [|done]. by rewrite ?decide_True.
        -- rewrite lookup_insert_eq. simpl.
           destruct tp; [|done]. by rewrite ?decide_True.
      * rewrite declare_node_other by done.
        destruct tp; [|done]. by rewrite ?decide_False.
    + unfold up_append. destruct (decide (k' = k)) as [->|Hne].
      * rewrite lookup_alter_eq. destruct Hok as [Hk _].
        apply elem_of_dom in Hk as [n Hk]. rewrite Hk. simpl.
        by rewrite <- app_assoc.
      * by rewrite lookup_alter_ne.
    + unfold down_append. destruct (decide (k' = k)) as [->|Hne].
      * rewrite lookup_alter_eq. destruct Hok as [Hk _].
        apply elem_of_dom in Hk as [n Hk]. rewrite Hk. simpl.
        by rewrite <- app_assoc.
      * by rewrite lookup_alter_ne.
Qed.

(** *** The writes of a document *)

Lemma ops_ok_mono (ops : list op) (D D' : gset nodeid) :
  D ⊆ D' → ops_ok D ops → ops_ok D' ops.
Proof.
  revert D D'. induction ops as [|[k tp|k x|k x] ops IH]; intros D D' Hsub; simpl; [done|..].
  - apply IH. set_solver.
  - intros [? ?]. split; [set_solver|by eapply IH].
  - intros [? ?]. split; [set_solver|by eapply IH].
Qed.

Lemma ops_ok_app (a b : list op) (D : gset nodeid) :
  ops_ok D a → ops_ok (D ∪ declared a) b → ops_ok D (a ++ b).
Proof.
  revert D. induction a as [|[k tp|k x|k x] a IH]; intros D; simpl;
    rewrite ?declared_cons.
  - intros _. apply ops_ok_mono. unfold declared. simpl. set_solver.
  - intros Ha Hb. apply IH; [done|]. eapply ops_ok_mono; [|done]. set_solver.
  - intros [? Ha] Hb. split; [done|]. by apply IH.
  - intros [? Ha] Hb. split; [done|]. by apply IH.
Qed.

Lemma ops_ok_bind {A} (g : A → list op) (l : list A) (P : gset nodeid → Prop) :
  (∀ D D', D ⊆ D' → P D → P D') →
  (∀ x D, P D → ops_ok D (g x)) →
  ∀ D, P D → ops_ok D (l ≫= g).
Proof.
  intros Hmono Hg. induction l as [|x l IH]; intros D HD; [done|].
  rewrite bind_cons. apply ops_ok_app; [by apply Hg|].
  apply IH. eapply Hmono; [|done]. set_solver.
Qed.

Lemma source_ops_ok (k : nodeid) (l : list nodeid) (D : gset nodeid) :
  k ∈ D → ops_ok D (l ≫= source_ops k).
Proof.
  apply (ops_ok_bind (source_ops k) l (λ D, k ∈ D)); [set_solver|].
  intros x D' Hk. simpl. set_solver.
Qed.

Lemma out_ops_ok (k : nodeid) (l : list nodeid) (D : gset nodeid) :
  k ∈ D → ops_ok D (l ≫= out_ops k).
Proof.
  apply (ops_ok_bind (out_ops k) l (λ D, k ∈ D)); [set_solver|].
  intros x D' Hk. simpl. set_solver.
Qed.

Lemma doc_ops_ok (d : Doc) : ops_ok ∅ (doc_ops d).
Proof.
  unfold doc_ops. apply ops_ok_app; [|apply ops_ok_app].
  - generalize (∅ : gset nodeid). induction (doc_inputs d) as [|i l IH]; intros D; [done|].
    simpl. apply IH.
  - apply (ops_ok_bind output_ops _ (λ _, True)); [done| |done].
    intros o D _. simpl. apply source_ops_ok. set_solver.
  - apply (ops_ok_bind step_ops _ (λ _, True)); [done| |done].
    intros st D _. simpl. apply ops_ok_app.
    + apply source_ops_ok. set_solver.
    + apply out_ops_ok. set_solver.
Qed.

(** The entry of [k] in the registry of a document. *)
Lemma build_nodes_lookup (d : Doc) (k : nodeid) :
  build_nodes d !! k =
    if decide (k ∈ declared (doc_ops d))
    then Some (mk_Node (ups k (doc_ops d)) (downs k (doc_ops d)) (kind k (doc_ops d)))
    else None.
Proof.
  rewrite build_nodes_ops, lookup_run_ops by (rewrite dom_empty_L; apply doc_ops_ok).
  rewrite dom_empty_L, lookup_empty, union_empty_l_L. done.
Qed.

Lemma elem_of_ups (k x : nodeid) (ops : list op) : x ∈ ups k ops ↔ OpUp k x ∈ ops.
Proof.
  unfold ups. rewrite list_elem_of_bind. split.
  - intros ([k' tp|k' y|k' y] & Hx & Ho); try by apply elem_of_nil in Hx.
    destruct (decide (k' = k)) as [->|]; [|by apply elem_of_nil in Hx].
    by apply list_elem_of_singleton in Hx as ->.
  - intros Ho. exists (OpUp k x). split; [|done].
    rewrite decide_True by done. by left.
Qed.

Lemma elem_of_downs (k x : nodeid) (ops : list op) : x ∈ downs k ops ↔ OpDown k x ∈ ops.
Proof.
  unfold downs. rewrite list_elem_of_bind. split.
  - intros ([k' tp|k' y|k' y] & Hx & Ho); try by apply elem_of_nil in Hx.
    destruct (decide (k' = k)) as [->|]; [|by apply elem_of_nil in Hx].
    by apply list_elem_of_singleton in Hx as ->.
  - intros Ho. exists (OpDown k x). split; [|done].
    rewrite decide_True by done. by left.
Qed.

Lemma elem_of_declared (k : nodeid) (ops : list op) :
  k ∈ declared ops ↔ ∃ tp, OpDeclare k tp ∈ ops.
Proof.
  unfold declared. rewrite elem_of_list_to_set, list_elem_of_bind. split.
  - intros ([k' tp|k' y|k' y] & Hx & Ho); try by apply elem_of_nil in Hx.
    apply list_elem_of_singleton in Hx as ->. eauto.
  - intros [tp Ho]. exists (OpDeclare k tp). split; [by left|done].
Qed.

Lemma elem_of_source_ops (o : op) (k : nodeid) (l : list nodeid) :
  o ∈ l ≫= source_ops k ↔
  ∃ i, i ∈ l ∧ (o = OpUp k i ∨ o = OpDeclare i None ∨ o = OpDown i k).
Proof.
  rewrite list_elem_of_bind. unfold source_ops. split.
  - intros (i & Ho & Hi). exists i. split; [done|]. set_solver.
  - intros (i & Hi & Ho). exists i. split; [|done]. set_solver.
Qed.

Lemma elem_of_out_ops (o : op) (k : nodeid) (l : list nodeid) :
  o ∈ l ≫= out_ops k ↔
  ∃ i, i ∈ l ∧ (o = OpDown k i ∨ o = OpDeclare i None ∨ o = OpUp i k).
Proof.
  rewrite list_elem_of_bind. unfold out_ops. split.
  - intros (i & Ho & Hi). exists i. split; [done|]. set_solver.
  - intros (i & Hi & Ho). exists i. split; [|done]. set_solver.
Qed.

Lemma or_iff_both (A B C D : Prop) : (A ↔ B) → (C ↔ D) → (A ∨ C ↔ B ∨ D).
Proof. tauto. Qed.

Lemma ex_and_iff {A} (P : A → Prop) (Q R : A → Prop) :
  (∀ x, Q x ↔ R x) → (∃ x, Q x ∧ P x) ↔ (∃ x, P x ∧ R x).
Proof. intros H. split; intros (x & ? & ?); exists x; split; try done; by apply H. Qed.

(** The writes of a document, one by one. *)
Lemma elem_of_doc_ops (d : Doc) (o : op) :
  o ∈ doc_ops d ↔
  (∃ i, i ∈ input_ids d ∧ o = OpDeclare (Id i) (Some INPUT)) ∨
  (∃ out, out ∈ doc_outputs d ∧
     (o = OpDeclare (Id (out_id out)) (Some OUTPUT) ∨
      ∃ i, i ∈ output_sources out ∧
        (o = OpUp (Id (out_id out)) i ∨ o = OpDeclare i None ∨
         o = OpDown i (Id (out_id out))))) ∨
  (∃ st, st ∈ doc_steps d ∧
     (o = OpDeclare (Id (st_id st)) (Some STEP) ∨
      (∃ s, s ∈ step_sources st ∧
         (o = OpUp (Id (st_id st)) (Id s) ∨ o = OpDeclare (Id s) None ∨
          o = OpDown (Id s) (Id (st_id st)))) ∨
      (∃ s, s ∈ step_outs st ∧
         (o = OpDown (Id (st_id st)) (Id s) ∨ o = OpDeclare (Id s) None ∨
          o = OpUp (Id s) (Id (st_id st)))))).
Proof.
  unfold doc_ops, input_ids. rewrite !elem_of_app, !list_elem_of_bind, list_elem_of_fmap.
  apply or_iff_both; [|apply or_iff_both].
  - split.
    + intros (i & -> & Hi). exists (inp_id i). split; [|done]. by apply list_elem_of_fmap_2.
    + intros (i & (r & -> & Hr)%list_elem_of_fmap & ->). eauto.
  - apply ex_and_iff. intros out.
    unfold output_ops. rewrite elem_of_cons, elem_of_source_ops. done.
  - apply ex_and_iff. intros st.
    unfold step_ops. rewrite elem_of_cons, elem_of_app, elem_of_source_ops, elem_of_out_ops.
    apply or_iff_both; [done|]. apply or_iff_both.
    + split.
      * intros (i & (s & -> & Hs)%list_elem_of_fmap & Ho). eauto.
      * intros (s & Hs & Ho). exists (Id s). split; [by apply list_elem_of_fmap_2|done].
    + split.
      * intros (i & (s & -> & Hs)%list_elem_of_fmap & Ho). eauto.
      * intros (s & Hs & Ho). exists (Id s). split; [by apply list_elem_of_fmap_2|done].
Qed.

Lemma op_up_feeds (d : Doc) (k x : nodeid) : OpUp k x ∈ doc_ops d ↔ feeds d x k.
Proof.
  rewrite elem_of_doc_ops. unfold feeds. split.
  - intros [(i & _ & ?)|[(out & Ho & [?|(i & Hi & [?|[?|?]])])
      |(st & Hst & [?|[(s & Hs & [?|[?|?]])|(s & Hs & [?|[?|?]])]])]]; simplify_eq.
    + left. eauto.
    + right; left. eauto 10.
    + right; right. eauto 10.
  - intros [(o & Ho & -> & Hx)|[(st & s & Hst & -> & Hs & ->)|(st & o & Hst & -> & Ho & ->)]].
    + right; left. exists o. split; [done|]. right. eauto.
    + right; right. exists st. split; [done|]. right; left. eauto.
    + right; right. exists st. split; [done|]. right; right. eauto.
Qed.

Lemma op_down_feeds (d : Doc) (k x : nodeid) : OpDown k x ∈ doc_ops d ↔ feeds d k x.
Proof.
  rewrite elem_of_doc_ops. unfold feeds. split.
  - intros [(i & _ & ?)|[(out & Ho & [?|(i & Hi & [?|[?|?]])])
      |(st & Hst & [?|[(s & Hs & [?|[?|?]])|(s & Hs & [?|[?|?]])]])]]; simplify_eq.
    + left. eauto.
    + right; left. eauto 10.
    + right; right. eauto 10.
  - intros [(o & Ho & -> & Hx)|[(st & s & Hst & -> & Hs & ->)|(st & o & Hst & -> & Ho & ->)]].
    + right; left. exists o. split; [done|]. right. eauto.
    + right; right. exists st. split; [done|]. right; left. eauto.
    + right; right. exists st. split; [done|]. right; right. eauto.
Qed.

Lemma declared_doc_ids (d : Doc) (k : nodeid) :
  k ∈ declared (doc_ops d) ↔ k ∈ doc_ids d.
Proof.
  rewrite elem_of_declared. unfold doc_ids.
  rewrite !elem_of_app, !list_elem_of_bind, list_elem_of_fmap. split.
  - intros [tp Ho]. apply elem_of_doc_ops in Ho
      as [(i & Hi & ?)|[(out & Ho & [?|(i & Hi & [?|[?|?]])])
      |(st & Hst & [?|[(s & Hs & [?|[?|?]])|(s & Hs & [?|[?|?]])]])]]; simplify_eq.
    + left. eauto.
    + right; left. exists out. split; [by left|done].
    + right; left. exists out. split; [by right|done].
    + right; right. exists st. split; [by left|done].
    + right; right. exists st. split; [|done]. right. apply elem_of_app. left.
      by apply list_elem_of_fmap_2.
    + right; right. exists st. split; [|done]. right. apply elem_of_app. right.
      by apply list_elem_of_fmap_2.
  - intros [(i & -> & Hi)|[(out & Hk & Ho)|(st & Hk & Hst)]].
    + exists (Some INPUT). apply elem_of_doc_ops. left. eauto.
    + apply elem_of_cons in Hk as [->|Hk].
      * exists (Some OUTPUT). apply elem_of_doc_ops. right; left. eauto.
      * exists None. apply elem_of_doc_ops. right; left. exists out. split; [done|].
        right. exists k. eauto.
    + apply elem_of_cons in Hk as [->|Hk].
      * exists (Some STEP). apply elem_of_doc_ops. right; right. eauto.
      * exists None. apply elem_of_doc_ops. right; right. exists st. split; [done|].
        right. apply elem_of_app in Hk as [(s & -> & Hs)%list_elem_of_fmap
                                           |(s & -> & Hs)%list_elem_of_fmap]; [left|right]; eauto.
Qed.

(** Registered identifiers are the identifiers of the document. *)
Lemma build_nodes_dom (d : Doc) (k : nodeid) :
  is_Some (build_nodes d !! k) ↔ k ∈ doc_ids d.
Proof.
  rewrite build_nodes_lookup, <- declared_doc_ids.
  destruct (decide _); split; done.
Qed.

Lemma feeds_ids (d : Doc) (x k : nodeid) : feeds d x k → x ∈ doc_ids d ∧ k ∈ doc_ids d.
Proof.
  intros H. rewrite <- !declared_doc_ids, !elem_of_declared.
  destruct H as [(o & Ho & -> & Hx)|[(st & s & Hst & -> & Hs & ->)|(st & o & Hst & -> & Ho & ->)]].
  - split; [exists None|exists (Some OUTPUT)]; apply elem_of_doc_ops; right; left;
      exists o; (split; [done|]); [right; eauto|by left].
  - split; [exists None|exists (Some STEP)]; apply elem_of_doc_ops; right; right;
      exists st; (split; [done|]); [right; left; eauto|by left].
  - split; [exists (Some STEP)|exists None]; apply elem_of_doc_ops; right; right;
      exists st; (split; [done|]); [by left|right; right; eauto].
Qed.

(** The edges of the registry are the dependencies of the document, and
    each is recorded in both directions. *)
Lemma build_nodes_edges (d : Doc) (k : nodeid) (n : _Node) :
  build_nodes d !! k = Some n →
  (∀ x, x ∈ up n ↔ feeds d x k) ∧ (∀ x, x ∈ down n ↔ feeds d k x).
Proof.
  rewrite build_nodes_lookup. destruct (decide _); [|done]. intros [= <-]. simpl.
  split; intros x.
  - by rewrite elem_of_ups, op_up_feeds.
  - by rewrite elem_of_downs, op_down_feeds.
Qed.

Lemma build_nodes_closed (d : Doc) : closed (build_nodes d).
Proof.
  intros k n x Hk Hx. apply build_nodes_dom.
  destruct (build_nodes_edges d k n Hk) as [Hup Hdown].
  apply elem_of_app in Hx as [Hx|Hx].
  - by apply Hup, feeds_ids in Hx as [? ?].
  - by apply Hdown, feeds_ids in Hx as [? ?].
Qed.

Lemma edges_build_nodes (d : Doc) (dir : direction) (x y : nodeid) :
  y ∈ edges (build_nodes d) dir x ↔
  match dir with UP => feeds d y x | DOWN => feeds d x y end.
Proof.
  unfold edges. destruct (build_nodes d !! x) as [n|] eqn:Hx.
  - destruct (build_nodes_edges d x n Hx) as [Hup Hdown]. by destruct dir.
  - split; [by intros ?%elem_of_nil|]. intros H.
    assert (is_Some (build_nodes d !! x)) as [? ?]; [|congruence].
    apply build_nodes_dom. destruct dir; by apply feeds_ids in H as [? ?].
Qed.

(** *** The kind of a registered identifier *)

Lemma kind_app (k : nodeid) (a b : list op) :
  kind k (a ++ b) = match kind k a with Some t => Some t | None => kind k b end.
Proof.
  induction a as [|[k' [t|]|k' x|k' x] a IH]; simpl; try done.
  by destruct (decide (k' = k)).
Qed.

Lemma kind_Some (k : nodeid) (t : ntype) (ops : list op) :
  kind k ops = Some t → OpDeclare k (Some t) ∈ ops.
Proof.
  induction ops as [|[k' [t'|]|k' x|k' x] ops IH]; simpl; intros H; try done;
    try (right; by apply IH).
  destruct (decide (k' = k)) as [->|]; [|right; by apply IH].
  injection H as ->. by left.
Qed.

Lemma kind_None (k : nodeid) (ops : list op) :
  (∀ t, OpDeclare k (Some t) ∉ ops) → kind k ops = None.
Proof.
  intros H. destruct (kind k ops) as [t|] eqn:Hk; [|done].
  by apply kind_Some, H in Hk.
Qed.

(** When every typed declaration of [ops] has kind [T]. *)
Lemma kind_uniform (T : ntype) (k : nodeid) (ops : list op) :
  (∀ k' t, OpDeclare k' (Some t) ∈ ops → t = T) →
  OpDeclare k (Some T) ∈ ops → kind k ops = Some T.
Proof.
  intros HT Hin. destruct (kind k ops) as [t|] eqn:Hk.
  - apply kind_Some in Hk. by rewrite (HT _ _ Hk).
  - exfalso. clear HT. induction ops as [|o ops IH]; [by apply elem_of_nil in Hin|].
    apply elem_of_cons in Hin as [<-|Hin]; simpl in Hk.
    + by rewrite decide_True in Hk.
    + apply IH; [done|]. destruct o as [k' [t'|]|k' x|k' x]; try done.
      by destruct (decide (k' = k)).
Qed.

Lemma build_nodes_kind (d : Doc) (k : nodeid) (n : _Node) :
  build_nodes d !! k = Some n → type n = doc_kind d k.
Proof.
  rewrite build_nodes_lookup. destruct (decide _); [|done]. intros [= <-]. simpl.
  unfold doc_ops. rewrite !kind_app.
  set (ins := (λ i, OpDeclare (Id (inp_id i)) (Some INPUT)) <$> doc_inputs d).
  set (outs := doc_outputs d ≫= output_ops).
  set (sts := doc_steps d ≫= step_ops).
  assert (Hins : ∀ k' t, OpDeclare k' (Some t) ∈ ins ↔
                         t = INPUT ∧ ∃ s, k' = Id s ∧ s ∈ input_ids d).
  { intros k' t. unfold ins, input_ids. rewrite list_elem_of_fmap. split.
    - intros (i & [= -> ->] & Hi). split; [done|]. eexists. split; [done|].
      by apply list_elem_of_fmap_2.
    - intros (-> & s & -> & (i & -> & Hi)%list_elem_of_fmap). eauto. }
  assert (Houts : ∀ k' t, OpDeclare k' (Some t) ∈ outs ↔
                          t = OUTPUT ∧ ∃ s, k' = Id s ∧ s ∈ output_ids d).
  { intros k' t. unfold outs, output_ids, output_ops.
    rewrite list_elem_of_bind. split.
    - intros (o & Hk & Ho). apply elem_of_cons in Hk as [[= -> ->]|Hk].
      + split; [done|]. eexists. split; [done|]. by apply list_elem_of_fmap_2.
      + apply elem_of_source_ops in Hk as (i & _ & [?|[?|?]]); done.
    - intros (-> & s & -> & (o & -> & Ho)%list_elem_of_fmap).
      exists o. split; [by left|done]. }
  assert (Hsts : ∀ k' t, OpDeclare k' (Some t) ∈ sts ↔
                         t = STEP ∧ ∃ s, k' = Id s ∧ s ∈ step_ids d).
  { intros k' t. unfold sts, step_ids, step_ops.
    rewrite list_elem_of_bind. split.
    - intros (st & Hk & Hst). apply elem_of_cons in Hk as [[= -> ->]|Hk].
      + split; [done|]. eexists. split; [done|]. by apply list_elem_of_fmap_2.
      + apply elem_of_app in Hk as [Hk|Hk].
        * apply elem_of_source_ops in Hk as (i & _ & [?|[?|?]]); done.
        * apply elem_of_out_ops in Hk as (i & _ & [?|[?|?]]); done.
    - intros (-> & s & -> & (st & -> & Hst)%list_elem_of_fmap).
      exists st. split; [by left|done]. }
  assert (Hseg : ∀ (T : ntype) (seg : list op) (ids : list string),
            (∀ k' t, OpDeclare k' (Some t) ∈ seg ↔ t = T ∧ ∃ s, k' = Id s ∧ s ∈ ids) →
            kind k seg = match k with
                         | Id s => if decide (s ∈ ids) then Some T else None
                         | SeqClass => None
                         end).
  { intros T seg ids Hseg. destruct k as [s|].
    - destruct (decide (s ∈ ids)) as [Hs|Hs].
      + apply kind_uniform; [intros k' t Hk'; by apply Hseg in Hk' as [? _]|].
        apply Hseg. eauto.
      + apply kind_None. intros t (_ & s' & [= <-] & ?)%Hseg. done.
    - apply kind_None. intros t (_ & s' & ? & ?)%Hseg. done. }
  rewrite (Hseg _ _ _ Hins), (Hseg _ _ _ Houts), (Hseg _ _ _ Hsts).
  unfold doc_kind. destruct k as [s|]; [|done].
  by repeat destruct (decide _).
Qed.

(** ** Roots *)

Lemma visit_root_total (d : Doc) (vis : gset nodeid) (r : string) :
  is_Some (build_nodes d !! Id r) → ∃ R, visit_root (build_nodes d) vis r = Ok R.
Proof.
  intros [n Hn]. unfold visit_root. rewrite Hn.
  assert (Hsz : size (dom (build_nodes d) ∖ vis) < S (size (build_nodes d))).
  { rewrite <- size_dom. apply Nat.lt_succ_r, subseteq_size. set_solver. }
  destruct (decide _); apply visit_total; eauto using build_nodes_closed.
Qed.

(** C2, as the code has it.  For a root [r] that is registered, with
    whatever set the earlier roots have reached: the traversal returns; if
    the kind of [r] is [OUTPUT] it follows [up] edges, otherwise [down]
    edges; and the set it returns holds what was already reached, and beyond
    that exactly the nodes to which a path of that direction leads from [r]
    through nodes that were not yet reached.  A node that was already in the
    set is not entered again, so what lies behind it is not added on its
    account. *)
Theorem visit_root_reaches (d : Doc) (visited_down : gset nodeid) (r : string) (n : _Node) :
  build_nodes d !! Id r = Some n →
  ∃ R, visit_root (build_nodes d) visited_down r = Ok R ∧
    (type n = Some OUTPUT →
       ∀ z, z ∈ R ↔ z ∈ visited_down ∨ walk (build_nodes d) UP visited_down (Id r) z) ∧
    (type n ≠ Some OUTPUT →
       ∀ z, z ∈ R ↔ z ∈ visited_down ∨ walk (build_nodes d) DOWN visited_down (Id r) z).
Proof.
  intros Hn. destruct (visit_root_total d visited_down r) as [R HR]; [by eauto|].
  exists R. split; [done|]. unfold visit_root in HR. rewrite Hn in HR.
  split; intros Hty; destruct (decide _); try done; by eapply visit_spec.
Qed.

Lemma visit_root_reaches_witness :
  ∃ R, visit_root (build_nodes Examples.merge_doc) ∅ "wf#O" = Ok R ∧
    (Some OUTPUT = Some OUTPUT →
       ∀ z, z ∈ R ↔ z ∈ (∅ : gset nodeid) ∨
                    walk (build_nodes Examples.merge_doc) UP ∅ (Id "wf#O") z) ∧
    (Some OUTPUT ≠ Some OUTPUT →
       ∀ z, z ∈ R ↔ z ∈ (∅ : gset nodeid) ∨
                    walk (build_nodes Examples.merge_doc) DOWN ∅ (Id "wf#O") z).
Proof.
  apply (visit_root_reaches Examples.merge_doc ∅ "wf#O"
           (mk_Node [Id "wf#B/o"; Id "wf#D/o"] [] (Some OUTPUT))).
  reflexivity.
Defined.

(** C2 as stated fails when roots walk in different directions.  With roots
    [A] (a step, walked downstream) and then [O] (an output, to be walked
    upstream), [O] is already in the set when its turn comes, so step [D],
    which is upstream of [O], is never added. *)
Lemma reach_misses_upstream_of_output :
  ∃ n R,
    build_nodes Examples.merge_doc !! Id "wf#O" = Some n ∧ type n = Some OUTPUT ∧
    reach (build_nodes Examples.merge_doc) ["wf#A"; "wf#O"] = Ok R ∧
    walk (build_nodes Examples.merge_doc) UP ∅ (Id "wf#O") (Id "wf#D") ∧
    Id "wf#D" ∉ R.
Proof.
  eexists _, _. split; [reflexivity|]. split; [reflexivity|].
  split; [vm_compute; reflexivity|]. split.
  - apply (walk_step _ _ _ _ (Id "wf#D/o")); [set_solver| |].
    { apply edges_build_nodes. left. eexists. split; [by left|].
      split; [done|]. by right; left. }
    apply (walk_step _ _ _ _ (Id "wf#D")); [set_solver| |apply walk_here; set_solver].
    apply edges_build_nodes. right; right.
    exists (Examples.dstep "wf#D" [Examples.port "wf#D/x" "wf#i"] ["wf#D/o"]), "wf#D/o".
    split; [by right; right; left|]. split; [done|]. split; [by left|done].
  - vm_compute. intros H. discriminate H.
Qed.

(** ** An unknown root *)

Lemma reach_unknown_root (d : Doc) (roots : list string) (vis : gset nodeid) (r : string) :
  r ∈ roots → build_nodes d !! Id r = None →
  ∃ r0, r0 ∈ roots ∧ build_nodes d !! Id r0 = None ∧
    for_each (visit_root (build_nodes d)) roots vis = Raise (KeyError (Id r0)).
Proof.
  intros Hr Hnone. revert vis.
  induction roots as [|r1 roots IH]; intros vis; [by apply elem_of_nil in Hr|].
  simpl. destruct (build_nodes d !! Id r1) as [n1|] eqn:H1.
  - destruct (visit_root_total d vis r1) as [R HR]; [by eauto|]. rewrite HR. simpl.
    apply elem_of_cons in Hr as [->|Hr]; [congruence|].
    destruct (IH Hr R) as (r0 & Hr0 & Hn0 & Hf). exists r0. split; [by right|done].
  - exists r1. split; [by left|]. split; [done|].
    unfold visit_root. by rewrite H1.
Qed.

(** C9.  Let some root be none of the document's identifiers: not a
    declared input, output or step, not named by an [outputSource] or a
    [source], and not a step output.  Then [get_subgraph] raises and returns
    no document; and when the document is of class [Workflow], so that the
    check of line 114 passes, what it raises is the [KeyError] of the lookup
    [nodes[r0]] of line 154, for a root [r0] that is none of the document's
    identifiers (the first such root). *)
Theorem get_subgraph_unknown_root (urldefrag : urldefrag_fn) (set_iter : gset nodeid → list nodeid)
    (roots : list string) (tool : Workflow) (r : string) :
  r ∈ roots → Id r ∉ doc_ids (wf_tool tool) →
  ∃ e, get_subgraph urldefrag set_iter roots tool = Raise e ∧
    (field_get "class" (doc_fields (wf_tool tool)) = Some (VStr "Workflow") →
     ∃ r0, r0 ∈ roots ∧ (Id r0 ∉ doc_ids (wf_tool tool)) ∧ e = KeyError (Id r0)).
Proof.
  intros Hr Hid.
  assert (Hnone : ∀ x, build_nodes (wf_tool tool) !! Id x = None ↔ Id x ∉ doc_ids (wf_tool tool)).
  { intros x. rewrite <- build_nodes_dom, eq_None_not_Some. done. }
  destruct (reach_unknown_root (wf_tool tool) roots ∅ r Hr) as (r0 & Hr0 & Hn0 & Hf);
    [by apply Hnone|].
  unfold get_subgraph, reach. rewrite Hf.
  destruct (field_get "class" _) as [cls|]; [|by eexists].
  destruct (is_workflow_class cls) eqn:Hcls; [|eexists; split; [done|]].
  - eexists. split; [done|]. intros _. exists r0. split; [done|]. split; [by apply Hnone|done].
  - intros [= ->]. done.
Qed.

Lemma get_subgraph_unknown_root_witness :
  ∃ e, get_subgraph Examples.urldefrag elements ["wf#A"; "wf#nowhere"] Examples.merge_wf = Raise e ∧
    (field_get "class" (doc_fields (wf_tool Examples.merge_wf)) = Some (VStr "Workflow") →
     ∃ r0, r0 ∈ ["wf#A"; "wf#nowhere"] ∧
       (Id r0 ∉ doc_ids (wf_tool Examples.merge_wf)) ∧ e = KeyError (Id r0)).
Proof.
  apply (get_subgraph_unknown_root Examples.urldefrag elements ["wf#A"; "wf#nowhere"] Examples.merge_wf
           "wf#nowhere").
  - by right; left.
  - intros H. apply (elem_of_list_to_set (C:=gset nodeid)) in H.
    vm_compute in H. discriminate H.
Defined.

(** ** Loops *)

Lemma for_each_inv {A S} (f : S → A → result S) (P : S → Prop) (l : list A) :
  (∀ s x s', x ∈ l → P s → f s x = Ok s' → P s') →
  ∀ st st', P st → for_each f l st = Ok st' → P st'.
Proof.
  induction l as [|x l IH]; intros Hf st st' HP H; simpl in H.
  - by injection H as <-.
  - destruct (f st x) as [s1|] eqn:H1; [|done]. simpl in H.
    eapply IH; [| |done].
    + intros s y s' Hy. apply Hf. by right.
    + eapply Hf; [by left|done..].
Qed.

Lemma for_each_rel {A S} (f : S → A → result S) (R : S → S → Prop) (l : list A) :
  Reflexive R → Transitive R →
  (∀ s x s', x ∈ l → f s x = Ok s' → R s s') →
  ∀ st st', for_each f l st = Ok st' → R st st'.
Proof.
  intros Hrefl Htrans. induction l as [|x l IH]; intros Hf st st' H; simpl in H.
  - by injection H as <-.
  - destruct (f st x) as [s1|] eqn:H1; [|done]. simpl in H.
    transitivity s1; [eapply Hf; [by left|done]|].
    apply IH; [|done]. intros s y s' Hy. apply Hf. by right.
Qed.

(** The round of an element of the list: the state before it, and after. *)
Lemma for_each_elem {A S} (f : S → A → result S) (R : S → S → Prop) (l : list A) (x : A) :
  Reflexive R → Transitive R →
  (∀ s y s', y ∈ l → f s y = Ok s' → R s s') →
  x ∈ l →
  ∀ st st', for_each f l st = Ok st' →
    ∃ s1 s2, R st s1 ∧ f s1 x = Ok s2 ∧ R s2 st'.
Proof.
  intros Hrefl Htrans Hf Hx st st' H.
  apply list_elem_of_split in Hx as (l1 & l2 & ->).
  revert st H. induction l1 as [|y l1 IH]; intros st H; simpl in H.
  - destruct (f st x) as [s2|] eqn:H2; [|done]. simpl in H.
    exists st, s2. split; [done|]. split; [done|].
    eapply (for_each_rel f R l2); [done..| |done].
    intros s y s' Hy. apply Hf. rewrite elem_of_app, elem_of_cons. auto.
  - destruct (f st y) as [s0|] eqn:H0; [|done]. simpl in H.
    destruct IH with (st := s0) as (s1 & s2 & HR & Hx & HR2); [|done|].
    + intros s z s' Hz. apply Hf. by right.
    + exists s1, s2. split; [|done]. transitivity s0; [|done].
      eapply Hf; [by left|done].
Qed.

Lemma for_each_progress {A S} (f : S → A → result S) (P : S → Prop) (l : list A) :
  (∀ s x, x ∈ l → P s → ∃ s', f s x = Ok s' ∧ P s') →
  ∀ st, P st → ∃ st', for_each f l st = Ok st' ∧ P st'.
Proof.
  induction l as [|x l IH]; intros Hf st HP; simpl; [by eauto|].
  destruct (Hf st x) as (s1 & -> & HP1); [by left|done|]. simpl.
  apply IH; [|done]. intros s y Hy. apply Hf. by right.
Qed.

(** ** The rewire table as an ordered mapping *)

Lemma field_set_keys {V} (k : string) (v : V) (d : list (string * V)) :
  (field_set k v d).*1 = if decide (k ∈ d.*1) then d.*1 else d.*1 ++ [k].
Proof.
  induction d as [|[k' v'] d IH].
  - simpl. destruct (decide (k ∈ [])) as [H%elem_of_nil|]; done.
  - cbn [field_set]. destruct (decide (k' = k)) as [->|Hne]; rewrite !fmap_cons; cbn [fst].
    + by rewrite decide_True by (by left).
    + rewrite IH. destruct (decide (k ∈ d.*1)) as [Hin|Hin].
      * by rewrite decide_True by (by right).
      * rewrite decide_False; [done|]. by intros [?|?]%elem_of_cons.
Qed.

Lemma elem_of_field_set {V} (k : string) (v : V) (d : list (string * V)) (e : string * V) :
  e ∈ field_set k v d → e = (k, v) ∨ e ∈ d.
Proof.
  induction d as [|[k' v'] d IH]; simpl.
  - intros ->%list_elem_of_singleton. by left.
  - destruct (decide (k' = k)) as [->|Hne].
    + intros [->|?]%elem_of_cons; [by left|right; by right].
    + intros [->|H]%elem_of_cons; [right; by left|].
      destruct (IH H); [by left|right; by right].
Qed.

Lemma field_set_NoDup {V} (k : string) (v : V) (d : list (string * V)) :
  NoDup d.*1 → NoDup (field_set k v d).*1.
Proof.
  intros Hd. rewrite field_set_keys. destruct (decide _); [done|].
  apply NoDup_app. split; [done|]. split; [|apply NoDup_singleton].
  intros x Hx ->%list_elem_of_singleton. done.
Qed.

Lemma field_get_Some_elem {V} (k : string) (v : V) (d : list (string * V)) :
  field_get k d = Some v → (k, v) ∈ d.
Proof.
  induction d as [|[k' v'] d IH]; simpl; [done|].
  destruct (decide (k' = k)) as [->|Hne].
  - intros [= ->]. by left.
  - intros H. right. by apply IH.
Qed.

Lemma field_get_is_Some {V} (k : string) (d : list (string * V)) :
  is_Some (field_get k d) ↔ k ∈ d.*1.
Proof.
  induction d as [|[k' v'] d IH]; simpl.
  - split; [by intros [? ?]|by intros ?%elem_of_nil].
  - destruct (decide (k' = k)) as [->|Hne].
    + split; [intros _; by left|eauto].
    + rewrite IH. split; [by right|]. by intros [?|?]%elem_of_cons.
Qed.

Lemma field_get_NoDup {V} (k : string) (v : V) (d : list (string * V)) :
  NoDup d.*1 → (k, v) ∈ d → field_get k d = Some v.
Proof.
  induction d as [|[k' v'] d IH]; simpl; [by intros _ ?%elem_of_nil|].
  intros [Hk' Hd]%NoDup_cons [[= -> ->]|Hin]%elem_of_cons.
  - by rewrite decide_True.
  - rewrite decide_False; [by apply IH|]. intros ->. apply Hk'.
    apply list_elem_of_fmap. by exists (k, v).
Qed.

(** One key, one entry: the table splits around the entry of [k]. *)
Lemma field_get_split {V} (k : string) (v : V) (d : list (string * V)) :
  NoDup d.*1 → field_get k d = Some v →
  ∃ pre post, d = pre ++ (k, v) :: post ∧ k ∉ pre.*1 ∧ k ∉ post.*1.
Proof.
  intros Hd Hk. apply field_get_Some_elem, list_elem_of_split in Hk as (pre & post & ->).
  exists pre, post. split; [done|].
  rewrite fmap_app, fmap_cons in Hd. simpl in Hd.
  apply NoDup_app in Hd as (_ & Hdis & [Hk _]%NoDup_cons).
  split; [|done]. intros Hpre. apply (Hdis k Hpre). by left.
Qed.

(** ** What the rewiring pass computes *)

Lemma rewire_from_inputs_cases (u rn : string) (inputs : list StepInput)
    (rewire : rewire_table) :
  (rewire_from_inputs u rn inputs rewire = rewire ∧
   ∀ p s, p ∈ inputs → si_source p = Some s → source_has s u = false) ∨
  (∃ p s, p ∈ inputs ∧ si_source p = Some s ∧ source_has s u = true ∧
     rewire_from_inputs u rn inputs rewire = field_set u (rn, si_type p) rewire).
Proof.
  induction inputs as [|p inputs IH]; simpl.
  - left. split; [done|]. by intros p s ?%elem_of_nil.
  - destruct (si_source p) as [s|] eqn:Hs.
    + destruct (source_has s u) eqn:Hhas.
      * right. exists p, s. split; [by left|done].
      * destruct IH as [[-> Hno]|(q & t & Hq & Hqs & Hqt & ->)].
        -- left. split; [done|]. intros q t [->|Hq]%elem_of_cons Hqs; [congruence|eauto].
        -- right. exists q, t. split; [by right|done].
    + destruct IH as [[-> Hno]|(q & t & Hq & Hqs & Hqt & ->)].
      * left. split; [done|]. intros q t [->|Hq]%elem_of_cons Hqs; [congruence|eauto].
      * right. exists q, t. split; [by right|done].
Qed.

(** The new identifier, from what [urldefrag] returns. *)
Lemma flatten_id_Ok (urldefrag : urldefrag_fn) (u rn : string) :
  flatten_id urldefrag u = Ok rn ↔
  ∃ df, urldefrag u = Ok df ∧ rn = df.1 +:+ "#" +:+ Str.replace "/" "_" df.2.
Proof.
  unfold flatten_id. destruct (urldefrag u) as [df|e]; simpl.
  - split; [intros [= <-]; by exists df|by intros (? & [= <-] & ->)].
  - split; [done|by intros (? & ? & _)].
Qed.

Section rewire_pass.

Variable urldefrag : urldefrag_fn.
Variable wsteps : list WorkflowStep.
Variable nodes : registry.
Variable visited_down : gset nodeid.

(** The cases of lines 166-182 for one [u], when no exception is raised. *)
Lemma rewire_up_cases (v : nodeid) (nv : _Node) (st st' : rewire_state) (u : nodeid) :
  rewire_up urldefrag wsteps nodes visited_down v nv st u = Ok st' →
  (u ∈ visited_down ∧ st' = st) ∨
  (u ∉ visited_down ∧ ∃ nu, nodes !! u = Some nu ∧
     ((type nu = Some INPUT ∧ st' = ({[u]} ∪ st.1, st.2)) ∨
      (type nu ≠ Some INPUT ∧ ∃ us rn, u = Id us ∧ flatten_id urldefrag us = Ok rn ∧
         ((type nv ≠ Some STEP ∧ st' = st) ∨
          (type nv = Some STEP ∧ ∃ vs w, v = Id vs ∧ find_step wsteps vs = Some w ∧
             st' = (st.1, rewire_from_inputs us rn (tool_inputs w) st.2)))))).
Proof.
  unfold rewire_up. intros H.
  destruct (decide (u ∈ visited_down)); [left; by injection H as <-|right; split; [done|]].
  destruct (nodes !! u) as [nu|]; [|done]. exists nu. split; [done|].
  destruct (decide (type nu = Some INPUT)); [left; by injection H as <-|right; split; [done|]].
  destruct u as [us|]; [|done].
  destruct (flatten_id urldefrag us) as [rn|] eqn:Hrn; [|done]. simpl in H.
  exists us, rn. split; [done|]. split; [done|].
  destruct (decide (type nv = Some STEP)); [right; split; [done|]|left; by injection H as <-].
  destruct v as [vs|]; [|done]. destruct (find_step wsteps vs) as [w|] eqn:Hw; [|done].
  injection H as <-. by exists vs, w.
Qed.

#[local] Instance state_le_refl : Reflexive state_le.
Proof. by intros [??]. Qed.

#[local] Instance state_le_trans : Transitive state_le.
Proof. intros [??] [??] [??] [??] [??]. split; by etrans. Qed.

Lemma rewire_from_inputs_keys (u rn : string) (inputs : list StepInput) (rewire : rewire_table) :
  rewire.*1 ⊆ (rewire_from_inputs u rn inputs rewire).*1.
Proof.
  destruct (rewire_from_inputs_cases u rn inputs rewire)
    as [[-> _]|(p & s & _ & _ & _ & ->)]; [done|].
  rewrite field_set_keys. destruct (decide _); [done|]. set_solver.
Qed.

Lemma rewire_up_le (v : nodeid) (nv : _Node) (st st' : rewire_state) (u : nodeid) :
  rewire_up urldefrag wsteps nodes visited_down v nv st u = Ok st' → state_le st st'.
Proof.
  intros [[_ ->]|(_ & nu & _ & [[_ ->]|(_ & us & rn & _ & _ &
                                        [[_ ->]|(_ & vs & w & _ & _ & ->)])])]
    %rewire_up_cases; try done.
  - split; simpl; [set_solver|done].
  - split; simpl; [done|apply rewire_from_inputs_keys].
Qed.

Lemma rewire_node_le (st st' : rewire_state) (v : nodeid) :
  rewire_node urldefrag wsteps nodes visited_down st v = Ok st' →
  state_le st st' ∧ v ∈ st'.1.
Proof.
  unfold rewire_node. intros H. destruct (nodes !! v) as [nv|]; [|done].
  assert (Hle : state_le st ({[v]} ∪ st.1, st.2)) by (split; simpl; [set_solver|done]).
  destruct (decide _).
  - assert (Hle' : state_le ({[v]} ∪ st.1, st.2) st').
    { eapply (for_each_rel _ state_le); [apply _..| |done].
      intros s x s' _. apply rewire_up_le. }
    split; [by etrans|]. apply Hle'. simpl. set_solver.
  - injection H as <-. split; [done|]. simpl. set_solver.
Qed.

Lemma rewire_up_sound (L : list nodeid) (v : nodeid) (nv : _Node)
    (st st' : rewire_state) (u : nodeid) :
  v ∈ L → nodes !! v = Some nv → type nv = Some STEP ∨ type nv = Some OUTPUT →
  u ∈ up nv →
  state_sound urldefrag wsteps nodes visited_down L st →
  rewire_up urldefrag wsteps nodes visited_down v nv st u = Ok st' →
  state_sound urldefrag wsteps nodes visited_down L st'.
Proof.
  intros Hv Hnv Hty Hu (Hvis & Hnd & Hrw).
  intros [[_ ->]|(Hnu & nu & Hnu' & [[Hin ->]|(Hnin & us & rn & -> & Hrn &
                                                [[_ ->]|(Hst & vs & w & -> & Hw & ->)])])]
    %rewire_up_cases; try done.
  - split; [|done]. simpl. intros x [->%elem_of_singleton|Hx]%elem_of_union; [|by apply Hvis].
    right. split; [done|]. by exists v, nv, nu.
  - split; [done|]. simpl.
    destruct (rewire_from_inputs_cases us rn (tool_inputs w) st.2)
      as [[-> _]|(p & s & Hp & Hs & Hhas & ->)]; [done|].
    split; [by apply field_set_NoDup|].
    intros u rv [[= -> ->]|Hin]%elem_of_field_set; [|by apply Hrw].
    split; [done|]. split; [done|]. by exists vs, nv, nu, w, p, s.
Qed.

Lemma rewire_node_sound (L : list nodeid) (st st' : rewire_state) (v : nodeid) :
  v ∈ L → state_sound urldefrag wsteps nodes visited_down L st →
  rewire_node urldefrag wsteps nodes visited_down st v = Ok st' → state_sound urldefrag wsteps nodes visited_down L st'.
Proof.
  unfold rewire_node. intros Hv (Hvis & Hrw) H.
  destruct (nodes !! v) as [nv|] eqn:Hnv; [|done].
  assert (Hs0 : state_sound urldefrag wsteps nodes visited_down L ({[v]} ∪ st.1, st.2)).
  { split; [|done]. simpl. intros x [->%elem_of_singleton|Hx]%elem_of_union; [by left|by apply Hvis]. }
  destruct (decide _) as [Hty|]; [|by injection H as <-].
  eapply (for_each_inv _ (state_sound urldefrag wsteps nodes visited_down L)); [|done|done].
  intros s x s' Hx Hs. by apply rewire_up_sound.
Qed.

Lemma rewire_pass_sound (L : list nodeid) (st : rewire_state) :
  for_each (rewire_node urldefrag wsteps nodes visited_down) L (∅, []) = Ok st →
  state_sound urldefrag wsteps nodes visited_down L st.
Proof.
  apply (for_each_inv _ (state_sound urldefrag wsteps nodes visited_down L)).
  - intros s x s' Hx Hs. by apply rewire_node_sound.
  - split; [set_solver|]. split; [constructor|]. by intros u rv ?%elem_of_nil.
Qed.

(** What the pass has done for a listed node [v] and an upstream [u] of it
    that was not reached. *)
Lemma rewire_pass_complete (L : list nodeid) (st : rewire_state)
    (v u : nodeid) (nv nu : _Node) :
  for_each (rewire_node urldefrag wsteps nodes visited_down) L (∅, []) = Ok st →
  v ∈ L → nodes !! v = Some nv → type nv = Some STEP ∨ type nv = Some OUTPUT →
  u ∈ up nv → u ∉ visited_down → nodes !! u = Some nu →
  v ∈ st.1 ∧
  (type nu = Some INPUT → u ∈ st.1) ∧
  (type nu ≠ Some INPUT → type nv = Some STEP →
     ∃ vs us w, v = Id vs ∧ u = Id us ∧ find_step wsteps vs = Some w ∧
       (has_port_for w us → us ∈ st.2.*1)).
Proof.
  intros H Hv Hnv Hty Hu Hnot Hnu.
  destruct (for_each_elem _ state_le L v _ _
              ltac:(intros s y s' _ Hy; by apply rewire_node_le in Hy as [? _])
              Hv _ _ H) as (s1 & s2 & _ & Hround & Hle2).
  split; [apply Hle2; by apply rewire_node_le in Hround as [_ ?]|].
  unfold rewire_node in Hround. rewrite Hnv in Hround.
  rewrite decide_True in Hround by done.
  destruct (for_each_elem _ state_le (up nv) u _ _
              ltac:(intros s y s' _ Hy; by apply rewire_up_le in Hy)
              Hu _ _ Hround) as (t1 & t2 & _ & Hup & Hle3).
  apply rewire_up_cases in Hup
    as [[? _]|(_ & nu' & Hnu' & [[Hin ->]|(Hnin & us & rn & -> & Hrn &
                                            [[Hns ->]|(Hst & vs & w & -> & Hw & ->)])])];
    [done|..]; rewrite Hnu in Hnu'; injection Hnu' as <-.
  - split; [|done]. intros _. apply Hle2, Hle3. simpl. set_solver.
  - split; [done|]. done.
  - split; [done|]. intros _ _. exists vs, us, w. split; [done|]. split; [done|].
    split; [done|]. intros (p & s & Hp & Hs & Hhas).
    apply Hle2, Hle3. simpl.
    destruct (rewire_from_inputs_cases us rn (tool_inputs w) t1.2)
      as [[_ Hno]|(q & t & _ & _ & _ & ->)].
    + by rewrite (Hno p s Hp Hs) in Hhas.
    + apply field_get_is_Some. rewrite field_get_set_eq. eauto.
Qed.

Lemma rewire_pass_listed (L : list nodeid) (st : rewire_state) (v : nodeid) :
  for_each (rewire_node urldefrag wsteps nodes visited_down) L (∅, []) = Ok st →
  v ∈ L → v ∈ st.1.
Proof.
  intros H Hv.
  destruct (for_each_elem _ state_le L v _ _
              ltac:(intros s y s' _ Hy; by apply rewire_node_le in Hy as [? _])
              Hv _ _ H) as (s1 & s2 & _ & Hround & Hle2).
  apply Hle2. by apply rewire_node_le in Hround as [_ ?].
Qed.

(** When every upstream dependency that was not reached is a declared
    input, or belongs to a node that is not a step and is a string on which
    [urldefrag] returns, the pass raises nothing and leaves the rewire table
    as it is. *)
Definition quiet_at (v : nodeid) : Prop :=
  ∃ nv, nodes !! v = Some nv ∧
    (type nv = Some STEP ∨ type nv = Some OUTPUT →
     ∀ u, u ∈ up nv →
       u ∈ visited_down ∨
       ∃ nu, nodes !! u = Some nu ∧
         (type nu = Some INPUT ∨
          (type nv ≠ Some STEP ∧ ∃ us rn, u = Id us ∧ flatten_id urldefrag us = Ok rn))).

Lemma rewire_node_quiet (st : rewire_state) (v : nodeid) :
  quiet_at v →
  ∃ st', rewire_node urldefrag wsteps nodes visited_down st v = Ok st' ∧ st'.2 = st.2.
Proof.
  intros (nv & Hnv & Hq). unfold rewire_node. rewrite Hnv.
  destruct (decide _) as [Hty|]; [|by eexists].
  apply (for_each_progress _ (λ s, s.2 = st.2)); [|done].
  intros s u Hu Hs. unfold rewire_up.
  destruct (decide (u ∈ visited_down)); [by eexists|].
  destruct (Hq Hty u Hu) as [?|(nu & -> & Hnu)]; [done|].
  destruct (decide (type nu = Some INPUT)); [by eexists|].
  destruct Hnu as [?|(Hns & us & rn & -> & ->)]; [done|]. simpl.
  rewrite decide_False by done. by eexists.
Qed.

Lemma rewire_pass_quiet (L : list nodeid) :
  (∀ v, v ∈ L → quiet_at v) →
  ∃ F', for_each (rewire_node urldefrag wsteps nodes visited_down) L (∅, []) = Ok (F', []).
Proof.
  intros Hq.
  destruct (for_each_progress (rewire_node urldefrag wsteps nodes visited_down)
              (λ s, s.2 = []) L) with (st := (∅ : gset nodeid, [] : rewire_table))
    as ([F' rw'] & H & Hrw); [|done|].
  - intros s v Hv Hs. destruct (rewire_node_quiet s v (Hq v Hv)) as (s' & Hs' & Heq).
    exists s'. split; [done|]. by rewrite Heq.
  - simpl in Hrw. subst rw'. by exists F'.
Qed.

(** When the pass has returned, an unreached upstream dependency of a
    listed step or output that is not an input is a string identifier, on
    which [urldefrag] has returned. *)
Lemma rewire_pass_string (L : list nodeid) (st : rewire_state)
    (v u : nodeid) (nv nu : _Node) :
  for_each (rewire_node urldefrag wsteps nodes visited_down) L (∅, []) = Ok st →
  v ∈ L → nodes !! v = Some nv → type nv = Some STEP ∨ type nv = Some OUTPUT →
  u ∈ up nv → u ∉ visited_down → nodes !! u = Some nu → type nu ≠ Some INPUT →
  ∃ us rn, u = Id us ∧ flatten_id urldefrag us = Ok rn.
Proof.
  intros H Hv Hnv Hty Hu Hnot Hnu Hni.
  destruct (for_each_elem _ state_le L v _ _
              ltac:(intros s y s' _ Hy; by apply rewire_node_le in Hy as [? _])
              Hv _ _ H) as (s1 & s2 & _ & Hround & _).
  unfold rewire_node in Hround. rewrite Hnv in Hround.
  rewrite decide_True in Hround by done.
  destruct (for_each_elem _ state_le (up nv) u _ _
              ltac:(intros s y s' _ Hy; by apply rewire_up_le in Hy)
              Hu _ _ Hround) as (t1 & t2 & _ & Hup & _).
  apply rewire_up_cases in Hup
    as [[? _]|(_ & nu' & Hnu' & [[Hin _]|(_ & us & rn & -> & Hrn & _)])];
    [done| |by eexists _, _].
  rewrite Hnu in Hnu'. by injection Hnu' as <-.
Qed.

End rewire_pass.

(** ** The extracted document *)

(** What a successful [get_subgraph] went through. *)
Lemma get_subgraph_Ok (urldefrag : urldefrag_fn) (set_iter : gset nodeid → list nodeid) (roots : list string)
    (tool : Workflow) (d' : Doc) :
  get_subgraph urldefrag set_iter roots tool = Ok d' →
  ∃ visited_down visited rewire,
    reach (build_nodes (wf_tool tool)) roots = Ok visited_down ∧
    rewire_pass urldefrag set_iter (wf_steps tool) (build_nodes (wf_tool tool)) visited_down
      = Ok (visited, rewire) ∧
    d' = extract (wf_tool tool) visited rewire.
Proof.
  unfold get_subgraph. intros H.
  destruct (field_get "class" _) as [cls|]; [|done].
  destruct (is_workflow_class cls); [|done].
  destruct (reach _ roots) as [vd|] eqn:Hvd; [|done]. simpl in H.
  destruct (rewire_pass _ _ _ _ vd) as [[visited rewire]|] eqn:Hrw; [|done].
  simpl in H. injection H as <-. by exists vd, visited, rewire.
Qed.

Lemma rewire_port_replaced (rewire : rewire_table) (u rn : string) (ty : value) (p : InPort) :
  field_get u rewire = Some (rn, ty) →
  source_replaced rewire u rn p (rewire_port rewire p).
Proof.
  intros Hu. destruct (rewire_port_rewritten rewire p) as (_ & _ & _ & _ & Hp).
  split.
  - intros Hs. rewrite Hs in Hp. by rewrite Hu in Hp.
  - intros l Hs. rewrite Hs in Hp. destruct Hp as (l' & Hl' & HF).
    exists l'. split; [done|]. eapply Forall2_impl; [done|].
    intros s r [ty' Hr] ->. congruence.
Qed.

(** C1, as the code has it.  Let [get_subgraph] return [d'].  Its inputs
    are the retained inputs of the document followed by one new record per
    entry of the rewire table.  For every dangling dependency [u] of a
    reached node [v] of kind [STEP] (so [u] is upstream of [v], was not
    reached, and is not an input): [find_step] has located [v],
    [urldefrag] has returned a pair [df] on [u], and if a port of the
    located step has a [source] that holds [u], then
    - the table has exactly one entry for [u], with as new identifier the
      URL part of [df], then ['#'], then the fragment of [df] with every
      ['/'] turned into ['_'], so exactly one of the appended records was
      made for [u], and it has that identifier;
    - in every step of [d'], every reference to [u] in a [source] has been
      replaced by that identifier.
    Nothing is appended for a dangling dependency of a node of kind [OUTPUT],
    nor for one that no port of the located step holds. *)
Theorem get_subgraph_rewires_dangling (urldefrag : urldefrag_fn)
    (set_iter : gset nodeid → list nodeid)
    (roots : list string) (tool : Workflow) (d' : Doc) :
  (∀ s x, x ∈ set_iter s ↔ x ∈ s) →
  get_subgraph urldefrag set_iter roots tool = Ok d' →
  ∃ visited_down visited rewire,
    reach (build_nodes (wf_tool tool)) roots = Ok visited_down ∧
    rewire_pass urldefrag set_iter (wf_steps tool) (build_nodes (wf_tool tool)) visited_down
      = Ok (visited, rewire) ∧
    doc_inputs d' =
      filter (λ i, Id (inp_id i) ∈ visited) (doc_inputs (wf_tool tool))
        ++ (new_input <$> rewire.*2) ∧
    (∀ u rv, (u, rv) ∈ rewire →
       ∃ v nv, dangling (build_nodes (wf_tool tool)) visited_down (Id v) (Id u) ∧
         build_nodes (wf_tool tool) !! Id v = Some nv ∧ type nv = Some STEP) ∧
    ∀ v u nv,
      dangling (build_nodes (wf_tool tool)) visited_down (Id v) (Id u) →
      build_nodes (wf_tool tool) !! Id v = Some nv → type nv = Some STEP →
      ∃ w df rn, find_step (wf_steps tool) v = Some w ∧
        urldefrag u = Ok df ∧
        rn = df.1 +:+ "#" +:+ Str.replace "/" "_" df.2 ∧
        (has_port_for w u →
         ∃ pre post ty,
           rewire = pre ++ (u, (rn, ty)) :: post ∧
           u ∉ pre.*1 ∧ u ∉ post.*1 ∧
           doc_inputs d' =
             filter (λ i, Id (inp_id i) ∈ visited) (doc_inputs (wf_tool tool))
               ++ (new_input <$> pre.*2)
               ++ mkInputRec rn [("type", ty)] :: (new_input <$> post.*2) ∧
           Forall2
             (λ i i', st_id i' = st_id i ∧
                Forall2 (source_replaced rewire u rn) (st_in i) (st_in i'))
             (filter (λ i, Id (st_id i) ∈ visited) (doc_steps (wf_tool tool)))
             (doc_steps d')).
Proof.
  intros Hiter (V & visited & rewire & HV & Hrw & ->)%get_subgraph_Ok.
  exists V, visited, rewire. split; [done|]. split; [done|]. split; [done|].
  unfold rewire_pass in Hrw.
  destruct (rewire_pass_sound _ _ _ _ _ _ Hrw) as (_ & Hnd & Hent). simpl in Hnd, Hent.
  split.
  { intros u rv Hin. destruct (Hent u rv Hin)
      as (_ & Hu & vs & nv & nu & w & p & s & Hvs & Hnv & Hty & Hup & Hnu & Hni & _).
    exists vs, nv. split; [|done]. split; [by apply Hiter|]. split; [done|].
    by exists nv, nu. }
  intros v u nv (Hv & Hu & nv' & nu & Hnv' & Hup & Hnu & Hni) Hnv Hty.
  rewrite Hnv in Hnv'. injection Hnv' as <-.
  destruct (rewire_pass_complete _ _ _ _ _ _ (Id v) (Id u) nv nu Hrw)
    as (_ & _ & Hc); [by apply Hiter|done|by left|done..|].
  destruct (Hc Hni Hty) as (vs & us & w & [= <-] & [= <-] & Hw & Hkeys).
  destruct (rewire_pass_string _ _ _ _ _ _ (Id v) (Id u) nv nu Hrw)
    as (us & rn & [= <-] & Hrn); [by apply Hiter|done|by left|done..|].
  destruct (proj1 (flatten_id_Ok urldefrag u rn) Hrn) as (df & Hdf & Hrn').
  exists w, df, rn. split; [done|]. split; [done|]. split; [done|].
  intros Hport. simpl in Hkeys.
  apply Hkeys, field_get_is_Some in Hport as [[rn' ty] Hget].
  assert (rn' = rn) as ->.
  { destruct (Hent u (rn', ty) (field_get_Some_elem _ _ _ Hget)) as [Hrn2 _].
    simpl in Hrn2. congruence. }
  destruct (field_get_split u _ rewire Hnd Hget) as (pre & post & Hsplit & Hpre & Hpost).
  exists pre, post, ty. split; [done|]. split; [done|]. split; [done|]. split.
  - simpl. rewrite Hsplit. by rewrite !fmap_app, !fmap_cons.
  - simpl. apply Forall2_fmap_r, Forall_Forall2_diag, Forall_forall. intros i _.
    split; [done|]. simpl.
    apply Forall2_fmap_r, Forall_Forall2_diag, Forall_forall. intros p _.
    by eapply rewire_port_replaced.
Qed.

Lemma elements_iter (s : gset nodeid) (x : nodeid) : x ∈ elements s ↔ x ∈ s.
Proof. apply elem_of_elements. Qed.

Lemma get_subgraph_rewires_dangling_witness :
  ∃ visited_down visited rewire,
    reach (build_nodes Examples.merge_doc) ["wf#B"] = Ok visited_down ∧
    rewire_pass Examples.urldefrag elements (wf_steps Examples.merge_wf)
      (build_nodes Examples.merge_doc) visited_down = Ok (visited, rewire) ∧
    doc_inputs Examples.merge_from_B =
      filter (λ i, Id (inp_id i) ∈ visited) (doc_inputs Examples.merge_doc)
        ++ (new_input <$> rewire.*2) ∧
    (∀ u rv, (u, rv) ∈ rewire →
       ∃ v nv, dangling (build_nodes Examples.merge_doc) visited_down (Id v) (Id u) ∧
         build_nodes Examples.merge_doc !! Id v = Some nv ∧ type nv = Some STEP) ∧
    ∀ v u nv,
      dangling (build_nodes Examples.merge_doc) visited_down (Id v) (Id u) →
      build_nodes Examples.merge_doc !! Id v = Some nv → type nv = Some STEP →
      ∃ w df rn, find_step (wf_steps Examples.merge_wf) v = Some w ∧
        Examples.urldefrag u = Ok df ∧
        rn = df.1 +:+ "#" +:+ Str.replace "/" "_" df.2 ∧
        (has_port_for w u →
         ∃ pre post ty,
           rewire = pre ++ (u, (rn, ty)) :: post ∧
           u ∉ pre.*1 ∧ u ∉ post.*1 ∧
           doc_inputs Examples.merge_from_B =
             filter (λ i, Id (inp_id i) ∈ visited) (doc_inputs Examples.merge_doc)
               ++ (new_input <$> pre.*2)
               ++ mkInputRec rn [("type", ty)] :: (new_input <$> post.*2) ∧
           Forall2
             (λ i i', st_id i' = st_id i ∧
                Forall2 (source_replaced rewire u rn) (st_in i) (st_in i'))
             (filter (λ i, Id (st_id i) ∈ visited) (doc_steps Examples.merge_doc))
             (doc_steps Examples.merge_from_B)).
Proof.
  apply (get_subgraph_rewires_dangling Examples.urldefrag elements ["wf#B"]
           Examples.merge_wf Examples.merge_from_B elements_iter).
  vm_compute. reflexivity.
Defined.

(** C1 as stated fails for a dangling dependency of an output.  Extracting
    from root [B]: output [O] is reached, its upstream [wf#D/o] is not and is
    not an input, and the returned document has no input [wf#D_o] (nor is the
    [outputSource] of [O] rewritten). *)
Lemma dangling_of_output_gets_no_input :
  ∃ visited_down nv,
    reach (build_nodes Examples.merge_doc) ["wf#B"] = Ok visited_down ∧
    dangling (build_nodes Examples.merge_doc) visited_down (Id "wf#O") (Id "wf#D/o") ∧
    build_nodes Examples.merge_doc !! Id "wf#O" = Some nv ∧ type nv = Some OUTPUT ∧
    get_subgraph Examples.urldefrag elements ["wf#B"] Examples.merge_wf = Ok Examples.merge_from_B ∧
    flatten_id Examples.urldefrag "wf#D/o" = Ok "wf#D_o" ∧
    ¬ ∃ i, i ∈ doc_inputs Examples.merge_from_B ∧ inp_id i = "wf#D_o".
Proof.
  eexists _, _. split; [vm_compute; reflexivity|]. split; [|split; [reflexivity|]].
  - split; [by vm_compute|]. split; [vm_compute; intros H; discriminate H|].
    eexists _, _. split; [reflexivity|]. split; [by right; left|].
    split; [reflexivity|done].
  - split; [done|]. split; [vm_compute; reflexivity|]. split; [done|].
    intros (i & ->%list_elem_of_singleton & Hi). done.
Qed.

(** ** Declared inputs of retained steps and outputs *)

Lemma doc_kind_input (d : Doc) (k : string) :
  doc_kind d (Id k) = Some INPUT ↔ k ∈ input_ids d.
Proof.
  unfold doc_kind. destruct (decide (k ∈ input_ids d)); [done|].
  split; [|done]. by repeat destruct (decide _).
Qed.







(** The condition on the identifiers is needed.  When a step has the
    identifier of a declared input, the registry keeps kind [INPUT] for it,
    the pass does not look at what it depends on, and the step comes back
    without the input [wf#y] that it reads. *)
Lemma clash_step_loses_its_input :
  ∃ d' st',
    get_subgraph Examples.urldefrag elements ["wf#x"] Examples.clash_wf = Ok d' ∧
    mkInputRec "wf#y" [("type", VStr "File")] ∈ doc_inputs Examples.clash_doc ∧
    st' ∈ doc_steps d' ∧ "wf#y" ∈ step_sources st' ∧
    ¬ ∃ i, i ∈ doc_inputs d' ∧ inp_id i = "wf#y".
Proof.
  eexists _, _. split; [vm_compute; reflexivity|]. split; [by right; left|].
  split; [by left|]. split; [by left|].
  intros (i & ->%list_elem_of_singleton & Hi). done.
Qed.

(** ** Walks in two registries *)

Lemma walk_start (nodes : registry) (dir : direction) (vis : gset nodeid) (x z : nodeid) :
  walk nodes dir vis x z → x ∉ vis.
Proof. by destruct 1. Qed.

Lemma walk_end (nodes : registry) (dir : direction) (vis : gset nodeid) (x z : nodeid) :
  walk nodes dir vis x z → z ∉ vis.
Proof. by induction 1. Qed.

Lemma walk_snoc (nodes : registry) (dir : direction) (vis : gset nodeid) (r x y : nodeid) :
  walk nodes dir vis r x → y ∈ edges nodes dir x → y ∉ vis → walk nodes dir vis r y.
Proof.
  intros Hw Hy Hvis. induction Hw as [x Hx|x x' z Hx Hx' _ IH].
  - eapply walk_step; [done..|by apply walk_here].
  - eapply walk_step; [done..|by apply IH].
Qed.

(** Every edge out of a node reached in the first registry is an edge of
    the second. *)
Lemma walk_transfer_from (nodes1 nodes2 : registry) (dir : direction)
    (vis : gset nodeid) (r : nodeid) :
  (∀ x y, walk nodes1 dir vis r x → walk nodes1 dir vis r y →
          y ∈ edges nodes1 dir x → y ∈ edges nodes2 dir x) →
  ∀ z, walk nodes1 dir vis r z → walk nodes2 dir vis r z.
Proof.
  intros Hedge z Hw.
  assert (Hgen : ∀ x z, walk nodes1 dir vis x z → walk nodes1 dir vis r x →
                        walk nodes2 dir vis x z).
  { clear z Hw. intros x z Hw. induction Hw as [x Hx|x y z Hx Hy Hw IH]; intros Hr.
    - by apply walk_here.
    - assert (Hry : walk nodes1 dir vis r y).
      { eapply walk_snoc; [done..|]. by eapply walk_start. }
      eapply walk_step; [done| |by apply IH]. by apply Hedge. }
  apply Hgen; [done|]. apply walk_here. by eapply walk_start.
Qed.

(** Every edge of the first registry out of a node reached in the second is
    an edge of the second. *)
Lemma walk_transfer_to (nodes1 nodes2 : registry) (dir : direction)
    (vis : gset nodeid) (r : nodeid) :
  (∀ x y, walk nodes2 dir vis r x → y ∉ vis →
          y ∈ edges nodes1 dir x → y ∈ edges nodes2 dir x) →
  ∀ z, walk nodes1 dir vis r z → walk nodes2 dir vis r z.
Proof.
  intros Hedge z Hw.
  assert (Hgen : ∀ x z, walk nodes1 dir vis x z → walk nodes2 dir vis r x →
                        walk nodes2 dir vis r z).
  { clear z Hw. intros x z Hw. induction Hw as [x Hx|x y z Hx Hy Hw IH]; intros Hr; [done|].
    apply IH. eapply walk_snoc; [done| |by eapply walk_start].
    apply Hedge; [done|by eapply walk_start|done]. }
  apply (Hgen r); [done|]. apply walk_here. by eapply walk_start.
Qed.

(** ** One root, all roots *)

(** The direction line 154 takes for a root whose node is [n]. *)
Lemma visit_root_spec (d : Doc) (vis : gset nodeid) (r : string) (n : _Node) :
  build_nodes d !! Id r = Some n →
  ∃ R, visit_root (build_nodes d) vis r = Ok R ∧
    ∀ z, z ∈ R ↔
      z ∈ vis ∨
      walk (build_nodes d) (if decide (type n = Some OUTPUT) then UP else DOWN) vis (Id r) z.
Proof.
  intros Hn. destruct (visit_root_total d vis r) as [R HR]; [by eauto|].
  exists R. split; [done|]. unfold visit_root in HR. rewrite Hn in HR.
  destruct (decide _); by eapply visit_spec.
Qed.

Lemma visit_root_inv (nodes : registry) (vis R : gset nodeid) (r : string) :
  visit_root nodes vis r = Ok R → is_Some (nodes !! Id r).
Proof. unfold visit_root. destruct (nodes !! Id r); [eauto|done]. Qed.

Lemma walk_registered (d : Doc) (dir : direction) (vis : gset nodeid) (x z : nodeid) :
  walk (build_nodes d) dir vis x z → x ∈ doc_ids d → z ∈ doc_ids d.
Proof.
  induction 1 as [x Hx|x y z Hx Hy _ IH]; [done|]. intros _. apply IH.
  apply edges_build_nodes in Hy. destruct dir; by apply feeds_ids in Hy as [? ?].
Qed.

Lemma visit_root_grows (d : Doc) (vis R : gset nodeid) (r : string) :
  visit_root (build_nodes d) vis r = Ok R →
  vis ⊆ R ∧ Id r ∈ R ∧ ∀ x, x ∈ R → x ∈ vis ∨ x ∈ doc_ids d.
Proof.
  intros HR. destruct (visit_root_inv _ _ _ _ HR) as [n Hn].
  destruct (visit_root_spec d vis r n Hn) as (R' & HR' & Hspec).
  rewrite HR in HR'. injection HR' as <-.
  split; [intros x Hx; apply Hspec; by left|]. split.
  - apply Hspec. destruct (decide (Id r ∈ vis)); [by left|right; by apply walk_here].
  - intros x [?|Hw]%Hspec; [by left|right].
    eapply walk_registered; [done|]. apply build_nodes_dom. eauto.
Qed.

Lemma reach_grows (d : Doc) (roots : list string) (vis R : gset nodeid) :
  for_each (visit_root (build_nodes d)) roots vis = Ok R →
  vis ⊆ R ∧ ∀ x, x ∈ R → x ∈ vis ∨ x ∈ doc_ids d.
Proof.
  revert vis. induction roots as [|r roots IH]; intros vis H; simpl in H.
  - injection H as <-. split; [done|]. by left.
  - destruct (visit_root (build_nodes d) vis r) as [R1|] eqn:H1; [|done]. simpl in H.
    destruct (visit_root_grows d _ _ _ H1) as (Hs1 & _ & Hr1).
    destruct (IH _ H) as (Hs2 & Hr2). split; [set_solver|].
    intros x [Hx|?]%Hr2; [by apply Hr1|by right].
Qed.

(** Two documents whose registries agree on the kind of the roots and on
    the edges met by the traversal are traversed alike. *)
Lemma reach_same (d d' : Doc) (V : gset nodeid) :
  (∀ r n n', Id r ∈ V → build_nodes d !! Id r = Some n → build_nodes d' !! Id r = Some n' →
     (type n = Some OUTPUT ↔ type n' = Some OUTPUT)) →
  (∀ dir x y, x ∈ V → y ∈ V →
     y ∈ edges (build_nodes d) dir x → y ∈ edges (build_nodes d') dir x) →
  (∀ dir vis r x y, vis ⊆ V → x ∈ V →
     (∀ z, walk (build_nodes d) dir vis r z → z ∈ V) →
     walk (build_nodes d) dir vis r x → y ∉ vis →
     y ∈ edges (build_nodes d') dir x → y ∈ edges (build_nodes d) dir x) →
  ∀ roots vis R,
    for_each (visit_root (build_nodes d)) roots vis = Ok R → R ⊆ V →
    (∀ r, r ∈ roots → Id r ∈ doc_ids d') →
    for_each (visit_root (build_nodes d')) roots vis = Ok R.
Proof.
  intros Hkind Hfwd Hbwd roots. induction roots as [|r roots IH]; intros vis R H HRV Hreg;
    simpl in H; [done|].
  destruct (visit_root (build_nodes d) vis r) as [R1|] eqn:H1; [|done]. simpl in H.
  destruct (reach_grows d _ _ _ H) as [HR1 _].
  destruct (visit_root_grows d _ _ _ H1) as (Hvis & Hr & _).
  destruct (visit_root_inv _ _ _ _ H1) as [n Hn].
  assert (is_Some (build_nodes d' !! Id r)) as [n' Hn'].
  { apply build_nodes_dom, Hreg. by left. }
  destruct (visit_root_spec d vis r n Hn) as (R1a & HR1a & Hspec).
  rewrite H1 in HR1a. injection HR1a as <-.
  destruct (visit_root_spec d' vis r n' Hn') as (R1' & HR1' & Hspec').
  assert (R1' = R1) as ->.
  { assert (Hdir : (if decide (type n' = Some OUTPUT) then UP else DOWN)
                 = (if decide (type n = Some OUTPUT) then UP else DOWN)).
    { assert (Hk := Hkind r n n' ltac:(set_solver) Hn Hn').
      destruct (decide (type n = Some OUTPUT)), (decide (type n' = Some OUTPUT)); tauto. }
    rewrite Hdir in Hspec'. set (dir := if decide (type n = Some OUTPUT) then UP else DOWN) in *.
    assert (HW : ∀ z, walk (build_nodes d) dir vis (Id r) z → z ∈ V).
    { intros z Hz. apply HRV, HR1, Hspec. by right. }
    apply set_eq. intros z. rewrite Hspec, Hspec'. apply or_iff_both; [done|]. split.
    - apply walk_transfer_to. intros x y Hx Hy Hedge.
      eapply Hbwd; [| |done|done|done|done]; [set_solver|by apply HW].
    - apply walk_transfer_from. intros x y Hx Hy Hedge. apply Hfwd; [by apply HW..|done]. }
  simpl. rewrite HR1'. simpl. apply IH; [done..|]. intros r' Hr'. apply Hreg. by right.
Qed.

(** ** The registry of an extracted document *)

Section extracted.

Variable d : Doc.
Variable F : gset nodeid.
Variable rewire : rewire_table.

Lemma input_ids_extract (x : string) :
  x ∈ input_ids (extract d F rewire) ↔
  (x ∈ input_ids d ∧ Id x ∈ F) ∨ ∃ rv, rv ∈ rewire.*2 ∧ x = rv.1.
Proof.
  unfold input_ids. simpl. rewrite fmap_app, elem_of_app. apply or_iff_both.
  - rewrite !list_elem_of_fmap. split.
    + intros (i & -> & [Hi Hin]%list_elem_of_filter). split; [by exists i|done].
    + intros [(i & -> & Hi) HF]. exists i. split; [done|]. by apply list_elem_of_filter.
  - rewrite list_elem_of_fmap. split.
    + intros (i & -> & (rv & -> & Hrv)%list_elem_of_fmap). by exists rv.
    + intros (rv & Hrv & ->). exists (new_input rv). split; [done|].
      by apply list_elem_of_fmap_2.
Qed.

Lemma output_ids_extract (x : string) :
  x ∈ output_ids (extract d F rewire) ↔ x ∈ output_ids d ∧ Id x ∈ F.
Proof.
  unfold output_ids. simpl. rewrite !list_elem_of_fmap. split.
  - intros (o & -> & [Ho Hin]%list_elem_of_filter). split; [|done]. by exists o.
  - intros [(o & -> & Ho) HF]. exists o. split; [done|]. by apply list_elem_of_filter.
Qed.

Lemma step_ids_extract (x : string) :
  x ∈ step_ids (extract d F rewire) ↔ x ∈ step_ids d ∧ Id x ∈ F.
Proof.
  unfold step_ids. simpl. rewrite <- list_fmap_compose, !list_elem_of_fmap. split.
  - intros (st & -> & [Hst Hin]%list_elem_of_filter). split; [|done]. by exists st.
  - intros [(st & -> & Hst) HF]. exists st. split; [done|]. by apply list_elem_of_filter.
Qed.

Lemma elem_of_steps_extract (st' : StepRec) :
  st' ∈ doc_steps (extract d F rewire) ↔
  ∃ st, st ∈ doc_steps d ∧ Id (st_id st) ∈ F ∧ st' = rewire_step rewire st.
Proof.
  simpl. rewrite list_elem_of_fmap. split.
  - intros (st & -> & [? ?]%list_elem_of_filter). by exists st.
  - intros (st & ? & ? & ->). exists st. split; [done|]. by apply list_elem_of_filter.
Qed.

Lemma scalar_sources_rewired (st : StepRec) :
  scalar_sources (rewire_step rewire st) → scalar_sources st.
Proof.
  intros Hsc p l Hp Hs. apply (Hsc (rewire_port rewire p) (omap (λ s, fst <$> field_get s rewire) l)).
  - simpl. by apply list_elem_of_fmap_2.
  - unfold rewire_port. by rewrite Hs.
Qed.

Lemma port_sources_scalar (p : InPort) :
  (∀ l, in_source p ≠ Some (Seq l)) →
  port_sources (rewire_port rewire p) = renamed rewire <$> port_sources p.
Proof.
  intros Hsc. unfold port_sources, rewire_port, renamed.
  destruct (in_source p) as [[s|l]|] eqn:Hs; simpl; [|by destruct (Hsc l)|by rewrite Hs].
  by destruct (field_get s rewire).
Qed.

Lemma step_sources_scalar (st : StepRec) :
  scalar_sources st →
  step_sources (rewire_step rewire st) = renamed rewire <$> step_sources st.
Proof.
  unfold step_sources, scalar_sources. simpl.
  induction (st_in st) as [|p ps IH]; intros Hsc; [done|].
  rewrite fmap_cons, !bind_cons, fmap_app, IH.
  - f_equal. apply port_sources_scalar. intros l. apply Hsc. by left.
  - intros q l Hq. apply Hsc. by right.
Qed.

Lemma rewire_step_scalar_nil (st : StepRec) :
  scalar_sources st → rewire_step [] st = st.
Proof.
  destruct st as [id ins outs fs]. unfold scalar_sources, rewire_step. simpl.
  intros Hsc. f_equal.
  induction ins as [|p ps IH]; [done|]. rewrite fmap_cons. f_equal.
  - unfold rewire_port. destruct p as [pid [[s|l]|] lm df pfs]; simpl; [done| |done].
    destruct (Hsc _ l ltac:(by left)). done.
  - apply IH. intros q l Hq. apply Hsc. by right.
Qed.

(** The retained steps have scalar sources only. *)
Hypothesis scalar : ∀ st, st ∈ doc_steps (extract d F rewire) → scalar_sources st.

Lemma retained_scalar (st : StepRec) :
  st ∈ doc_steps d → Id (st_id st) ∈ F → scalar_sources st.
Proof.
  intros Hst HF. apply scalar_sources_rewired, scalar, elem_of_steps_extract. by exists st.
Qed.

(** The dependencies of the extracted document. *)
Lemma feeds_extract (x k : nodeid) :
  feeds (extract d F rewire) x k ↔
  (∃ o, o ∈ doc_outputs d ∧ Id (out_id o) ∈ F ∧ k = Id (out_id o) ∧ x ∈ output_sources o) ∨
  (∃ st s, st ∈ doc_steps d ∧ Id (st_id st) ∈ F ∧ k = Id (st_id st) ∧
     s ∈ step_sources st ∧ x = Id (renamed rewire s)) ∨
  (∃ st o, st ∈ doc_steps d ∧ Id (st_id st) ∈ F ∧ x = Id (st_id st) ∧
     o ∈ step_outs st ∧ k = Id o).
Proof.
  unfold feeds. apply or_iff_both; [|apply or_iff_both].
  - simpl. split.
    + intros (o & [HF Ho]%list_elem_of_filter & -> & Hx). by exists o.
    + intros (o & Ho & HF & -> & Hx). exists o. split; [by apply list_elem_of_filter|done].
  - split.
    + intros (st' & s' & (st & Hst & HF & ->)%elem_of_steps_extract & -> & Hs' & ->).
      rewrite step_sources_scalar in Hs' by by apply retained_scalar.
      apply list_elem_of_fmap in Hs' as (s & -> & Hs). by exists st, s.
    + intros (st & s & Hst & HF & -> & Hs & ->).
      exists (rewire_step rewire st), (renamed rewire s).
      split; [apply elem_of_steps_extract; by exists st|]. split; [done|]. split; [|done].
      rewrite step_sources_scalar by by apply retained_scalar.
      by apply list_elem_of_fmap_2.
  - split.
    + intros (st' & o & (st & Hst & HF & ->)%elem_of_steps_extract & -> & Ho & ->).
      by exists st, o.
    + intros (st & o & Hst & HF & -> & Ho & ->).
      exists (rewire_step rewire st), o.
      split; [apply elem_of_steps_extract; by exists st|done].
Qed.

End extracted.

(** ** Extracting a second time *)

Lemma filter_all {A} (P : A → Prop) `{!∀ x, Decision (P x)} (l : list A) :
  (∀ x, x ∈ l → P x) → filter P l = l.
Proof.
  induction l as [|x l IH]; intros Hall; [done|].
  rewrite filter_cons, decide_True by (apply Hall; by left).
  f_equal. apply IH. intros y Hy. apply Hall. by right.
Qed.

Section second_run.

Variable urldefrag : urldefrag_fn.
Variable set_iter : gset nodeid → list nodeid.
Hypothesis iter : ∀ s x, x ∈ set_iter s ↔ x ∈ s.

Variable d : Doc.
Variable wsteps : list WorkflowStep.
Variable V F : gset nodeid.
Variable rewire : rewire_table.

Hypothesis apart : kinds_apart d.
Hypothesis agree : ports_agree d wsteps.
Hypothesis V_registered : ∀ x, x ∈ V → x ∈ doc_ids d.
Hypothesis first_pass : rewire_pass urldefrag set_iter wsteps (build_nodes d) V = Ok (F, rewire).
Hypothesis fresh : ∀ rv, rv ∈ rewire.*2 → Id rv.1 ∉ doc_ids d.
Hypothesis scalar : ∀ st, st ∈ doc_steps (extract d F rewire) → scalar_sources st.

Lemma V_sub_F (x : nodeid) : x ∈ V → x ∈ F.
Proof.
  intros Hx. apply (rewire_pass_listed _ _ _ _ _ _ x first_pass). by apply iter.
Qed.

Lemma F_cases (x : nodeid) :
  x ∈ F → x ∈ V ∨ ∃ k, x = Id k ∧ k ∈ input_ids d.
Proof.
  intros Hx. destruct (rewire_pass_sound _ _ _ _ _ _ first_pass) as (Hvis & _).
  destruct (Hvis x Hx) as [?|(_ & v & nv & nx & _ & _ & _ & _ & Hnx & Hty)]; [left; by apply iter|].
  right. rewrite (build_nodes_kind d _ _ Hnx) in Hty.
  destruct x as [k|]; [|done]. exists k. split; [done|]. by apply doc_kind_input.
Qed.

Lemma record_in_V (x : string) :
  x ∈ step_ids d ∨ x ∈ output_ids d → Id x ∈ F → Id x ∈ V.
Proof.
  intros Hso [?|(k & [= <-] & Hk)]%F_cases; [done|].
  destruct apart as [Ha _]. destruct (Ha x Hk). by destruct Hso.
Qed.

Lemma key_facts (u : string) (rv : string * value) :
  field_get u rewire = Some rv →
  (Id u ∉ V) ∧ (u ∉ input_ids d) ∧ rv ∈ rewire.*2.
Proof.
  intros Hget%field_get_Some_elem.
  destruct (rewire_pass_sound _ _ _ _ _ _ first_pass) as (_ & _ & Hent).
  destruct (Hent u rv Hget) as (_ & HuV & vs & nv & nu & w & p & s & _ & _ & _ & _ & Hnu & Hni & _).
  split; [done|]. split.
  - intros Hin%doc_kind_input. by rewrite <- (build_nodes_kind d _ _ Hnu) in Hin.
  - apply list_elem_of_fmap. by exists (u, rv).
Qed.

Lemma renamed_in_V (s : string) : Id s ∈ V → renamed rewire s = s.
Proof.
  intros Hs. unfold renamed. destruct (field_get s rewire) as [rv|] eqn:Hget; [|done].
  by destruct (key_facts s rv Hget) as [? _].
Qed.

Lemma renamed_input (s : string) : s ∈ input_ids d → renamed rewire s = s.
Proof.
  intros Hs. unfold renamed. destruct (field_get s rewire) as [rv|] eqn:Hget; [|done].
  by destruct (key_facts s rv Hget) as (_ & ? & _).
Qed.

Lemma renamed_cases (s : string) :
  renamed rewire s = s ∨ ∃ rv, field_get s rewire = Some rv ∧ renamed rewire s = rv.1.
Proof.
  unfold renamed. destruct (field_get s rewire) as [rv|]; [right; by exists rv|by left].
Qed.

(** *** Kinds in the extracted document *)

Lemma kind_retained (x : string) :
  Id x ∈ doc_ids d → Id x ∈ F →
  doc_kind (extract d F rewire) (Id x) = doc_kind d (Id x).
Proof.
  intros Hreg HF. unfold doc_kind.
  assert (H1 : x ∈ input_ids (extract d F rewire) ↔ x ∈ input_ids d).
  { rewrite input_ids_extract. split; [|by left].
    intros [[? _]|(rv & Hrv & ->)]; [done|]. by destruct (fresh rv Hrv). }
  assert (H2 : x ∈ output_ids (extract d F rewire) ↔ x ∈ output_ids d).
  { rewrite output_ids_extract. tauto. }
  assert (H3 : x ∈ step_ids (extract d F rewire) ↔ x ∈ step_ids d).
  { rewrite step_ids_extract. tauto. }
  repeat destruct (decide _); tauto.
Qed.

Lemma kind_new (rv : string * value) :
  rv ∈ rewire.*2 → doc_kind (extract d F rewire) (Id rv.1) = Some INPUT.
Proof.
  intros Hrv. apply doc_kind_input, input_ids_extract. right. by exists rv.
Qed.

(** *** Dependencies in the extracted document *)

Lemma feeds_fwd (x k : nodeid) :
  x ∈ V → k ∈ V → feeds d x k → feeds (extract d F rewire) x k.
Proof.
  intros Hx Hk Hf. apply feeds_extract; [done|].
  destruct Hf as [(o & Ho & -> & Hxo)|[(st & s & Hst & -> & Hs & ->)|(st & o & Hst & -> & Ho & ->)]].
  - left. exists o. split; [done|]. split; [by apply V_sub_F|done].
  - right; left. exists st, s. split; [done|]. split; [by apply V_sub_F|].
    split; [done|]. split; [done|]. by rewrite renamed_in_V.
  - right; right. exists st, o. split; [done|]. split; [by apply V_sub_F|done].
Qed.

Lemma feeds_bwd (x k : nodeid) :
  feeds (extract d F rewire) x k →
  feeds d x k ∨
  ∃ s rv, field_get s rewire = Some rv ∧ x = Id rv.1 ∧ feeds d (Id s) k.
Proof.
  intros Hf. apply (feeds_extract d F rewire scalar) in Hf.
  destruct Hf as [(o & Ho & HF & -> & Hxo)|[(st & s & Hst & HF & -> & Hs & ->)|(st & o & Hst & HF & -> & Ho & ->)]].
  - left. left. by exists o.
  - assert (Hf : feeds d (Id s) (Id (st_id st))) by (right; left; by exists st, s).
    destruct (renamed_cases s) as [->|(rv & Hget & ->)]; [by left|right]. by exists s, rv.
  - left. right; right. by exists st, o.
Qed.

Lemma edges_fwd (dir : direction) (x y : nodeid) :
  x ∈ V → y ∈ V →
  y ∈ edges (build_nodes d) dir x → y ∈ edges (build_nodes (extract d F rewire)) dir x.
Proof.
  intros Hx Hy. rewrite !edges_build_nodes. destruct dir; by apply feeds_fwd.
Qed.

Lemma edges_bwd (dir : direction) (vis : gset nodeid) (r x y : nodeid) :
  vis ⊆ V → x ∈ V →
  (∀ z, walk (build_nodes d) dir vis r z → z ∈ V) →
  walk (build_nodes d) dir vis r x → y ∉ vis →
  y ∈ edges (build_nodes (extract d F rewire)) dir x → y ∈ edges (build_nodes d) dir x.
Proof.
  intros Hvis Hx HW Hwx Hy. rewrite !edges_build_nodes. destruct dir.
  - intros [?|(s & rv & Hget & -> & Hf)]%feeds_bwd; [done|].
    destruct (key_facts s rv Hget) as (HsV & _). exfalso. apply HsV, HW.
    apply (walk_snoc _ _ _ _ x); [exact Hwx|by apply edges_build_nodes|].
    intros Hin. apply HsV. by apply Hvis.
  - intros [?|(s & rv & Hget & -> & Hf)]%feeds_bwd; [done|].
    destruct (key_facts s rv Hget) as (_ & _ & Hrv). destruct (fresh rv Hrv).
    by apply V_registered.
Qed.

Lemma reach_second (roots : list string) :
  reach (build_nodes d) roots = Ok V →
  (∀ r, r ∈ roots → Id r ∈ doc_ids (extract d F rewire)) →
  reach (build_nodes (extract d F rewire)) roots = Ok V.
Proof.
  intros HV Hreg. unfold reach in *.
  apply (reach_same d (extract d F rewire) V); [| | |exact HV|done|exact Hreg].
  - intros r n n' Hr Hn Hn'.
    rewrite (build_nodes_kind _ _ _ Hn), (build_nodes_kind _ _ _ Hn').
    rewrite kind_retained; [done|by apply V_registered|by apply V_sub_F].
  - apply edges_fwd.
  - apply edges_bwd.
Qed.

(** *** The second pass *)

Lemma not_key_renamed (s : string) :
  (field_get s rewire = None ∧ renamed rewire s = s) ∨
  ∃ rv, field_get s rewire = Some rv ∧ renamed rewire s = rv.1.
Proof.
  unfold renamed. destruct (field_get s rewire) as [rv|]; [right; by exists rv|by left].
Qed.

Lemma kind_step_record (x : string) :
  doc_kind d (Id x) = Some STEP → x ∈ step_ids d ∧ x ∉ output_ids d ∧ x ∉ input_ids d.
Proof. unfold doc_kind. by repeat destruct (decide _). Qed.

Lemma kind_not_none (v : nodeid) (dd : Doc) :
  doc_kind dd v = Some STEP ∨ doc_kind dd v = Some OUTPUT → ∃ x, v = Id x.
Proof. destruct v; [by eexists|]. by intros [?|?]. Qed.

(** An unreached upstream dependency of a reached step or output of the
    first run: kept if it is an input, a string otherwise, and rewired if it
    belongs to a step. *)
Lemma first_run_upstream (x : string) (u : nodeid) (nv nu : _Node) :
  Id x ∈ V → build_nodes d !! Id x = Some nv →
  type nv = Some STEP ∨ type nv = Some OUTPUT →
  feeds d u (Id x) → u ∉ V → build_nodes d !! u = Some nu →
  (type nu = Some INPUT ∧ u ∈ F) ∨
  (type nu ≠ Some INPUT ∧ ∃ us rn, u = Id us ∧ flatten_id urldefrag us = Ok rn ∧
     (type nv = Some STEP →
      ∃ w, find_step wsteps x = Some w ∧ (has_port_for w us → us ∈ rewire.*1))).
Proof.
  intros Hx Hnv Hty Hf Hu Hnu.
  assert (Hup : u ∈ up nv) by by apply (build_nodes_edges d _ _ Hnv).
  assert (HL : Id x ∈ set_iter V) by by apply iter.
  destruct (rewire_pass_complete _ _ _ _ _ _ (Id x) u nv nu first_pass HL Hnv Hty Hup Hu Hnu)
    as (_ & Hin & Hst).
  destruct (decide (type nu = Some INPUT)) as [Hi|Hi]; [left; by auto|right].
  split; [done|].
  destruct (rewire_pass_string _ _ _ _ _ _ (Id x) u nv nu first_pass HL Hnv Hty Hup Hu Hnu Hi)
    as (us & rn & -> & Hrn).
  exists us, rn. split; [done|]. split; [done|]. intros Hs.
  destruct (Hst Hi Hs) as (vs & us' & w & [= <-] & [= <-] & Hw & Hk). by exists w.
Qed.

Lemma second_quiet (v : nodeid) :
  v ∈ V → v ∈ doc_ids (extract d F rewire) →
  quiet_at urldefrag (build_nodes (extract d F rewire)) V v.
Proof.
  intros Hv Hreg'. apply build_nodes_dom in Hreg' as [nv' Hnv']. exists nv'. split; [done|].
  assert (Hk' := build_nodes_kind _ _ _ Hnv'). rewrite Hk'. intros Hty u Hu.
  destruct (kind_not_none _ _ Hty) as [x ->].
  assert (Hreg := V_registered _ Hv). assert (HvF := V_sub_F _ Hv).
  rewrite kind_retained in Hty, Hk' by done.
  destruct (proj2 (build_nodes_dom d (Id x)) Hreg) as [nv Hnv].
  assert (Hk := build_nodes_kind _ _ _ Hnv).
  apply (build_nodes_edges _ _ _ Hnv') in Hu.
  destruct (decide (u ∈ V)) as [|HuV]; [by left|right].
  destruct (feeds_ids _ _ _ Hu) as [Hureg' _].
  apply build_nodes_dom in Hureg' as [nu' Hnu']. exists nu'. split; [done|].
  rewrite (build_nodes_kind _ _ _ Hnu'), (kind_retained x) by done.
  assert (Hold : ∀ nu, feeds d u (Id x) → build_nodes d !! u = Some nu →
            (type nu = Some INPUT → doc_kind (extract d F rewire) u = Some INPUT) ∧
            (type nu ≠ Some INPUT → ∃ us rn, u = Id us ∧ flatten_id urldefrag us = Ok rn ∧
               (doc_kind d (Id x) = Some STEP →
                ∃ w, find_step wsteps x = Some w ∧ (has_port_for w us → us ∈ rewire.*1)))).
  { intros nu Hf Hnu.
    destruct (first_run_upstream x u nv nu Hv Hnv ltac:(by rewrite Hk) Hf HuV Hnu)
      as [[Hi HuF]|(Hi & us & rn & -> & Hrn & Hst)].
    - split; [|done]. intros _. rewrite (build_nodes_kind _ _ _ Hnu) in Hi.
      destruct u as [k|]; [|done]. rewrite kind_retained; [done| |done].
      apply build_nodes_dom. eauto.
    - split; [done|]. intros _. exists us, rn. split; [done|]. split; [done|].
      by rewrite <- Hk. }
  apply (feeds_extract d F rewire scalar) in Hu.
  destruct Hu as [(o & Ho & HF & [= ->] & Hxo)|[(st & s & Hst & HF & [= ->] & Hs & ->)|(st & o & Hst & HF & -> & Ho & [= ->])]].
  - assert (Hf : feeds d u (Id (out_id o))) by (left; by exists o).
    destruct (feeds_ids _ _ _ Hf) as [[nu Hnu]%build_nodes_dom _].
    destruct (Hold nu Hf Hnu) as [Hin Hnin].
    destruct (decide (type nu = Some INPUT)) as [Hi|Hi]; [left; by apply Hin|right].
    destruct (Hnin Hi) as (us & rn & -> & Hrn & _). split; [|by eexists _, _].
    intros (_ & Hno & _)%kind_step_record. apply Hno. by apply list_elem_of_fmap_2.
  - destruct (not_key_renamed s) as [[Hnone Hren]|(rv & Hget & Hren)];
      rewrite Hren in *; clear Hren.
    + assert (Hf : feeds d (Id s) (Id (st_id st))) by (right; left; by exists st, s).
      destruct (feeds_ids _ _ _ Hf) as [[nu Hnu]%build_nodes_dom _].
      destruct (Hold nu Hf Hnu) as [Hin Hnin].
      destruct (decide (type nu = Some INPUT)) as [Hi|Hi]; [left; by apply Hin|right].
      destruct (Hnin Hi) as (us & rn & [= <-] & Hrn & Hstep). split; [|by eexists _, _].
      intros Hstp. destruct (Hstep Hstp) as (w & Hw & Hport).
      assert (Hkey : s ∈ rewire.*1) by (apply Hport; by eapply agree).
      apply field_get_is_Some in Hkey as [? ?]. congruence.
    + left. apply kind_new. by destruct (key_facts s rv Hget) as (_ & _ & ?).
  - destruct HuV. apply record_in_V; [|done]. left. by apply list_elem_of_fmap_2.
Qed.

Lemma second_pass_quiet (wsteps' : list WorkflowStep) :
  (∀ x, x ∈ V → x ∈ doc_ids (extract d F rewire)) →
  ∃ F', rewire_pass urldefrag set_iter wsteps' (build_nodes (extract d F rewire)) V = Ok (F', []).
Proof.
  intros Hreg'. apply rewire_pass_quiet. intros v Hv%iter. by apply second_quiet; [|apply Hreg'].
Qed.

(** A declared input (old or new) that a reached step or output of the
    extracted document depends on is kept by the second pass. *)
Lemma second_keeps_input (wsteps' : list WorkflowStep) (F' : gset nodeid)
    (x k : string) (nv : _Node) :
  rewire_pass urldefrag set_iter wsteps' (build_nodes (extract d F rewire)) V = Ok (F', []) →
  Id x ∈ V → build_nodes d !! Id x = Some nv →
  type nv = Some STEP ∨ type nv = Some OUTPUT →
  feeds (extract d F rewire) (Id k) (Id x) →
  k ∈ input_ids (extract d F rewire) →
  Id k ∈ F'.
Proof.
  intros Hpass Hx Hnv Hty Hf Hk.
  destruct (decide (Id k ∈ V)) as [HkV|HkV].
  { apply (rewire_pass_listed _ _ _ _ _ _ (Id k) Hpass). by apply iter. }
  destruct (feeds_ids _ _ _ Hf) as [[nu' Hnu']%build_nodes_dom [nv' Hnv']%build_nodes_dom].
  destruct (rewire_pass_complete _ _ _ _ _ _ (Id x) (Id k) nv' nu' Hpass)
    as (_ & Hin & _); try done.
  - by apply iter.
  - rewrite (build_nodes_kind _ _ _ Hnv'), kind_retained;
      [by rewrite <- (build_nodes_kind _ _ _ Hnv)|by apply V_registered|by apply V_sub_F].
  - by apply (build_nodes_edges _ _ _ Hnv').
  - apply Hin. rewrite (build_nodes_kind _ _ _ Hnu'). by apply doc_kind_input.
Qed.

Lemma second_keeps (wsteps' : list WorkflowStep) (F' : gset nodeid) :
  rewire_pass urldefrag set_iter wsteps' (build_nodes (extract d F rewire)) V = Ok (F', []) →
  (∀ x, x ∈ V → x ∈ F') ∧
  (∀ k, k ∈ input_ids d → Id k ∈ F → Id k ∈ F') ∧
  (∀ rv, rv ∈ rewire.*2 → Id rv.1 ∈ F').
Proof.
  intros Hpass.
  assert (HV : ∀ x, x ∈ V → x ∈ F').
  { intros x Hx. apply (rewire_pass_listed _ _ _ _ _ _ x Hpass). by apply iter. }
  destruct (rewire_pass_sound _ _ _ _ _ _ first_pass) as (Hvis & Hnd & Hent).
  simpl in Hvis, Hnd, Hent.
  split; [done|]. split.
  - intros k Hk HF.
    destruct (Hvis _ HF) as [?|(HkV & v & nv & nx & Hv%iter & Hnv & Hty & Hup & Hnx & Htx)];
      [apply HV; by apply iter|].
    assert (Hkv := build_nodes_kind _ _ _ Hnv).
    destruct (kind_not_none v d ltac:(by rewrite <- Hkv)) as [x ->].
    apply (second_keeps_input wsteps' F' x k nv Hpass Hv Hnv Hty).
    + apply (feeds_extract d F rewire scalar).
      apply (build_nodes_edges _ _ _ Hnv) in Hup.
      destruct Hup as [(o & Ho & [= ->] & Hxo)|[(st & s & Hst & [= ->] & Hs & [= ->])|(st & o & Hst & [= ->] & Ho & _)]].
      * left. exists o. split; [done|]. split; [by apply V_sub_F|done].
      * right; left. exists st, s. split; [done|]. split; [by apply V_sub_F|].
        split; [done|]. split; [done|]. by rewrite renamed_input.
      * destruct apart as [Ha _]. destruct (Ha _ Hk) as [_ Hns]. destruct Hns.
        by apply list_elem_of_fmap_2.
    + apply input_ids_extract. by left.
  - intros rv (e & -> & He)%list_elem_of_fmap. destruct e as [u rv]. simpl.
    destruct (Hent u rv He)
      as (_ & HuV & vs & nv & nu & w & p & s & Hvs%iter & Hnv & Hty & Hup & _).
    assert (Hget : field_get u rewire = Some rv) by by apply field_get_NoDup.
    assert (Hrv : rv ∈ rewire.*2) by (apply list_elem_of_fmap; by exists (u, rv)).
    rewrite (build_nodes_kind _ _ _ Hnv) in Hty.
    destruct (kind_step_record _ Hty) as (Hstep & Hnout & _).
    apply (second_keeps_input wsteps' F' vs rv.1 nv Hpass Hvs Hnv).
    + left. by rewrite (build_nodes_kind _ _ _ Hnv).
    + apply (feeds_extract d F rewire scalar).
      apply (build_nodes_edges _ _ _ Hnv) in Hup.
      destruct Hup as [(o & Ho & [= ->] & Hxo)|[(st & s' & Hst & [= ->] & Hs & [= ->])|(st & o & Hst & _ & Ho & [= ->])]].
      * destruct Hnout. by apply list_elem_of_fmap_2.
      * right; left. exists st, s'. split; [done|]. split; [by apply V_sub_F|].
        split; [done|]. split; [done|]. unfold renamed. by rewrite Hget.
      * destruct apart as [_ Ha]. by destruct (Ha st o Hst Ho).
    + apply input_ids_extract. right. by exists rv.
Qed.

(** The second extraction gives back the extracted document. *)
Lemma extract_again (F' : gset nodeid) :
  (∀ x, x ∈ V → x ∈ F') →
  (∀ k, k ∈ input_ids d → Id k ∈ F → Id k ∈ F') →
  (∀ rv, rv ∈ rewire.*2 → Id rv.1 ∈ F') →
  extract (extract d F rewire) F' [] = extract d F rewire.
Proof.
  intros HV Hin Hnew.
  assert (Hi : filter (λ i, Id (inp_id i) ∈ F') (doc_inputs (extract d F rewire))
               = doc_inputs (extract d F rewire)).
  { apply filter_all. simpl. intros i [[HF Hi]%list_elem_of_filter|(rv & -> & Hrv)%list_elem_of_fmap]%elem_of_app.
    - apply Hin; [by apply list_elem_of_fmap_2|done].
    - by apply Hnew. }
  assert (Ho : filter (λ i, Id (out_id i) ∈ F') (doc_outputs (extract d F rewire))
               = doc_outputs (extract d F rewire)).
  { apply filter_all. simpl. intros o [HF Ho]%list_elem_of_filter.
    apply HV, record_in_V; [|done]. right. by apply list_elem_of_fmap_2. }
  assert (Hs : filter (λ i, Id (st_id i) ∈ F') (doc_steps (extract d F rewire))
               = doc_steps (extract d F rewire)).
  { apply filter_all. intros st' (st & Hst & HF & ->)%elem_of_steps_extract. simpl.
    apply HV, record_in_V; [|done]. left. by apply list_elem_of_fmap_2. }
  assert (Hr : rewire_step [] <$> doc_steps (extract d F rewire)
               = doc_steps (extract d F rewire)).
  { assert (Hsc := scalar). revert Hsc.
    generalize (doc_steps (extract d F rewire)). intros l Hsc.
    induction l as [|st l IH]; [done|]. rewrite fmap_cons. f_equal.
    - apply rewire_step_scalar_nil, Hsc. by left.
    - apply IH. intros st' Hst'. apply Hsc. by right. }
  unfold extract at 1. rewrite Hi, Ho, Hs, Hr. simpl. by rewrite app_nil_r.
Qed.

End second_run.

(** ** Extracting twice *)

Ltac cases_in H :=
  repeat (apply elem_of_cons in H as [->|H]); try (by apply elem_of_nil in H).

(** The second run, under the conditions of the first: the walk reaches the
    same set, the pass returns with an empty rewire table, and the same
    document comes back. *)
Lemma second_run (urldefrag : urldefrag_fn) (set_iter : gset nodeid → list nodeid)
    (roots : list string) (tool : Workflow) (d' : Doc)
    (V F : gset nodeid) (rewire : rewire_table)
    (wsteps' : list WorkflowStep) (metadata' : fields) :
  (∀ s x, x ∈ set_iter s ↔ x ∈ s) →
  kinds_apart (wf_tool tool) →
  ports_agree (wf_tool tool) (wf_steps tool) →
  get_subgraph urldefrag set_iter roots tool = Ok d' →
  reach (build_nodes (wf_tool tool)) roots = Ok V →
  rewire_pass urldefrag set_iter (wf_steps tool) (build_nodes (wf_tool tool)) V = Ok (F, rewire) →
  (∀ rv, rv ∈ rewire.*2 → Id rv.1 ∉ doc_ids (wf_tool tool)) →
  (∀ st, st ∈ doc_steps d' → scalar_sources st) →
  (∀ r, r ∈ roots → Id r ∈ doc_ids d') →
  get_subgraph urldefrag set_iter roots (mkWorkflow d' wsteps' metadata') = Ok d' ∧
  ∃ F', reach (build_nodes d') roots = Ok V ∧
        rewire_pass urldefrag set_iter wsteps' (build_nodes d') V = Ok (F', []).
Proof.
  intros Hiter Hapart Hagree Hget HV Hpass Hfresh Hscalar Hroots.
  assert (Hd' : d' = extract (wf_tool tool) F rewire).
  { apply get_subgraph_Ok in Hget as (V0 & F0 & rw0 & HV0 & Hp0 & ->). congruence. }
  subst d'. set (d := wf_tool tool) in *.
  assert (HVreg : ∀ x, x ∈ V → x ∈ doc_ids d).
  { intros x Hx. destruct (reach_grows d roots ∅ V HV) as [_ Hr].
    destruct (Hr x Hx) as [?|?]; [set_solver|done]. }
  assert (HV' : reach (build_nodes (extract d F rewire)) roots = Ok V).
  { by eapply reach_second. }
  assert (HVreg' : ∀ x, x ∈ V → x ∈ doc_ids (extract d F rewire)).
  { intros x Hx. destruct (reach_grows _ roots ∅ V HV') as [_ Hr].
    destruct (Hr x Hx) as [?|?]; [set_solver|done]. }
  destruct (second_pass_quiet urldefrag set_iter Hiter d (wf_steps tool) V F rewire Hapart Hagree HVreg Hpass
              Hfresh Hscalar wsteps' HVreg') as [F' Hpass'].
  destruct (second_keeps urldefrag set_iter Hiter d (wf_steps tool) V F rewire Hapart HVreg Hpass
              Hfresh Hscalar wsteps' F' Hpass') as (K1 & K2 & K3).
  split; [|by exists F'].
  assert (Hcls : ∃ cls, field_get "class" (doc_fields d) = Some cls ∧
                        is_workflow_class cls = true).
  { unfold get_subgraph in Hget. fold d in Hget.
    destruct (field_get "class" (doc_fields d)) as [cls|]; [|done].
    destruct (is_workflow_class cls) eqn:Hc; [by eauto|done]. }
  destruct Hcls as (cls & Hcls & Hwf).
  unfold get_subgraph. simpl.
  change (doc_fields (extract d F rewire)) with (doc_fields d).
  rewrite Hcls, Hwf, HV'. simpl. rewrite Hpass'. simpl. f_equal.
  by eapply extract_again.
Qed.

(** The conditions of the second run on the document [merge_doc], extracted
    from root [B]. *)
Lemma merge_kinds_apart : kinds_apart Examples.merge_doc.
Proof.
  split.
  - intros x Hx. cases_in Hx.
    split; intros H; apply (elem_of_list_to_set (C:=gset string)) in H;
      vm_compute in H; discriminate H.
  - intros st o Hst Ho. cases_in Hst; cases_in Ho.
    all: intros H; apply (elem_of_list_to_set (C:=gset string)) in H;
      vm_compute in H; discriminate H.
Qed.

Lemma merge_ports_agree : ports_agree Examples.merge_doc (wf_steps Examples.merge_wf).
Proof.
  intros st w s Hst Hw Hs. cases_in Hst; cases_in Hs.
  all: vm_compute in Hw; injection Hw as <-.
  all: eexists _, _; (split; [by left|]); split; reflexivity.
Qed.

Lemma merge_new_fresh (rv : string * value) :
  rv ∈ [("wf#A/o", ("wf#A_o", VStr "File"))].*2 → Id rv.1 ∉ doc_ids Examples.merge_doc.
Proof.
  intros Hrv. cases_in Hrv.
  intros H. apply (elem_of_list_to_set (C:=gset nodeid)) in H. vm_compute in H.
  discriminate H.
Qed.

Lemma merge_from_B_scalar (st : StepRec) :
  st ∈ doc_steps Examples.merge_from_B → scalar_sources st.
Proof. intros Hst p l Hp. cases_in Hst. cases_in Hp. discriminate. Qed.

Lemma merge_from_B_root (r : string) :
  r ∈ ["wf#B"] → Id r ∈ doc_ids Examples.merge_from_B.
Proof.
  intros Hr. cases_in Hr.
  apply (elem_of_list_to_set (C:=gset nodeid)). vm_compute. reflexivity.
Qed.




(** * Further properties of the code *)

(** ** The registry of a document (lines 117-149) *)

(** X1.  Every dependency is recorded in both directions: [x] is on the
    [up] list of [k] exactly when [k] is on the [down] list of [x]. *)
Theorem build_nodes_up_down_mirror (d : Doc) (k x : nodeid) :
  x ∈ edges (build_nodes d) UP k ↔ k ∈ edges (build_nodes d) DOWN x.
Proof. by rewrite !edges_build_nodes. Qed.

(** X2.  Every identifier on an [up] or [down] list of the registry is a
    key of the registry, so the lookups [nodes[c]] of the traversal (lines
    38-42) and [nodes[u]] of the rewiring pass (line 168) never miss. *)
Theorem build_nodes_edges_registered (d : Doc) (dir : direction) (k : nodeid) :
  Forall (λ x, is_Some (build_nodes d !! x)) (edges (build_nodes d) dir k).
Proof.
  apply Forall_forall. intros x Hx. unfold edges in Hx.
  destruct (build_nodes d !! k) as [n|] eqn:Hk; [|by apply elem_of_nil in Hx].
  apply (build_nodes_closed d k n x Hk). apply elem_of_app.
  destruct dir; [by left|by right].
Qed.

(** X3.  The keys of the registry are exactly the identifiers of the
    document: the declared inputs, outputs and steps, the identifiers an
    [outputSource] or a [source] names, the output ports of the steps, and
    the object [SeqClass] when an output has no [outputSource]. *)
Theorem build_nodes_keys (d : Doc) (k : nodeid) :
  is_Some (build_nodes d !! k) ↔
  k ∈ (Id <$> input_ids d)
      ++ (doc_outputs d ≫= λ o, Id (out_id o) :: output_sources o)
      ++ (doc_steps d ≫= λ st,
            Id (st_id st) :: (Id <$> step_sources st) ++ (Id <$> step_outs st)).
Proof. apply build_nodes_dom. Qed.

(** X4.  The kind of a registered identifier is the first of [INPUT],
    [OUTPUT], [STEP] under which the document declares it, in that order of
    precedence whatever the order of the records, and is unset when the
    document only references it. *)
Theorem build_nodes_kind_precedence (d : Doc) (k : string) :
  type <$> build_nodes d !! Id k =
    if decide (Id k ∈ doc_ids d) then
      Some (if decide (k ∈ input_ids d) then Some INPUT
            else if decide (k ∈ output_ids d) then Some OUTPUT
            else if decide (k ∈ step_ids d) then Some STEP
            else None)
    else None.
Proof.
  destruct (build_nodes d !! Id k) as [n|] eqn:Hk; simpl.
  - rewrite decide_True by (apply build_nodes_dom; eauto).
    by rewrite (build_nodes_kind d _ _ Hk).
  - rewrite decide_False; [done|]. intros [? ?]%build_nodes_dom. congruence.
Qed.

(** ** The traversal (lines 27-42) *)

(** X5.  On the registry of a document the traversal returns, from any
    registered node, in either direction and with any set already visited,
    as soon as the depth allowed exceeds the number of registered nodes: the
    recursion is never deeper than the number of nodes not yet visited, and
    no lookup misses.  The set it returns contains the visited set and the
    start. *)
Theorem subgraph_visit_returns (d : Doc) (depth : nat) (current : nodeid)
    (visited : gset nodeid) (dir : direction) :
  is_Some (build_nodes d !! current) →
  size (build_nodes d) < depth →
  ∃ R, _subgraph_visit depth current (build_nodes d) visited dir = Ok R ∧
       visited ⊆ R ∧ current ∈ R.
Proof.
  intros Hc Hsize.
  destruct (visit_total (build_nodes d) dir depth current visited) as [R HR];
    [apply build_nodes_closed|done| |].
  - eapply Nat.le_lt_trans; [|done]. rewrite <- size_dom. apply subseteq_size. set_solver.
  - exists R. split; [done|]. by destruct (visit_closed_ok _ _ _ _ _ _ HR) as [[? _] ?].
Qed.

Lemma subgraph_visit_returns_witness :
  ∃ R, _subgraph_visit 20 (Id "wf#A") (build_nodes Examples.merge_doc) ∅ DOWN = Ok R ∧
       (∅ : gset nodeid) ⊆ R ∧ Id "wf#A" ∈ R.
Proof.
  apply (subgraph_visit_returns Examples.merge_doc 20 (Id "wf#A") ∅ DOWN).
  - by eexists.
  - vm_compute. lia.
Defined.

(** ** The roots (lines 152-157) *)

Lemma reach_roots (d : Doc) (roots : list string) (vis R : gset nodeid) :
  for_each (visit_root (build_nodes d)) roots vis = Ok R →
  ∀ r, r ∈ roots → Id r ∈ R.
Proof.
  revert vis. induction roots as [|r0 roots IH]; intros vis H r Hr; simpl in H.
  - by apply elem_of_nil in Hr.
  - destruct (visit_root (build_nodes d) vis r0) as [R1|] eqn:H1; [|done]. simpl in H.
    apply elem_of_cons in Hr as [->|Hr]; [|by eapply IH].
    destruct (visit_root_grows d _ _ _ H1) as (_ & Hin & _).
    by apply (reach_grows d roots R1 R H).
Qed.

Lemma reach_total (d : Doc) (roots : list string) (vis : gset nodeid) :
  (∀ r, r ∈ roots → Id r ∈ doc_ids d) →
  ∃ R, for_each (visit_root (build_nodes d)) roots vis = Ok R.
Proof.
  revert vis. induction roots as [|r roots IH]; intros vis Hreg; simpl; [by eauto|].
  destruct (visit_root_total d vis r) as [R1 ->].
  { apply build_nodes_dom, Hreg. by left. }
  simpl. apply IH. intros r' Hr'. apply Hreg. by right.
Qed.

(** X6.  The walk from the roots returns exactly when every root is an
    identifier of the document, and raises otherwise; the set it returns
    holds every root and nothing but identifiers of the document. *)
Theorem reach_returns_iff (d : Doc) (roots : list string) :
  ((∃ V, reach (build_nodes d) roots = Ok V) ↔ ∀ r, r ∈ roots → Id r ∈ doc_ids d) ∧
  ∀ V, reach (build_nodes d) roots = Ok V →
       (∀ r, r ∈ roots → Id r ∈ V) ∧ (∀ x, x ∈ V → x ∈ doc_ids d).
Proof.
  assert (Hin : ∀ V, reach (build_nodes d) roots = Ok V →
                     (∀ r, r ∈ roots → Id r ∈ V) ∧ (∀ x, x ∈ V → x ∈ doc_ids d)).
  { intros V HV. split; [by eapply reach_roots|].
    intros x Hx. destruct (reach_grows d roots ∅ V HV) as [_ Hr].
    destruct (Hr x Hx) as [?|?]; [set_solver|done]. }
  split; [|done]. split.
  - intros [V HV] r Hr. destruct (Hin V HV) as [H1 H2]. auto.
  - apply reach_total.
Qed.

Lemma reach_returns_iff_witness :
  ((∃ V, reach (build_nodes Examples.merge_doc) ["wf#A"] = Ok V) ↔
   ∀ r, r ∈ ["wf#A"] → Id r ∈ doc_ids Examples.merge_doc) ∧
  ∀ V, reach (build_nodes Examples.merge_doc) ["wf#A"] = Ok V →
       (∀ r, r ∈ ["wf#A"] → Id r ∈ V) ∧ (∀ x, x ∈ V → x ∈ doc_ids Examples.merge_doc).
Proof. apply (reach_returns_iff Examples.merge_doc ["wf#A"]). Defined.

(** ** [get_subgraph]: what is kept, and when it raises *)

Lemma filter_none {A} (P : A → Prop) `{!∀ x, Decision (P x)} (l : list A) :
  (∀ x, x ∈ l → ¬ P x) → filter P l = [].
Proof.
  induction l as [|x l IH]; intros Hall; [done|].
  rewrite filter_cons, decide_False by (apply Hall; by left).
  apply IH. intros y Hy. apply Hall. by right.
Qed.

(** X7.  Without roots nothing is reached: for a document of class
    [Workflow], [get_subgraph] returns the document with no inputs, no
    outputs and no steps, and with every other top-level key as it was. *)
Theorem get_subgraph_no_roots (urldefrag : urldefrag_fn) (set_iter : gset nodeid → list nodeid) (tool : Workflow) :
  set_iter ∅ = [] →
  field_get "class" (doc_fields (wf_tool tool)) = Some (VStr "Workflow") →
  get_subgraph urldefrag set_iter [] tool = Ok (mkDoc [] [] [] (doc_fields (wf_tool tool))).
Proof.
  intros Hiter Hcls. unfold get_subgraph, reach, rewire_pass. rewrite Hcls. simpl.
  rewrite Hiter. simpl. unfold extract. simpl.
  by rewrite !filter_none by (intros x _ Hx; by apply not_elem_of_empty in Hx).
Qed.

Lemma get_subgraph_no_roots_witness :
  get_subgraph Examples.urldefrag elements [] Examples.merge_wf
    = Ok (mkDoc [] [] [] (doc_fields (wf_tool Examples.merge_wf))).
Proof.
  apply (get_subgraph_no_roots Examples.urldefrag elements Examples.merge_wf); reflexivity.
Defined.

(** The final visited set of the rewiring pass. *)
Lemma rewire_pass_visited_iff (urldefrag : urldefrag_fn) (set_iter : gset nodeid → list nodeid)
    (wsteps : list WorkflowStep) (nodes : registry) (visited_down visited : gset nodeid)
    (rewire : rewire_table) (x : nodeid) :
  (∀ s y, y ∈ set_iter s ↔ y ∈ s) →
  rewire_pass urldefrag set_iter wsteps nodes visited_down = Ok (visited, rewire) →
  (x ∈ visited ↔ x ∈ visited_down ∨ input_dependency nodes visited_down x).
Proof.
  intros Hiter Hpass. unfold rewire_pass in Hpass. split.
  - intros Hx. destruct (rewire_pass_sound _ _ _ _ _ _ Hpass) as (Hvis & _).
    destruct (Hvis x Hx) as [?|(HxV & v & nv & nx & Hv & Hnv & Hty & Hup & Hnx & Htx)];
      [left; by apply Hiter|right].
    split; [done|]. exists v, nv, nx. split; [by apply Hiter|done].
  - intros [Hx|(HxV & v & nv & nu & Hv & Hnv & Hty & Hup & Hnu & Htu)].
    + apply (rewire_pass_listed _ _ _ _ _ _ x Hpass). by apply Hiter.
    + destruct (rewire_pass_complete _ _ _ _ _ _ v x nv nu Hpass) as (_ & Hin & _); try done.
      * by apply Hiter.
      * by apply Hin.
Qed.

(** X8.  Which records the returned document holds.  The identifiers
    retained are the reached ones and, beyond them, exactly the declared
    inputs upstream of a reached step or output, whatever the order in which
    the reached set is enumerated.  The outputs of the returned document are
    the outputs of the document with a retained identifier, in their order;
    its steps are the steps with a retained identifier, in their order; its
    inputs start with the declared inputs with a retained identifier, in
    their order, and the new inputs follow. *)
Theorem get_subgraph_retained (urldefrag : urldefrag_fn) (set_iter : gset nodeid → list nodeid)
    (roots : list string) (tool : Workflow) (d' : Doc) (V : gset nodeid) :
  (∀ s y, y ∈ set_iter s ↔ y ∈ s) →
  get_subgraph urldefrag set_iter roots tool = Ok d' →
  reach (build_nodes (wf_tool tool)) roots = Ok V →
  ∃ F : gset nodeid,
    (∀ x, x ∈ F ↔ x ∈ V ∨ input_dependency (build_nodes (wf_tool tool)) V x) ∧
    doc_outputs d' = filter (λ o, Id (out_id o) ∈ F) (doc_outputs (wf_tool tool)) ∧
    st_id <$> doc_steps d'
      = st_id <$> filter (λ st, Id (st_id st) ∈ F) (doc_steps (wf_tool tool)) ∧
    ∃ new, doc_inputs d'
             = filter (λ i, Id (inp_id i) ∈ F) (doc_inputs (wf_tool tool)) ++ new.
Proof.
  intros Hiter (V' & F & rewire & HV' & Hpass & ->)%get_subgraph_Ok HV.
  rewrite HV in HV'. injection HV' as <-. exists F.
  split; [intros x; by apply (rewire_pass_visited_iff _ _ _ _ _ _ _ x Hiter Hpass)|].
  simpl. split; [done|]. split; [|by eexists].
  rewrite <- list_fmap_compose. by apply list_fmap_ext.
Qed.

Lemma get_subgraph_retained_witness :
  ∃ F : gset nodeid,
    (∀ x, x ∈ F ↔ x ∈ ({[Id "wf#B"; Id "wf#B/o"; Id "wf#O"]} : gset nodeid) ∨
          input_dependency (build_nodes (wf_tool Examples.merge_wf))
            {[Id "wf#B"; Id "wf#B/o"; Id "wf#O"]} x) ∧
    doc_outputs Examples.merge_from_B
      = filter (λ o, Id (out_id o) ∈ F) (doc_outputs (wf_tool Examples.merge_wf)) ∧
    st_id <$> doc_steps Examples.merge_from_B
      = st_id <$> filter (λ st, Id (st_id st) ∈ F) (doc_steps (wf_tool Examples.merge_wf)) ∧
    ∃ new, doc_inputs Examples.merge_from_B
             = filter (λ i, Id (inp_id i) ∈ F) (doc_inputs (wf_tool Examples.merge_wf))
                 ++ new.
Proof.
  apply (get_subgraph_retained Examples.urldefrag elements ["wf#B"] Examples.merge_wf Examples.merge_from_B
           {[Id "wf#B"; Id "wf#B/o"; Id "wf#O"]} elements_iter).
  - vm_compute. reflexivity.
  - vm_compute. reflexivity.
Defined.

(** X9.  What [get_subgraph] leaves alone.  The returned document has the
    other top-level keys of the document unchanged; its outputs are outputs
    of the document, unchanged (an [outputSource] is never rewritten) and in
    their order; its steps are steps of the document in their order, with
    their identifier, output ports and other keys unchanged and with the
    same input ports, of which only the [source] may differ; its inputs are
    inputs of the document, unchanged and in their order, followed by new
    records that hold an [id] and a [type] and nothing else. *)
Theorem get_subgraph_frame (urldefrag : urldefrag_fn) (set_iter : gset nodeid → list nodeid)
    (roots : list string) (tool : Workflow) (d' : Doc) :
  get_subgraph urldefrag set_iter roots tool = Ok d' →
  doc_fields d' = doc_fields (wf_tool tool) ∧
  doc_outputs d' `sublist_of` doc_outputs (wf_tool tool) ∧
  (∃ kept, kept `sublist_of` doc_steps (wf_tool tool) ∧
     Forall2 (λ i i', st_id i' = st_id i ∧ st_out i' = st_out i ∧
                      st_fields i' = st_fields i ∧
                      Forall2 (λ p p', in_id p' = in_id p ∧
                                 in_linkMerge p' = in_linkMerge p ∧
                                 in_default p' = in_default p ∧
                                 in_fields p' = in_fields p)
                        (st_in i) (st_in i'))
       kept (doc_steps d')) ∧
  ∃ kept new, doc_inputs d' = kept ++ new ∧
    kept `sublist_of` doc_inputs (wf_tool tool) ∧
    Forall (λ i, ∃ ty, inp_fields i = [("type", ty)]) new.
Proof.
  intros (V & visited & rewire & _ & _ & ->)%get_subgraph_Ok. simpl.
  split; [done|]. split; [apply sublist_filter|]. split.
  - exists (filter (λ i, Id (st_id i) ∈ visited) (doc_steps (wf_tool tool))).
    split; [apply sublist_filter|].
    apply Forall2_fmap_r, Forall_Forall2_diag, Forall_forall. intros i _.
    simpl. split; [done|]. split; [done|]. split; [done|].
    apply Forall2_fmap_r, Forall_Forall2_diag, Forall_forall. intros p _.
    unfold rewire_port. simpl. by destruct (in_source p).
  - exists (filter (λ i, Id (inp_id i) ∈ visited) (doc_inputs (wf_tool tool))),
      (new_input <$> rewire.*2).
    split; [done|]. split; [apply sublist_filter|].
    apply Forall_fmap, Forall_forall. intros rv _. by eexists.
Qed.

Lemma get_subgraph_frame_witness :
  doc_fields Examples.merge_from_B = doc_fields (wf_tool Examples.merge_wf) ∧
  doc_outputs Examples.merge_from_B `sublist_of` doc_outputs (wf_tool Examples.merge_wf) ∧
  (∃ kept, kept `sublist_of` doc_steps (wf_tool Examples.merge_wf) ∧
     Forall2 (λ i i', st_id i' = st_id i ∧ st_out i' = st_out i ∧
                      st_fields i' = st_fields i ∧
                      Forall2 (λ p p', in_id p' = in_id p ∧
                                 in_linkMerge p' = in_linkMerge p ∧
                                 in_default p' = in_default p ∧
                                 in_fields p' = in_fields p)
                        (st_in i) (st_in i'))
       kept (doc_steps Examples.merge_from_B)) ∧
  ∃ kept new, doc_inputs Examples.merge_from_B = kept ++ new ∧
    kept `sublist_of` doc_inputs (wf_tool Examples.merge_wf) ∧
    Forall (λ i, ∃ ty, inp_fields i = [("type", ty)]) new.
Proof.
  apply (get_subgraph_frame Examples.urldefrag elements ["wf#B"] Examples.merge_wf Examples.merge_from_B).
  vm_compute. reflexivity.
Defined.

(** X10.  A reached step that cannot be located is fatal: if the walk from
    the roots returns, some reached node of kind [STEP] has an upstream
    dependency that was not reached and is not an input, and [find_step]
    does not find that step among the step objects, then [get_subgraph]
    raises and returns no document. *)
Theorem get_subgraph_step_not_located (urldefrag : urldefrag_fn) (set_iter : gset nodeid → list nodeid)
    (roots : list string) (tool : Workflow) (V : gset nodeid) (v u : string) (nv : _Node) :
  (∀ s y, y ∈ set_iter s ↔ y ∈ s) →
  reach (build_nodes (wf_tool tool)) roots = Ok V →
  dangling (build_nodes (wf_tool tool)) V (Id v) (Id u) →
  build_nodes (wf_tool tool) !! Id v = Some nv → type nv = Some STEP →
  find_step (wf_steps tool) v = None →
  ∃ e, get_subgraph urldefrag set_iter roots tool = Raise e.
Proof.
  intros Hiter HV (Hv & Hu & nv' & nu & Hnv' & Hup & Hnu & Hni) Hnv Hty Hfind.
  destruct (get_subgraph urldefrag set_iter roots tool) as [d'|e] eqn:Hget; [|by eexists].
  apply get_subgraph_Ok in Hget as (V0 & visited & rewire & HV0 & Hpass & _).
  rewrite HV in HV0. injection HV0 as <-. unfold rewire_pass in Hpass.
  rewrite Hnv in Hnv'. injection Hnv' as <-.
  destruct (rewire_pass_complete _ _ _ _ _ _ (Id v) (Id u) nv nu Hpass)
    as (_ & _ & Hc); [by apply Hiter|done|by left|done..|].
  destruct (Hc Hni Hty) as (vs & us & w & [= <-] & _ & Hw & _). congruence.
Qed.

Lemma get_subgraph_step_not_located_witness :
  ∃ e, get_subgraph Examples.urldefrag elements ["wf#B"]
         (mkWorkflow Examples.merge_doc [] []) = Raise e.
Proof.
  apply (get_subgraph_step_not_located Examples.urldefrag elements ["wf#B"]
           (mkWorkflow Examples.merge_doc [] [])
           {[Id "wf#B"; Id "wf#B/o"; Id "wf#O"]} "wf#B" "wf#A/o"
           (mk_Node [Id "wf#A/o"] [Id "wf#B/o"] (Some STEP)) elements_iter).
  - vm_compute. reflexivity.
  - split; [by vm_compute|]. split; [vm_compute; intros H; discriminate H|].
    eexists _, _. split; [reflexivity|]. split; [by left|]. split; [reflexivity|done].
  - reflexivity.
  - reflexivity.
  - reflexivity.
Defined.

(** ** The rewiring pass: when it returns, and the order of enumeration *)

Lemma for_each_returns {A S} (f : S → A → result S) (P : A → Prop) (l : list A) :
  (∀ s x, x ∈ l → (∃ s', f s x = Ok s') ↔ P x) →
  ∀ st, (∃ st', for_each f l st = Ok st') ↔ ∀ x, x ∈ l → P x.
Proof.
  induction l as [|x l IH]; intros Hf st; simpl.
  - split; [intros _ x Hx; by apply elem_of_nil in Hx|by eauto].
  - assert (Hf' : ∀ s z, z ∈ l → (∃ s', f s z = Ok s') ↔ P z).
    { intros s z Hz. apply Hf. by right. }
    split.
    + intros [st' H]. destruct (f st x) as [s1|] eqn:H1; [|done]. simpl in H.
      intros y [->|Hy]%elem_of_cons.
      * apply (Hf st); [by left|by eauto].
      * apply (proj1 (IH Hf' s1)); [by eauto|done].
    + intros HP. destruct (proj2 (Hf st x ltac:(by left)) (HP x ltac:(by left))) as [s1 ->].
      simpl. apply IH; [done|]. intros z Hz. apply HP. by right.
Qed.

Lemma rewire_up_returns (urldefrag : urldefrag_fn) (wsteps : list WorkflowStep)
    (nodes : registry) (visited_down : gset nodeid) (v : nodeid) (nv : _Node)
    (st : rewire_state) (u : nodeid) :
  (∃ st', rewire_up urldefrag wsteps nodes visited_down v nv st u = Ok st') ↔
  up_ok urldefrag wsteps nodes visited_down v nv u.
Proof.
  unfold rewire_up, up_ok, flatten_id. destruct (decide (u ∈ visited_down)) as [Hu|Hu].
  { split; [by left|by eauto]. }
  destruct (nodes !! u) as [nu|];
    [|split; [by intros [? ?]|intros [?|(? & ? & _)]; done]].
  destruct (decide (type nu = Some INPUT)) as [Hi|Hi].
  { split; [|by eauto]. intros _. right. exists nu. split; [done|by left]. }
  destruct u as [us|].
  - destruct (urldefrag us) as [df|e] eqn:Hdf; simpl.
    + destruct (decide (type nv = Some STEP)) as [Hs|Hs].
      * destruct v as [vs|].
        -- destruct (find_step wsteps vs) as [w|] eqn:Hw.
           ++ split; [|by eauto]. intros _. right. exists nu. split; [done|]. right.
              exists us, df. split; [done|]. split; [done|]. intros _. by exists vs, w.
           ++ split; [by intros [? ?]|].
              intros [?|(nu' & [= <-] & [?|(us' & df' & _ & _ & H)])]; [done..|].
              destruct (H Hs) as (vs' & w & [= <-] & Hw'). congruence.
        -- split; [by intros [? ?]|].
           intros [?|(nu' & [= <-] & [?|(us' & df' & _ & _ & H)])]; [done..|].
           by destruct (H Hs) as (vs' & w & ? & _).
      * split; [|by eauto]. intros _. right. exists nu. split; [done|]. right.
        exists us, df. split; [done|]. split; [done|]. intros ?. contradiction.
    + split; [by intros [? ?]|].
      intros [?|(nu' & [= <-] & [?|(us' & df' & [= <-] & Hdf' & _)])]; [done..|].
      congruence.
  - split; [by intros [? ?]|].
    intros [?|(nu' & [= <-] & [?|(us' & df' & ? & _)])]; done.
Qed.

Lemma rewire_node_returns (urldefrag : urldefrag_fn) (wsteps : list WorkflowStep)
    (nodes : registry) (visited_down : gset nodeid) (st : rewire_state) (v : nodeid) :
  (∃ st', rewire_node urldefrag wsteps nodes visited_down st v = Ok st') ↔
  node_ok urldefrag wsteps nodes visited_down v.
Proof.
  unfold rewire_node, node_ok.
  destruct (nodes !! v) as [nv|]; [|split; [by intros [? ?]|by intros (? & ? & _)]].
  destruct (decide (type nv = Some STEP ∨ type nv = Some OUTPUT)) as [Hty|Hty].
  - rewrite (for_each_returns _ (up_ok urldefrag wsteps nodes visited_down v nv))
      by (intros; apply rewire_up_returns).
    split; [intros H; exists nv; by split|]. intros (nv' & [= <-] & H). by apply H.
  - split; [|by eauto]. intros _. exists nv. split; [done|]. intros ?. contradiction.
Qed.

Lemma rewire_pass_returns (urldefrag : urldefrag_fn) (set_iter : gset nodeid → list nodeid)
    (wsteps : list WorkflowStep) (nodes : registry) (visited_down : gset nodeid) :
  (∀ s y, y ∈ set_iter s ↔ y ∈ s) →
  (∃ st, rewire_pass urldefrag set_iter wsteps nodes visited_down = Ok st) ↔
  ∀ v, v ∈ visited_down → node_ok urldefrag wsteps nodes visited_down v.
Proof.
  intros Hiter. unfold rewire_pass.
  rewrite (for_each_returns _ (node_ok urldefrag wsteps nodes visited_down))
    by (intros; apply rewire_node_returns).
  split; intros H v Hv; apply H; by apply Hiter.
Qed.

(** X11.  When [get_subgraph] returns a document, and when it raises: it
    returns exactly when the class of the document is [Workflow], every root
    is an identifier of the document, and the rewiring pass raises at no
    reached node: for a reached step or output, every upstream dependency
    that was not reached is a declared input, or else a string identifier
    on which [urldefrag] returns (line 172 calls it before anything else is
    looked at, and its exception is not caught), and a reached step with
    such a dependency is located by [find_step]. *)
Theorem get_subgraph_returns_iff (urldefrag : urldefrag_fn)
    (set_iter : gset nodeid → list nodeid) (roots : list string) (tool : Workflow) :
  (∀ s y, y ∈ set_iter s ↔ y ∈ s) →
  (∃ d', get_subgraph urldefrag set_iter roots tool = Ok d') ↔
  field_get "class" (doc_fields (wf_tool tool)) = Some (VStr "Workflow") ∧
  (∀ r, r ∈ roots → Id r ∈ doc_ids (wf_tool tool)) ∧
  ∀ V, reach (build_nodes (wf_tool tool)) roots = Ok V →
    ∀ v, v ∈ V → node_ok urldefrag (wf_steps tool) (build_nodes (wf_tool tool)) V v.
Proof.
  intros Hiter. split.
  - intros [d' Hget].
    assert (Hcls : field_get "class" (doc_fields (wf_tool tool)) = Some (VStr "Workflow")).
    { unfold get_subgraph in Hget.
      destruct (field_get "class" _) as [[s| |]|]; try done.
      simpl in Hget. destruct (bool_decide (s = "Workflow")) eqn:Hs; [|done].
      by apply bool_decide_eq_true in Hs as ->. }
    apply get_subgraph_Ok in Hget as (V & visited & rewire & HV & Hpass & _).
    split; [done|]. split.
    + intros r Hr. destruct (reach_grows _ roots ∅ V HV) as [_ Hreg].
      destruct (Hreg (Id r)) as [?|?]; [by eapply reach_roots|set_solver|done].
    + intros V' HV' v Hv. rewrite HV in HV'. injection HV' as <-.
      apply (proj1 (rewire_pass_returns urldefrag set_iter _ _ V Hiter)); by eauto.
  - intros (Hcls & Hroots & Hok). unfold get_subgraph. rewrite Hcls. simpl.
    destruct (reach_total (wf_tool tool) roots ∅ Hroots) as [V HV].
    unfold reach at 1. rewrite HV. simpl.
    destruct (proj2 (rewire_pass_returns urldefrag set_iter (wf_steps tool) _ V Hiter)
                (Hok V HV)) as [st ->].
    simpl. by eauto.
Qed.

Lemma get_subgraph_returns_iff_witness :
  (∃ d', get_subgraph Examples.urldefrag elements ["wf#B"] Examples.merge_wf = Ok d') ↔
  field_get "class" (doc_fields (wf_tool Examples.merge_wf)) = Some (VStr "Workflow") ∧
  (∀ r, r ∈ ["wf#B"] → Id r ∈ doc_ids (wf_tool Examples.merge_wf)) ∧
  ∀ V, reach (build_nodes (wf_tool Examples.merge_wf)) ["wf#B"] = Ok V →
    ∀ v, v ∈ V →
      node_ok Examples.urldefrag (wf_steps Examples.merge_wf)
        (build_nodes (wf_tool Examples.merge_wf)) V v.
Proof.
  apply (get_subgraph_returns_iff Examples.urldefrag elements ["wf#B"] Examples.merge_wf
           elements_iter).
Defined.

(** The keys of the rewire table. *)
Lemma rewire_pass_keys (urldefrag : urldefrag_fn) (set_iter : gset nodeid → list nodeid)
    (wsteps : list WorkflowStep) (nodes : registry) (visited_down visited : gset nodeid)
    (rewire : rewire_table) (u : string) :
  (∀ s y, y ∈ set_iter s ↔ y ∈ s) →
  rewire_pass urldefrag set_iter wsteps nodes visited_down = Ok (visited, rewire) →
  u ∈ rewire.*1 ↔
  ∃ vs nv nu w, Id vs ∈ visited_down ∧ nodes !! Id vs = Some nv ∧ type nv = Some STEP ∧
    Id u ∈ up nv ∧ (Id u ∉ visited_down) ∧ nodes !! Id u = Some nu ∧
    type nu ≠ Some INPUT ∧ find_step wsteps vs = Some w ∧ has_port_for w u.
Proof.
  intros Hiter Hpass. unfold rewire_pass in Hpass. split.
  - intros ([u' rv] & -> & Hin)%list_elem_of_fmap.
    destruct (rewire_pass_sound _ _ _ _ _ _ Hpass) as (_ & _ & Hrw).
    destruct (Hrw u' rv Hin)
      as (_ & HuV & vs & nv & nu & w & p & s & Hvs & Hnv & Hty & Hup & Hnu & Hni
          & Hw & Hp & Hs & Hhas & _).
    exists vs, nv, nu, w. split; [by apply Hiter|]. do 7 (split; [done|]). by exists p, s.
  - intros (vs & nv & nu & w & Hvs & Hnv & Hty & Hup & HuV & Hnu & Hni & Hw & Hhas).
    destruct (rewire_pass_complete _ _ _ _ _ _ (Id vs) (Id u) nv nu Hpass)
      as (_ & _ & Hc); [by apply Hiter|done|by left|done..|].
    destruct (Hc Hni Hty) as (vs' & us' & w' & [= <-] & [= <-] & Hw' & Hk).
    apply Hk. congruence.
Qed.

(** The new name of a key, whatever the type of its entry. *)
Lemma rewire_pass_name (urldefrag : urldefrag_fn) (set_iter : gset nodeid → list nodeid)
    (wsteps : list WorkflowStep) (nodes : registry) (visited_down visited : gset nodeid)
    (rewire : rewire_table) (x : string) (rv : string * value) :
  rewire_pass urldefrag set_iter wsteps nodes visited_down = Ok (visited, rewire) →
  (x, rv) ∈ rewire → flatten_id urldefrag x = Ok rv.1.
Proof.
  intros Hpass Hx. unfold rewire_pass in Hpass.
  destruct (rewire_pass_sound _ _ _ _ _ _ Hpass) as (_ & _ & Hrw).
  by destruct (Hrw x rv Hx) as [? _].
Qed.

Lemma rewire_source_ext (rw1 rw2 : rewire_table) (s : source) :
  (∀ x, fst <$> field_get x rw1 = fst <$> field_get x rw2) →
  rewire_source rw1 s = rewire_source rw2 s.
Proof.
  intros Hext. destruct s as [x|l]; simpl.
  - specialize (Hext x).
    destruct (field_get x rw1) as [r1|], (field_get x rw2) as [r2|]; simpl in Hext;
      congruence.
  - f_equal. apply list_omap_ext, Forall_Forall2_diag, Forall_forall.
    intros y _. apply Hext.
Qed.

(** X12.  The order in which Python enumerates the set of reached nodes
    (line 160) does not decide whether [get_subgraph] returns, and decides
    little of what it returns.  Under two enumerations the two runs retain
    the same set of identifiers and make rewire tables with the same keys;
    the documents have the same other keys, the same outputs and the same
    steps, rewired alike; their inputs start with the same retained inputs
    (the declared inputs with a retained identifier, in their order), and
    the new inputs that follow, one per entry of the table of the run, have
    the same identifiers up to their order.  (Their types are read from the
    first port found and are not covered.) *)
Theorem get_subgraph_order_independent (urldefrag : urldefrag_fn)
    (set_iter1 set_iter2 : gset nodeid → list nodeid)
    (roots : list string) (tool : Workflow) :
  (∀ s y, y ∈ set_iter1 s ↔ y ∈ s) →
  (∀ s y, y ∈ set_iter2 s ↔ y ∈ s) →
  ((∃ d1, get_subgraph urldefrag set_iter1 roots tool = Ok d1) ↔
   (∃ d2, get_subgraph urldefrag set_iter2 roots tool = Ok d2)) ∧
  ∀ d1 d2,
    get_subgraph urldefrag set_iter1 roots tool = Ok d1 →
    get_subgraph urldefrag set_iter2 roots tool = Ok d2 →
    doc_fields d1 = doc_fields d2 ∧
    doc_outputs d1 = doc_outputs d2 ∧
    doc_steps d1 = doc_steps d2 ∧
    ∃ V F rw1 rw2,
      reach (build_nodes (wf_tool tool)) roots = Ok V ∧
      rewire_pass urldefrag set_iter1 (wf_steps tool) (build_nodes (wf_tool tool)) V
        = Ok (F, rw1) ∧
      rewire_pass urldefrag set_iter2 (wf_steps tool) (build_nodes (wf_tool tool)) V
        = Ok (F, rw2) ∧
      doc_inputs d1
        = filter (λ i, Id (inp_id i) ∈ F) (doc_inputs (wf_tool tool))
            ++ (new_input <$> rw1.*2) ∧
      doc_inputs d2
        = filter (λ i, Id (inp_id i) ∈ F) (doc_inputs (wf_tool tool))
            ++ (new_input <$> rw2.*2) ∧
      rw1.*1 ≡ₚ rw2.*1 ∧
      inp_id <$> (new_input <$> rw1.*2) ≡ₚ inp_id <$> (new_input <$> rw2.*2).
Proof.
  intros Hiter1 Hiter2. split.
  - assert (Hhalf : ∀ it1 it2 : gset nodeid → list nodeid,
              (∀ s y, y ∈ it1 s ↔ y ∈ s) → (∀ s y, y ∈ it2 s ↔ y ∈ s) →
              (∃ d1, get_subgraph urldefrag it1 roots tool = Ok d1) →
              ∃ d2, get_subgraph urldefrag it2 roots tool = Ok d2).
    { intros it1 it2 H1 H2 [d1 Hget]. unfold get_subgraph in *.
      destruct (field_get "class" _) as [cls|]; [|done].
      destruct (is_workflow_class cls); [|done].
      destruct (reach _ roots) as [V|]; [|done]. simpl in *.
      destruct (rewire_pass urldefrag it1 _ _ V) as [st1|] eqn:Hp1; [|done].
      destruct (proj2 (rewire_pass_returns urldefrag it2 (wf_steps tool)
                         (build_nodes (wf_tool tool)) V H2)) as [st2 ->].
      - apply (rewire_pass_returns urldefrag it1 _ _ V H1). by eauto.
      - simpl. by eauto. }
    split; by apply Hhalf.
  - intros d1 d2 (V & F1 & rw1 & HV & Hp1 & ->)%get_subgraph_Ok
                 (V' & F2 & rw2 & HV' & Hp2 & ->)%get_subgraph_Ok.
    rewrite HV in HV'. injection HV' as <-.
    assert (F1 = F2) as <-.
    { apply set_eq. intros x.
      by rewrite (rewire_pass_visited_iff _ _ _ _ _ _ _ x Hiter1 Hp1),
                 (rewire_pass_visited_iff _ _ _ _ _ _ _ x Hiter2 Hp2). }
    assert (Hkeys : ∀ u, u ∈ rw1.*1 ↔ u ∈ rw2.*1).
    { intros u. by rewrite (rewire_pass_keys _ _ _ _ _ _ _ u Hiter1 Hp1),
                            (rewire_pass_keys _ _ _ _ _ _ _ u Hiter2 Hp2). }
    assert (Hname : ∀ x, fst <$> field_get x rw1 = fst <$> field_get x rw2).
    { intros x.
      destruct (field_get x rw1) as [r1|] eqn:H1, (field_get x rw2) as [r2|] eqn:H2;
        simpl; [| | |done].
      - apply field_get_Some_elem in H1, H2.
        apply (rewire_pass_name _ _ _ _ _ _ _ _ _ Hp1) in H1.
        apply (rewire_pass_name _ _ _ _ _ _ _ _ _ Hp2) in H2. congruence.
      - assert (Hin : x ∈ rw2.*1) by (apply Hkeys, field_get_is_Some; by eauto).
        apply field_get_is_Some in Hin as [? ?]. congruence.
      - assert (Hin : x ∈ rw1.*1) by (apply Hkeys, field_get_is_Some; by eauto).
        apply field_get_is_Some in Hin as [? ?]. congruence. }
    unfold extract. simpl. split; [done|]. split; [done|]. split.
    + apply list_fmap_ext. intros _ i _. unfold rewire_step. f_equal.
      apply list_fmap_ext. intros _ p _. unfold rewire_port.
      destruct (in_source p) as [s|]; [|done]. by rewrite (rewire_source_ext rw1 rw2).
    + exists V, F1, rw1, rw2. do 5 (split; [done|]).
      pose (name := λ u, match flatten_id urldefrag u with Ok rn => rn | Raise _ => u end).
      assert (Hids : ∀ (rw : rewire_table) it F',
                rewire_pass urldefrag it (wf_steps tool) (build_nodes (wf_tool tool)) V
                  = Ok (F', rw) →
                inp_id <$> (new_input <$> rw.*2) = name <$> rw.*1).
      { intros rw it F' Hp. rewrite <- !list_fmap_compose.
        apply list_fmap_ext. intros _ [u rv] Hin%list_elem_of_lookup_2. simpl.
        unfold name. by rewrite (rewire_pass_name _ _ _ _ _ _ _ _ _ Hp Hin). }
      unfold rewire_pass in Hp1, Hp2.
      destruct (rewire_pass_sound _ _ _ _ _ _ Hp1) as (_ & Hnd1 & _).
      destruct (rewire_pass_sound _ _ _ _ _ _ Hp2) as (_ & Hnd2 & _).
      assert (Hperm : rw1.*1 ≡ₚ rw2.*1) by by apply NoDup_Permutation.
      split; [done|].
      rewrite (Hids rw1 set_iter1 F1 Hp1), (Hids rw2 set_iter2 F1 Hp2).
      by apply fmap_Permutation.
Qed.

Lemma get_subgraph_order_independent_witness :
  ((∃ d1, get_subgraph Examples.urldefrag elements ["wf#B"] Examples.merge_wf = Ok d1) ↔
   (∃ d2, get_subgraph Examples.urldefrag (λ s, reverse (elements s)) ["wf#B"]
            Examples.merge_wf = Ok d2)) ∧
  ∀ d1 d2,
    get_subgraph Examples.urldefrag elements ["wf#B"] Examples.merge_wf = Ok d1 →
    get_subgraph Examples.urldefrag (λ s, reverse (elements s)) ["wf#B"]
      Examples.merge_wf = Ok d2 →
    doc_fields d1 = doc_fields d2 ∧
    doc_outputs d1 = doc_outputs d2 ∧
    doc_steps d1 = doc_steps d2 ∧
    ∃ V F rw1 rw2,
      reach (build_nodes (wf_tool Examples.merge_wf)) ["wf#B"] = Ok V ∧
      rewire_pass Examples.urldefrag elements (wf_steps Examples.merge_wf)
        (build_nodes (wf_tool Examples.merge_wf)) V = Ok (F, rw1) ∧
      rewire_pass Examples.urldefrag (λ s, reverse (elements s))
        (wf_steps Examples.merge_wf) (build_nodes (wf_tool Examples.merge_wf)) V
        = Ok (F, rw2) ∧
      doc_inputs d1
        = filter (λ i, Id (inp_id i) ∈ F) (doc_inputs (wf_tool Examples.merge_wf))
            ++ (new_input <$> rw1.*2) ∧
      doc_inputs d2
        = filter (λ i, Id (inp_id i) ∈ F) (doc_inputs (wf_tool Examples.merge_wf))
            ++ (new_input <$> rw2.*2) ∧
      rw1.*1 ≡ₚ rw2.*1 ∧
      inp_id <$> (new_input <$> rw1.*2) ≡ₚ inp_id <$> (new_input <$> rw2.*2).
Proof.
  apply (get_subgraph_order_independent Examples.urldefrag elements
           (λ s, reverse (elements s)) ["wf#B"] Examples.merge_wf elements_iter).
  intros s y. rewrite elem_of_reverse. apply elements_iter.
Defined.

(** ** [get_step]: when it returns, and what it copies *)

Lemma split_one_inv (c : ascii) (s b : string) :
  Str.split c s = [b] → s = b ∧ Str.has_char c b = false.
Proof.
  revert b. induction s as [|x s IH]; intros b; simpl.
  - by intros [= <-].
  - destruct (split_nonempty c s) as (h & t & Hs). rewrite Hs in *.
    destruct (Ascii.eqb x c) eqn:Hx; [done|]. intros [= <- ->].
    destruct (IH h eq_refl) as [-> Hh]. simpl. by rewrite Hx, Hh.
Qed.

Lemma split_two_inv (c : ascii) (s a b : string) :
  Str.split c s = [a; b] →
  s = a +:+ String c b ∧ Str.has_char c a = false ∧ Str.has_char c b = false.
Proof.
  revert a. induction s as [|x s IH]; intros a; simpl; [done|].
  destruct (split_nonempty c s) as (h & t & Hs). rewrite Hs in *.
  destruct (Ascii.eqb x c) eqn:Hx.
  - intros [= <- -> ->]. apply Ascii.eqb_eq in Hx as ->.
    by destruct (split_one_inv c s b Hs) as [-> ?].
  - intros [= <- ->]. destruct (IH h eq_refl) as (-> & Hh & Hb).
    rewrite append_cons. simpl. by rewrite Hx, Hh.
Qed.

(** X13.  When [get_step] returns a document: exactly when [find_step]
    locates the step, the identifier of the located step has exactly one
    ['#'], and the document or else the metadata has a [cwlVersion].  A step
    that is not located raises "was not found"; a located step whose
    identifier has no ['#'], or more than one, makes the unpacking of line
    218 raise, whatever else holds. *)
Theorem get_step_returns_iff (tool : Workflow) (step_id : string) :
  ((∃ d, get_step tool step_id = Ok d) ↔
   ∃ S new_id step_name,
     find_step (wf_steps tool) step_id = Some S ∧
     tool_id S = new_id +:+ "#" +:+ step_name ∧
     Str.has_char "#" new_id = false ∧ Str.has_char "#" step_name = false ∧
     (is_Some (field_get "cwlVersion" (doc_fields (wf_tool tool))) ∨
      is_Some (field_get "cwlVersion" (wf_metadata tool)))) ∧
  (find_step (wf_steps tool) step_id = None →
   get_step tool step_id = Raise (StepNotFound (Id step_id))) ∧
  (∀ S, find_step (wf_steps tool) step_id = Some S →
     (¬ ∃ new_id step_name,
          tool_id S = new_id +:+ "#" +:+ step_name ∧
          Str.has_char "#" new_id = false ∧ Str.has_char "#" step_name = false) →
     get_step tool step_id = Raise ValueError).
Proof.
  split; [split|split].
  - intros [d Hd]. unfold get_step in Hd.
    destruct (find_step (wf_steps tool) step_id) as [S|]; [|done].
    destruct (Str.split "#" (tool_id S)) as [|new_id [|step_name [|? ?]]] eqn:Hsplit;
      try done.
    apply split_two_inv in Hsplit as (Hid & Hn & Hs).
    exists S, new_id, step_name. do 4 (split; [done|]).
    rewrite field_get_set_ne in Hd by done.
    destruct (field_get "cwlVersion" (doc_fields (wf_tool tool))); [left; by eauto|].
    destruct (field_get "cwlVersion" (wf_metadata tool)); [right; by eauto|done].
  - intros (S & new_id & step_name & Hfind & Hid & Hn & Hs & Hver).
    unfold get_step. rewrite Hfind, Hid, split_one_hash by done.
    rewrite field_get_set_ne by done.
    destruct (field_get "cwlVersion" (doc_fields (wf_tool tool))); [by eauto|].
    destruct Hver as [[? ?]|[v ->]]; [done|by eauto].
  - intros Hfind. unfold get_step. by rewrite Hfind.
  - intros S Hfind Hnot. unfold get_step. rewrite Hfind.
    destruct (Str.split "#" (tool_id S)) as [|new_id [|step_name [|? ?]]] eqn:Hsplit;
      try done.
    destruct Hnot. apply split_two_inv in Hsplit as (Hid & Hn & Hs).
    by exists new_id, step_name.
Qed.

Lemma get_step_returns_iff_witness :
  get_step Examples.merge_step_wf "wf#main/T" = Raise (StepNotFound (Id "wf#main/T")).
Proof.
  apply (proj1 (proj2 (get_step_returns_iff Examples.merge_step_wf "wf#main/T"))).
  reflexivity.
Defined.

(** X14.  What [get_step] copies.  In the document it returns, every
    top-level key other than [id] and [cwlVersion] has the value it has in
    the workflow document; [cwlVersion] is the document's own when it has
    one and the metadata's otherwise; each new input has the [default] of
    its port when the port has one and no [default] otherwise; and each port
    of the step keeps its [default] and its other keys. *)
Theorem get_step_copies (tool : Workflow) (step_id : string) (d : StepDoc) :
  get_step tool step_id = Ok d →
  (∀ k, k ≠ "id" → k ≠ "cwlVersion" →
        field_get k (sd_fields d) = field_get k (doc_fields (wf_tool tool))) ∧
  field_get "cwlVersion" (sd_fields d) =
    match field_get "cwlVersion" (doc_fields (wf_tool tool)) with
    | Some v => Some v
    | None => field_get "cwlVersion" (wf_metadata tool)
    end ∧
  ∃ S S', find_step (wf_steps tool) step_id = Some S ∧ sd_steps d = [S'] ∧
    Forall2 (λ p inp, field_get "default" (inp_fields inp) = in_default p)
      (tool_in S) (sd_inputs d) ∧
    Forall2 (λ p p', in_default p' = in_default p ∧ in_fields p' = in_fields p)
      (tool_in S) (tool_in S').
Proof.
  unfold get_step. intros Hd.
  destruct (find_step (wf_steps tool) step_id) as [S|]; [|done].
  destruct (Str.split "#" (tool_id S)) as [|new_id [|step_name [|? ?]]]; try done.
  rewrite field_get_set_ne in Hd by done.
  assert (Hports :
    Forall2 (λ p inp, field_get "default" (inp_fields inp) = in_default p)
      (tool_in S) (step_input_of <$> tool_in S) ∧
    Forall2 (λ p p', in_default p' = in_default p ∧ in_fields p' = in_fields p)
      (tool_in S) (step_port_of <$> tool_in S)).
  { split; apply Forall2_fmap_r, Forall_Forall2_diag, Forall_forall; intros p _.
    - simpl. by destruct (in_default p).
    - done. }
  destruct Hports as [Hin Hport].
  destruct (field_get "cwlVersion" (doc_fields (wf_tool tool))) as [v|] eqn:Hv.
  - injection Hd as <-. simpl. split.
    { intros k Hk _. by rewrite field_get_set_ne. }
    split; [by rewrite field_get_set_ne|].
    eexists S, _. split; [done|]. split; [done|]. by split.
  - destruct (field_get "cwlVersion" (wf_metadata tool)) as [v|] eqn:Hm; [|done].
    injection Hd as <-. simpl. split.
    { intros k Hk Hk'. by rewrite !field_get_set_ne. }
    split; [by rewrite field_get_set_eq|].
    eexists S, _. split; [done|]. split; [done|]. by split.
Qed.

Lemma get_step_copies_witness :
  ∃ d, get_step Examples.merge_step_wf "wf#main/S" = Ok d ∧
    (∀ k, k ≠ "id" → k ≠ "cwlVersion" →
        field_get k (sd_fields d)
          = field_get k (doc_fields (wf_tool Examples.merge_step_wf))) ∧
    field_get "cwlVersion" (sd_fields d) = Some (VStr "v1.2").
Proof.
  destruct (get_step Examples.merge_step_wf "wf#main/S") as [d|] eqn:Hd;
    [|by vm_compute in Hd].
  exists d. split; [done|].
  destruct (get_step_copies Examples.merge_step_wf "wf#main/S" d Hd) as (Hk & Hv & _).
  split; [exact Hk|exact Hv].
Defined.

(** ** Extracting twice, the reached set *)

(** X16.  Extracting again from what was extracted, with the same roots:
    the same document comes back and nothing is rewired.  This needs:
    identifiers that tell the kinds apart; step objects that agree with the
    step records; new input identifiers that are not identifiers of the
    document; no list-valued [source] in the extracted steps (a list loses
    what is not a key of the rewire table, line 196); and roots that are
    identifiers of the extracted document. *)
Theorem get_subgraph_again (urldefrag : urldefrag_fn) (set_iter : gset nodeid → list nodeid)
    (roots : list string) (tool : Workflow) (d' : Doc)
    (V F : gset nodeid) (rewire : rewire_table)
    (wsteps' : list WorkflowStep) (metadata' : fields) :
  (∀ s x, x ∈ set_iter s ↔ x ∈ s) →
  kinds_apart (wf_tool tool) →
  ports_agree (wf_tool tool) (wf_steps tool) →
  get_subgraph urldefrag set_iter roots tool = Ok d' →
  reach (build_nodes (wf_tool tool)) roots = Ok V →
  rewire_pass urldefrag set_iter (wf_steps tool) (build_nodes (wf_tool tool)) V = Ok (F, rewire) →
  (∀ rv, rv ∈ rewire.*2 → Id rv.1 ∉ doc_ids (wf_tool tool)) →
  (∀ st, st ∈ doc_steps d' → scalar_sources st) →
  (∀ r, r ∈ roots → Id r ∈ doc_ids d') →
  get_subgraph urldefrag set_iter roots (mkWorkflow d' wsteps' metadata') = Ok d' ∧
  ∃ F', reach (build_nodes d') roots = Ok V ∧
        rewire_pass urldefrag set_iter wsteps' (build_nodes d') V = Ok (F', []).
Proof.
  intros Hiter Hapart Hagree Hget HV Hpass Hfresh Hscalar Hroots.
  destruct (second_run urldefrag set_iter roots tool d' V F rewire wsteps' metadata'
              Hiter Hapart Hagree Hget HV Hpass Hfresh Hscalar Hroots)
    as (Hget' & F' & HV' & Hpass').
  split; [done|]. by exists F'.
Qed.

Lemma get_subgraph_again_witness :
  get_subgraph Examples.urldefrag elements ["wf#B"]
    (mkWorkflow Examples.merge_from_B
       [Examples.wstep "wf#B" [Examples.port "wf#B/x" "wf#A_o"] ["wf#B/o"]] [])
    = Ok Examples.merge_from_B ∧
  ∃ F', reach (build_nodes Examples.merge_from_B) ["wf#B"]
          = Ok {[Id "wf#B"; Id "wf#B/o"; Id "wf#O"]} ∧
        rewire_pass Examples.urldefrag elements
          [Examples.wstep "wf#B" [Examples.port "wf#B/x" "wf#A_o"] ["wf#B/o"]]
          (build_nodes Examples.merge_from_B) {[Id "wf#B"; Id "wf#B/o"; Id "wf#O"]}
          = Ok (F', []).
Proof.
  apply (get_subgraph_again Examples.urldefrag elements ["wf#B"] Examples.merge_wf
           Examples.merge_from_B
           {[Id "wf#B"; Id "wf#B/o"; Id "wf#O"]} {[Id "wf#B"; Id "wf#B/o"; Id "wf#O"]}
           [("wf#A/o", ("wf#A_o", VStr "File"))]
           [Examples.wstep "wf#B" [Examples.port "wf#B/x" "wf#A_o"] ["wf#B/o"]] []
           elements_iter merge_kinds_apart merge_ports_agree).
  - vm_compute. reflexivity.
  - vm_compute. reflexivity.
  - vm_compute. reflexivity.
  - exact merge_new_fresh.
  - exact merge_from_B_scalar.
  - exact merge_from_B_root.
Defined.

(** ** [find_step]: a target that extends no step identifier *)

Lemma prefix_refl (s : string) : String.prefix s s = true.
Proof. induction s as [|a s IH]; [done|]. simpl. by destruct (Ascii.ascii_dec a a). Qed.

(** X17.  [find_step] looks into the workflow a step runs only when the
    identifier of that step is a prefix of the target: when no step of the
    list has an identifier that the target starts with, nothing is found,
    whatever the nested workflows hold. *)
Theorem find_step_no_prefix (steps : list WorkflowStep) (stepid : string) :
  (∀ st, st ∈ steps → Str.startswith stepid (tool_id st) = false) →
  find_step steps stepid = None.
Proof.
  induction steps as [|st steps IH]; intros H; [done|].
  cbn [find_step]. rewrite find_step_at_unfold, decide_False.
  - rewrite (H st) by (by left). apply IH. intros st' Hst'. apply H. by right.
  - intros Heq. specialize (H st ltac:(by left)). unfold Str.startswith in H.
    by rewrite Heq, prefix_refl in H.
Qed.

Lemma find_step_no_prefix_witness :
  find_step [Examples.step_a; Examples.step_abc] "sub.cwl#c" = None.
Proof.
  apply (find_step_no_prefix [Examples.step_a; Examples.step_abc] "sub.cwl#c").
  intros st Hst. cases_in Hst; reflexivity.
Defined.

(** ** The walk from the roots, when every root goes the same way *)

Lemma walk_inside (nodes : registry) (dir : direction) (vis : gset nodeid) (x z : nodeid) :
  (∀ a b, a ∈ vis → b ∈ edges nodes dir a → b ∈ vis) →
  walk nodes dir ∅ x z → x ∈ vis → z ∈ vis.
Proof.
  intros Hcl. induction 1 as [x Hx|x y z Hx Hy _ IH]; [done|].
  intros Hin. apply IH. by apply (Hcl x).
Qed.

Lemma walk_split (nodes : registry) (dir : direction) (vis : gset nodeid) (x z : nodeid) :
  (∀ a b, a ∈ vis → b ∈ edges nodes dir a → b ∈ vis) →
  walk nodes dir ∅ x z → z ∈ vis ∨ walk nodes dir vis x z.
Proof.
  intros Hcl Hw. destruct (decide (x ∈ vis)) as [Hx|Hx].
  { left. by eapply walk_inside. }
  induction Hw as [x _|x y z _ Hy Hw IH]; [right; by apply walk_here|].
  destruct (decide (y ∈ vis)) as [Hyv|Hyv].
  - left. by eapply walk_inside.
  - destruct (IH Hyv) as [?|?]; [by left|right]. by eapply walk_step.
Qed.

Lemma reach_one_way (d : Doc) (dir : direction) (roots : list string) (vis R : gset nodeid) :
  (∀ r n, r ∈ roots → build_nodes d !! Id r = Some n →
          (if decide (type n = Some OUTPUT) then UP else DOWN) = dir) →
  (∀ a b, a ∈ vis → b ∈ edges (build_nodes d) dir a → b ∈ vis) →
  for_each (visit_root (build_nodes d)) roots vis = Ok R →
  (∀ a b, a ∈ R → b ∈ edges (build_nodes d) dir a → b ∈ R) ∧
  ∀ z, z ∈ R ↔ z ∈ vis ∨ ∃ r, r ∈ roots ∧ walk (build_nodes d) dir ∅ (Id r) z.
Proof.
  revert vis. induction roots as [|r roots IH]; intros vis Hdir Hcl H; simpl in H.
  - injection H as <-. split; [done|]. intros z. split; [by left|].
    intros [?|(r & Hr & _)]; [done|by apply elem_of_nil in Hr].
  - destruct (visit_root (build_nodes d) vis r) as [R1|] eqn:H1; [|done]. simpl in H.
    destruct (visit_root_inv _ _ _ _ H1) as [n Hn].
    destruct (visit_root_spec d vis r n Hn) as (R1' & H1' & Hspec).
    rewrite H1 in H1'. injection H1' as <-.
    rewrite (Hdir r n ltac:(by left) Hn) in Hspec.
    assert (Hcl1 : ∀ a b, a ∈ R1 → b ∈ edges (build_nodes d) dir a → b ∈ R1).
    { intros a b [Ha|Ha]%Hspec Hb; apply Hspec.
      - left. by apply (Hcl a).
      - destruct (decide (b ∈ vis)); [by left|right]. by eapply walk_snoc. }
    destruct (IH R1) as [HclR HR]; [|done..|].
    { intros r' n' Hr'. apply Hdir. by right. }
    split; [done|]. intros z. rewrite HR, Hspec. split.
    + intros [[?|Hw]|(r' & Hr' & Hw)]; [by left| |].
      * right. exists r. split; [by left|].
        apply (walk_mono _ _ ∅ vis); [set_solver|done].
      * right. exists r'. split; [by right|done].
    + intros [?|(r' & [->|Hr']%elem_of_cons & Hw)]; [by left; left| |].
      * left. by apply walk_split.
      * right. by exists r'.
Qed.

(** X18.  When every root is walked in the same direction (no root is an
    output, or every root is), the set the walk from the roots returns is
    exactly the set of nodes reachable from some root along edges of that
    direction; so it does not depend on the order of the roots, nor on a
    root being given twice. *)
Theorem reach_one_direction (d : Doc) (dir : direction) (roots : list string)
    (V : gset nodeid) (z : nodeid) :
  (∀ r n, r ∈ roots → build_nodes d !! Id r = Some n →
          (if decide (type n = Some OUTPUT) then UP else DOWN) = dir) →
  reach (build_nodes d) roots = Ok V →
  (z ∈ V ↔ ∃ r, r ∈ roots ∧ walk (build_nodes d) dir ∅ (Id r) z).
Proof.
  intros Hdir HV. destruct (reach_one_way d dir roots ∅ V Hdir) as [_ H]; [set_solver|done|].
  rewrite H. split; [|by right]. intros [?|?]; [set_solver|done].
Qed.

Lemma reach_one_direction_witness :
  Id "wf#O" ∈ ({[Id "wf#A"; Id "wf#A/o"; Id "wf#B"; Id "wf#B/o"; Id "wf#O"]} : gset nodeid) ↔
  ∃ r, r ∈ ["wf#B"; "wf#A"] ∧ walk (build_nodes Examples.merge_doc) DOWN ∅ (Id r) (Id "wf#O").
Proof.
  apply (reach_one_direction Examples.merge_doc DOWN ["wf#B"; "wf#A"]
           {[Id "wf#A"; Id "wf#A/o"; Id "wf#B"; Id "wf#B/o"; Id "wf#O"]} (Id "wf#O")).
  - intros r n Hr Hn. cases_in Hr; vm_compute in Hn; by injection Hn as <-.
  - vm_compute. reflexivity.
Defined.
